(** * Text chunker for TTS: a shallow embedding of [chunk_tts.py]

    Python strings are sequences of Unicode code points; they are modelled
    as lists of code points ([N]).  Integers that the source uses as
    indices are [Z] where the source can drive them negative (the Tier-3
    loop), and [nat] where they are positions inside a list.

    The [while] loop of the Tier-3 splitter is the only unbounded loop of
    the program; it is modelled with a fuel counter (one unit per
    iteration) and an outcome that tells a result from an exception and
    from an exhausted counter. *)

From Stdlib Require Import String Ascii.
From Stdlib Require Import List ZArith NArith Bool Lia Sorted.
Import ListNotations.

(* ================================================================== *)
(** ** Characters and strings *)

Definition char := N.
Definition str := list char.

Definition lit (s : string) : str :=
  List.map N_of_ascii (list_ascii_of_string s).

Definition SPACE : char := 32%N.
Definition NEWLINE : char := 10%N.
Definition COMMA : char := 44%N.
Definition HYPHEN : char := 45%N.
Definition EN_DASH : char := 8211%N.
Definition EM_DASH : char := 8212%N.
Definition UNDERSCORE : char := 95%N.

Definition char_in (c : char) (set : list char) : bool :=
  existsb (N.eqb c) set.

(** [ch in "-–—"] for a one-character [ch], and the class [[-–—]]. *)
Definition is_dash (c : char) : bool :=
  char_in c [HYPHEN; EN_DASH; EM_DASH].

(** [str.isspace], [str.strip] and the pattern class [\s] all use the same
    predicate of the interpreter (Py_UNICODE_ISSPACE): the code points of
    Unicode's White_Space property and the four separators 1C..1F. *)
Definition isspace (c : char) : bool :=
  ((9 <=? c) && (c <=? 13) || (28 <=? c) && (c <=? 32)
   || (c =? 133) || (c =? 160) || (c =? 5760)
   || (8192 <=? c) && (c <=? 8202)
   || (c =? 8232) || (c =? 8233) || (c =? 8239) || (c =? 8287)
   || (c =? 12288))%N.

(** [[A-Za-z]] *)
Definition is_ascii_letter (c : char) : bool :=
  ((65 <=? c) && (c <=? 90) || (97 <=? c) && (c <=? 122))%N.

Definition is_ascii_digit (c : char) : bool :=
  ((48 <=? c) && (c <=? 57))%N.

(** [str.lower] on a string of ASCII letters. *)
Definition ascii_lower (c : char) : char :=
  if ((65 <=? c) && (c <=? 90))%N then (c + 32)%N else c.

(** The tables of the Unicode database that the program reaches through
    [str.isalnum], the pattern assertion [\b] and the flag
    [re.IGNORECASE] are not part of the program; they are an interface.
    [caseless c p] is the engine's test of a text character [c] against a
    pattern letter [p] under [re.IGNORECASE]. *)
Class UnicodeDB := {
  isalnum : char -> bool;
  caseless : char -> char -> bool;
  isalnum_letter : forall c, is_ascii_letter c = true -> isalnum c = true;
  isalnum_space : forall c, isalnum c = true -> isspace c = false;
  isalnum_dash : forall c, isalnum c = true -> is_dash c = false;
  isalnum_comma : isalnum COMMA = false;
  caseless_letter : forall c p,
    is_ascii_letter p = true -> caseless c p = true -> isspace c = false;
}.

(** [str.strip()] *)
Fixpoint lstrip (s : str) : str :=
  match s with
  | c :: s' => if isspace c then lstrip s' else s
  | [] => []
  end.

Definition rstrip (s : str) : str := rev (lstrip (rev s)).

Definition strip (s : str) : str := rstrip (lstrip s).

(** [len(s)] *)
Definition len (s : str) : Z := Z.of_nat (List.length s).

(* ================================================================== *)
(** ** Python indexing, slicing and searching *)

(** Slice bounds: a negative bound counts from the end, and both are
    clamped to [0, n]. *)
Definition slice_bound (n i : Z) : Z :=
  if (i <? 0)%Z then Z.max (i + n) 0 else Z.min i n.

(** [s[a:b]] *)
Definition py_slice (s : str) (a b : Z) : str :=
  let a' := slice_bound (len s) a in
  let b' := slice_bound (len s) b in
  firstn (Z.to_nat (b' - a')) (skipn (Z.to_nat a') s).

(** [s[i]]; [None] stands for IndexError. *)
Definition py_getitem (s : str) (i : Z) : option char :=
  let j := if (i <? 0)%Z then (i + len s)%Z else i in
  if ((0 <=? j) && (j <? len s))%Z then nth_error s (Z.to_nat j) else None.

Fixpoint index_of (c : char) (s : str) : option nat :=
  match s with
  | [] => None
  | x :: s' => if (x =? c)%N then Some 0 else option_map S (index_of c s')
  end.

(** [s.find(c, a, b)] for a one-character [c]. *)
Definition py_find (c : char) (s : str) (a b : Z) : Z :=
  match index_of c (py_slice s a b) with
  | Some k => (slice_bound (len s) a + Z.of_nat k)%Z
  | None => (-1)%Z
  end.

Fixpoint starts_with (p s : str) : bool :=
  match p, s with
  | [], _ => true
  | x :: p', y :: s' => (x =? y)%N && starts_with p' s'
  | _ :: _, [] => false
  end.

(** The highest offset [>= i] at which [sub] occurs in [s], [s] being the
    text from offset [i] on. *)
Fixpoint last_occurrence (sub s : str) (i : nat) : option nat :=
  match s with
  | [] => None
  | _ :: s' =>
      match last_occurrence sub s' (S i) with
      | Some j => Some j
      | None => if starts_with sub s then Some i else None
      end
  end.

(** [s.rfind(sub)] for a non-empty [sub]. *)
Definition py_rfind (sub s : str) : Z :=
  match last_occurrence sub s 0 with
  | Some j => Z.of_nat j
  | None => (-1)%Z
  end.

(* ================================================================== *)
(** ** Outcomes of the loops *)

Inductive exn := IndexError.

Inductive outcome (A : Type) : Type :=
| Done (a : A)
| Raise (e : exn)
| OutOfFuel.

Arguments Done {A} a.
Arguments Raise {A} e.
Arguments OutOfFuel {A}.

Definition bind {A B} (m : outcome A) (k : A -> outcome B) : outcome B :=
  match m with
  | Done a => k a
  | Raise e => Raise e
  | OutOfFuel => OutOfFuel
  end.

Notation "x <- m ;; k" := (bind m (fun x => k))
  (at level 61, m at next level, right associativity).

(* ================================================================== *)
(** ** Chunk records *)

(** The dictionaries [{"chunk": ..., "rule": ...}] of the splitters. *)
Record piece := mk_piece { piece_chunk : str; piece_rule : string }.

(** The dictionaries [{"chunk", "rule", "length"}] of [chunk_text]. *)
Module Chunk.
Record t := mk { chunk : str; rule : string; length : Z }.
End Chunk.

(** [if segment: chunks.append({...})] *)
Definition append_piece (chunks : list piece) (segment : str) (rule : string)
  : list piece :=
  match segment with
  | [] => chunks
  | _ :: _ => chunks ++ [mk_piece segment rule]
  end.

(* ================================================================== *)
(** ** Tier 3: [fallback_split_by_commas_and_conjs] *)

(** [pos > len(window_slice) * 0.3].  The product is a float; for a
    length below 2^50 the correctly rounded product [n * 0.3] lies on
    the same side of every integer as the exact 3n/10 (it equals 3n/10
    when that is an integer, and is at least 1/10 away from any integer
    otherwise), so the comparison with the integer [pos] is the exact
    one. *)
Definition beyond_30_percent (pos n : Z) : bool := (3 * n <? 10 * pos)%Z.

(** The [for conj in [" and ", " or "]] loop with its [break]. *)
Fixpoint conj_match (window_slice : str) (start : Z) (conjs : list str)
  : option Z :=
  match conjs with
  | [] => None
  | conj_ :: conjs' =>
      let pos := py_rfind conj_ window_slice in
      if negb (pos =? -1)%Z && beyond_30_percent pos (len window_slice)
      then Some (start + pos)%Z
      else conj_match window_slice start conjs'
  end.

Definition CONJS : list str := [lit " and "; lit " or "].

(** Lines 310-336: the cut point of one window and its rule. *)
Definition choose_cut (text : str) (max_len : Z) (base_rule : string)
  (start : Z) : Z * string :=
  let window_end := Z.min (start + max_len) (len text) in
  let comma_pos := py_find COMMA text start window_end in
  if negb (comma_pos =? -1)%Z
  then ((comma_pos + 1)%Z, (base_rule ++ "+comma_split")%string)
  else
    let window_slice := py_slice text start window_end in
    match conj_match window_slice start CONJS with
    | Some match_pos => (match_pos, (base_rule ++ "+conj_split")%string)
    | None => (window_end, (base_rule ++ "+length_limit")%string)
    end.

(** [while start < length and text[start].isspace(): start += 1].
    The counter [k] bounds the iterations by [length - start]. *)
Fixpoint skip_spaces (text : str) (k : nat) (start : Z) : outcome Z :=
  match k with
  | O => Done start
  | S k' =>
      if (start <? len text)%Z then
        match py_getitem text start with
        | None => Raise IndexError
        | Some c => if isspace c then skip_spaces text k' (start + 1)%Z
                    else Done start
        end
      else Done start
  end.

(** The outer [while start < length] loop, one unit of fuel per
    iteration. *)
Fixpoint fallback_loop (fuel : nat) (text : str) (max_len : Z)
  (base_rule : string) (start : Z) (chunks : list piece)
  : outcome (list piece) :=
  match fuel with
  | O => OutOfFuel
  | S fuel' =>
      if (start <? len text)%Z then
        start <- skip_spaces text (Z.to_nat (len text - start)) start ;;
        if (start >=? len text)%Z then Done chunks
        else if (len text - start <=? max_len)%Z then
          Done (append_piece chunks (strip (py_slice text start (len text)))
                  (base_rule ++ "+tail")%string)
        else
          let (cut_at, rule) := choose_cut text max_len base_rule start in
          fallback_loop fuel' text max_len base_rule cut_at
            (append_piece chunks (strip (py_slice text start cut_at)) rule)
      else Done chunks
  end.

Definition fallback_split_by_commas_and_conjs (fuel : nat) (text : str)
  (max_len : Z) (base_rule : string) : outcome (list piece) :=
  fallback_loop fuel text max_len base_rule 0%Z [].

Definition LENGTH_FALLBACK : string := "length_fallback".

Definition MAX_LEN_DEFAULT : Z := 200.

(* ================================================================== *)
(** ** Pattern matching: leftmost, non-overlapping scanning

    [re.sub], [re.split] and [re.finditer] walk the text from left to
    right; at each position the pattern is tried, and after a match the
    walk resumes at the end of the match.  A pattern is given by a
    matcher: from the character before the position (for [\b] and the
    look-behind) and the text from the position on, the length of the
    match that starts there.  None of the program's patterns matches the
    empty string. *)

Inductive token := Lit (c : char) | Hit (m : str).

Section Scanner.
Variable matcher : option char -> str -> option nat.

(** [skip] counts the characters still inside the last match. *)
Fixpoint scan (prev : option char) (skip : nat) (rest : str) : list token :=
  match rest with
  | [] => []
  | c :: rest' =>
      match skip with
      | S k => scan (Some c) k rest'
      | O =>
          match matcher prev rest with
          | Some (S k) => Hit (firstn (S k) rest) :: scan (Some c) k rest'
          | _ => Lit c :: scan (Some c) 0 rest'
          end
      end
  end.

Definition tokens (text : str) : list token := scan None 0 text.
End Scanner.

Definition token_text (repl : str -> str) (t : token) : str :=
  match t with
  | Lit c => [c]
  | Hit m => repl m
  end.

(** [re.sub(pattern, repl, text)] with a function [repl] of the matched
    text. *)
Definition re_sub (matcher : option char -> str -> option nat)
  (repl : str -> str) (text : str) : str :=
  flat_map (token_text repl) (tokens matcher text).

Fixpoint split_tokens (ts : list token) : list str :=
  match ts with
  | [] => [[]]
  | Lit c :: ts' =>
      match split_tokens ts' with
      | p :: ps => (c :: p) :: ps
      | [] => [[c]]
      end
  | Hit _ :: ts' => [] :: split_tokens ts'
  end.

(** [re.split(pattern, text)] for a pattern without groups. *)
Definition re_split (matcher : option char -> str -> option nat)
  (text : str) : list str :=
  split_tokens (tokens matcher text).

(** [m.start() for m in re.finditer(pattern, text)] *)
Fixpoint hit_starts (i : nat) (ts : list token) : list nat :=
  match ts with
  | [] => []
  | Lit _ :: ts' => hit_starts (S i) ts'
  | Hit m :: ts' => i :: hit_starts (i + List.length m) ts'
  end.

Definition re_starts (matcher : option char -> str -> option nat)
  (text : str) : list nat :=
  hit_starts 0 (tokens matcher text).

(** The longest run of whitespace at the head of [s]: a greedy [\s*]. *)
Fixpoint space_run (s : str) : nat :=
  match s with
  | c :: s' => if isspace c then S (space_run s') else 0
  | [] => 0
  end.

(** The longest run of [[A-Za-z]] at the head of [s]. *)
Fixpoint letter_run (s : str) : nat :=
  match s with
  | c :: s' => if is_ascii_letter c then S (letter_run s') else 0
  | [] => 0
  end.

Definition str_eqb (a b : str) : bool :=
  if list_eq_dec N.eq_dec a b then true else false.

Definition nonempty (s : str) : bool :=
  match s with
  | [] => false
  | _ :: _ => true
  end.

(* ================================================================== *)
(** ** [normalize_for_tts] *)

Definition DISCOURSE : list str :=
  List.map lit
    ["however"; "therefore"; "moreover"; "instead"; "nevertheless";
     "nonetheless"; "furthermore"; "meanwhile"; "particularly";
     "especially"; "otherwise"; "similarly"; "consequently"; "thus";
     "indeed"; "additionally"; "though"]%string.

(** *** 1) [[-–—]([^–—\n]*?)[-–—]]

    After the opening dash the lazy group grows one character at a
    time; before each growth the closing class is tried, and it ends the
    pattern, so the first dash of any kind closes the match.  A newline
    before that dash, or the end of the text, leaves no match at this
    opening dash.  The result is the length of group 1. *)
Fixpoint aside_inner (s : str) : option nat :=
  match s with
  | [] => None
  | c :: s' =>
      if is_dash c then Some 0
      else if negb (char_in c [EN_DASH; EM_DASH; NEWLINE])
           then option_map S (aside_inner s')
           else None
  end.

Definition match_aside (prev : option char) (s : str) : option nat :=
  match s with
  | c :: s' =>
      if is_dash c then option_map (fun k => k + 2) (aside_inner s')
      else None
  | [] => None
  end.

Definition replace_aside (m : str) : str :=
  let inner := removelast (tl m) in
  if char_in SPACE (strip inner)
  then lit ", " ++ strip inner ++ lit ", "
  else m.

(** *** 2) [\b([A-Za-z]+)([-–—])([A-Za-z]+)\b] *)

Section WithDB.
Context {db : UnicodeDB}.

(** [\w] *)
Definition isword (c : char) : bool := isalnum c || (c =? UNDERSCORE)%N.

Definition isword_at (c : option char) : bool :=
  match c with
  | Some c => isword c
  | None => false
  end.

(** [\b] between the character before and the character after. *)
Definition word_boundary (before after : option char) : bool :=
  xorb (isword_at before) (isword_at after).

(** Both groups of letters are greedy and can only take their longest
    run: a shorter left group is followed by a letter, not by a dash,
    and a shorter right group ends between two letters, where [\b]
    fails. *)
Definition match_word_dash_word (prev : option char) (s : str) : option nat :=
  let l := letter_run s in
  match skipn l s with
  | d :: s2 =>
      let r := letter_run s2 in
      if (0 <? l) && is_dash d && (0 <? r)
         && word_boundary prev (hd_error s)
         && word_boundary (nth_error s2 (r - 1)) (nth_error s2 r)
      then Some (l + 1 + r)
      else None
  | [] => None
  end.

Definition replace_word_dash_discourse (m : str) : str :=
  let left := firstn (letter_run m) m in
  let right := skipn (letter_run m + 1) m in
  if existsb (str_eqb (List.map ascii_lower right)) DISCOURSE
  then left ++ lit ", " ++ right
  else m.

(** *** 3) The remaining dashes, one character at a time

    [chars] is held with its last element first: [c :: chars'] is a
    buffer whose [chars[-1]] is [c]. *)
Definition dash_step (prev ch nxt : char) (chars : list char) : list char :=
  if is_dash ch then
    if isalnum prev && isalnum nxt then HYPHEN :: chars
    else
      match chars with
      | c :: chars' =>
          if (c =? SPACE)%N then SPACE :: COMMA :: chars'
          else if (c =? COMMA)%N
               then (if negb (nxt =? SPACE)%N then SPACE :: chars else chars)
               else SPACE :: COMMA :: chars
      | [] => [SPACE; COMMA]
      end
  else ch :: chars.

(** [eot] is the character that stands for [text[i + 1]] at the end of
    the text; the program uses a space. *)
Fixpoint dash_loop (eot prev : char) (rest : str) (chars : list char)
  : list char :=
  match rest with
  | [] => chars
  | ch :: rest' =>
      dash_loop eot ch rest' (dash_step prev ch (hd eot rest') chars)
  end.

Definition replace_dashes (text : str) : str :=
  rev (dash_loop SPACE SPACE text []).
End WithDB.

(** *** 4) Whitespace and commas *)

(** [\s+,]: the run of whitespace is greedy; giving characters back
    leaves a whitespace character, not a comma, after it. *)
Definition match_spaces_comma (prev : option char) (s : str) : option nat :=
  let n := space_run s in
  match n, nth_error s n with
  | S _, Some c => if (c =? COMMA)%N then Some (n + 1) else None
  | _, _ => None
  end.

(** [,\s*] *)
Definition match_comma_spaces (prev : option char) (s : str) : option nat :=
  match s with
  | c :: s' => if (c =? COMMA)%N then Some (1 + space_run s') else None
  | [] => None
  end.

(** [\s+] *)
Definition match_spaces (prev : option char) (s : str) : option nat :=
  match space_run s with
  | O => None
  | n => Some n
  end.

Definition normalize_spaces (text : str) : str :=
  let text := re_sub match_spaces_comma (fun _ => [COMMA]) text in
  let text := re_sub match_comma_spaces (fun _ => lit ", ") text in
  let text := re_sub match_spaces (fun _ => [SPACE]) text in
  strip text.

Definition normalize_for_tts {db : UnicodeDB} (text : str) : str :=
  let text := re_sub match_aside replace_aside text in
  let text := re_sub match_word_dash_word replace_word_dash_discourse text in
  let text := replace_dashes text in
  normalize_spaces text.

(* ================================================================== *)
(** ** [split_into_paragraphs] and [split_into_sentences] *)

Fixpoint last_index_of (c : char) (s : str) (i : nat) : option nat :=
  match s with
  | [] => None
  | x :: s' =>
      match last_index_of c s' (S i) with
      | Some j => Some j
      | None => if (x =? c)%N then Some i else None
      end
  end.

(** [\n\s*\n+]: after the first newline, the greedy [\s*] takes the whole
    run of whitespace (newlines are whitespace) and gives characters
    back until a newline follows, which is the last newline of the run;
    [\n+] then takes that one newline.  The match is the first newline,
    the run up to its last newline, and that newline. *)
Definition match_blank_lines (prev : option char) (s : str) : option nat :=
  match s with
  | c :: s' =>
      if (c =? NEWLINE)%N then
        match last_index_of NEWLINE (firstn (space_run s') s') 0 with
        | Some j => Some (j + 2)
        | None => None
        end
      else None
  | [] => None
  end.

Definition split_into_paragraphs (text : str) : list str :=
  let text := strip text in
  if negb (nonempty text) then []
  else
    let paragraphs := re_split match_blank_lines text in
    List.map strip (filter (fun p => nonempty (strip p)) paragraphs).

(** [(?<=[.!?])\s+] *)
Definition match_after_terminal (prev : option char) (s : str) : option nat :=
  match prev with
  | Some p =>
      if char_in p (lit ".!?") then
        match space_run s with
        | O => None
        | n => Some n
        end
      else None
  | None => None
  end.

Definition split_into_sentences (paragraph : str) : list str :=
  let paragraph := re_sub match_spaces (fun _ => [SPACE]) (strip paragraph) in
  if negb (nonempty paragraph) then []
  else
    let parts := re_split match_after_terminal paragraph in
    if (List.length parts =? 1)%nat then [paragraph]
    else List.map strip (filter (fun p => nonempty (strip p)) parts).

(* ================================================================== *)
(** ** Tier 2: subordinators *)

Definition SUBORDINATORS : list str :=
  List.map lit
    ["when"; "while"; "where"; "with"; "before"; "until"; "because";
     "although"; "though"; "since"; "after"; "as"; "if"]%string.

(** [sorted(set(starts))] *)
Fixpoint insert_sorted (x : nat) (l : list nat) : list nat :=
  match l with
  | [] => [x]
  | y :: l' =>
      if (x <? y)%nat then x :: l
      else if (x =? y)%nat then l
      else y :: insert_sorted x l'
  end.

Definition sorted_set (xs : list nat) : list nat :=
  fold_right insert_sorted [] xs.

(** [enumerate(l)] *)
Definition enumerate {A} (l : list A) : list (nat * A) :=
  combine (seq 0 (List.length l)) l.

Definition CLAUSE_SUBORDINATOR : string := "clause_subordinator".
Definition COMMA_FIRST : string := "comma_first".
Definition SENTENCE : string := "sentence".

Section WithDB.
Context {db : UnicodeDB}.

Fixpoint caseless_prefix (w s : str) : bool :=
  match w, s with
  | [], _ => true
  | p :: w', c :: s' => caseless c p && caseless_prefix w' s'
  | _ :: _, [] => false
  end.

(** [\bword\b] under [re.IGNORECASE], [word] a literal. *)
Definition match_word (word : str) (prev : option char) (s : str)
  : option nat :=
  let n := List.length word in
  if word_boundary prev (hd_error s)
     && caseless_prefix word s
     && word_boundary (nth_error s (n - 1)) (nth_error s n)
  then Some n
  else None.

Definition find_subordinator_positions (text : str) : list nat :=
  sorted_set (flat_map (fun word => re_starts (match_word word) text)
                SUBORDINATORS).

(** [starts.insert(0, 0)] when [starts[0] != 0] *)
Definition with_leading_zero (starts : list nat) : list nat :=
  match starts with
  | s0 :: _ => if negb (s0 =? 0)%nat then 0 :: starts else starts
  | [] => starts
  end.

(** The [for i, start in enumerate(starts)] loop; [todo] is what is left
    of the enumeration. *)
Fixpoint clause_loop (fuel : nat) (sentence_text : str) (max_len : Z)
  (starts : list nat) (todo : list (nat * nat)) (clause_chunks : list piece)
  : outcome (list piece) :=
  match todo with
  | [] => Done clause_chunks
  | (i, start) :: todo' =>
      let end_ := match nth_error starts (i + 1) with
                  | Some e => Z.of_nat e
                  | None => len sentence_text
                  end in
      let clause := strip (py_slice sentence_text (Z.of_nat start) end_) in
      if negb (nonempty clause) then
        clause_loop fuel sentence_text max_len starts todo' clause_chunks
      else if (len clause <=? max_len)%Z then
        clause_loop fuel sentence_text max_len starts todo'
          (clause_chunks ++ [mk_piece clause CLAUSE_SUBORDINATOR])
      else
        sub <- fallback_split_by_commas_and_conjs fuel clause max_len
                 CLAUSE_SUBORDINATOR ;;
        clause_loop fuel sentence_text max_len starts todo'
          (clause_chunks ++ sub)
  end.

Definition split_by_subordinators (fuel : nat) (sentence_text : str)
  (max_len : Z) : outcome (list piece) :=
  let starts := find_subordinator_positions sentence_text in
  if negb (0 <? List.length starts)%nat then
    fallback_split_by_commas_and_conjs fuel sentence_text max_len
      LENGTH_FALLBACK
  else
    let starts := with_leading_zero starts in
    clause_loop fuel sentence_text max_len starts (enumerate starts) [].

(* ================================================================== *)
(** ** Tier 1: [split_long_sentence] *)

(** [[i for i, ch in enumerate(sentence_text) if ch == ","]] *)
Definition comma_positions (sentence_text : str) : list nat :=
  List.map fst
    (filter (fun p => (snd p =? COMMA)%N) (enumerate sentence_text)).

(** The [for pos in comma_positions] loop and the tail after it. *)
Fixpoint comma_segments (sentence_text : str) (positions : list nat)
  (prev : nat) (segments : list str) : list str :=
  match positions with
  | [] =>
      let tail := strip (py_slice sentence_text (Z.of_nat prev)
                           (len sentence_text)) in
      if nonempty tail then segments ++ [tail] else segments
  | pos :: positions' =>
      let end_ := pos + 1 in
      let seg := strip (py_slice sentence_text (Z.of_nat prev)
                          (Z.of_nat end_)) in
      comma_segments sentence_text positions' end_
        (if nonempty seg then segments ++ [seg] else segments)
  end.

(** The [for seg in segments] loop. *)
Fixpoint segment_loop (fuel : nat) (max_len : Z) (segments : list str)
  (chunks : list piece) : outcome (list piece) :=
  match segments with
  | [] => Done chunks
  | seg :: segments' =>
      if (len seg <=? max_len)%Z then
        segment_loop fuel max_len segments'
          (chunks ++ [mk_piece seg COMMA_FIRST])
      else
        sub_chunks <- split_by_subordinators fuel seg max_len ;;
        segment_loop fuel max_len segments' (chunks ++ sub_chunks)
  end.

Definition split_long_sentence (fuel : nat) (sentence_text : str)
  (max_len : Z) : outcome (list piece) :=
  let positions := comma_positions sentence_text in
  if (0 <? List.length positions)%nat then
    segment_loop fuel max_len (comma_segments sentence_text positions 0 []) []
  else split_by_subordinators fuel sentence_text max_len.

(* ================================================================== *)
(** ** [process_paragraph] and [chunk_text] *)

Fixpoint sentence_loop (fuel : nat) (max_len : Z) (sentences : list str)
  (chunks : list piece) : outcome (list piece) :=
  match sentences with
  | [] => Done chunks
  | sent_text :: sentences' =>
      let sent_text := strip sent_text in
      if negb (nonempty sent_text) then
        sentence_loop fuel max_len sentences' chunks
      else if (len sent_text <=? max_len)%Z then
        sentence_loop fuel max_len sentences'
          (chunks ++ [mk_piece sent_text SENTENCE])
      else
        clause_chunks <- split_long_sentence fuel sent_text max_len ;;
        sentence_loop fuel max_len sentences' (chunks ++ clause_chunks)
  end.

Definition process_paragraph (fuel : nat) (paragraph : str) (max_len : Z)
  : outcome (list piece) :=
  sentence_loop fuel max_len (split_into_sentences paragraph) [].

Fixpoint paragraph_loop (fuel : nat) (max_len : Z) (paragraphs : list str)
  (all_chunks : list piece) : outcome (list piece) :=
  match paragraphs with
  | [] => Done all_chunks
  | para :: paragraphs' =>
      para_chunks <- process_paragraph fuel para max_len ;;
      paragraph_loop fuel max_len paragraphs' (all_chunks ++ para_chunks)
  end.

(** The final formatting loop. *)
Fixpoint final_chunks (all_chunks : list piece) : list Chunk.t :=
  match all_chunks with
  | [] => []
  | ch :: rest =>
      let chunk_text_str := strip (piece_chunk ch) in
      if negb (nonempty chunk_text_str) then final_chunks rest
      else Chunk.mk chunk_text_str (piece_rule ch) (len chunk_text_str)
             :: final_chunks rest
  end.

Definition chunk_text (fuel : nat) (text : str) (max_len : Z)
  : outcome (list Chunk.t) :=
  let normalized := normalize_for_tts text in
  let paragraphs := split_into_paragraphs normalized in
  all_chunks <- paragraph_loop fuel max_len paragraphs [] ;;
  Done (final_chunks all_chunks).
End WithDB.

(* ================================================================== *)
(** ** The ASCII part of the Unicode database

    On code points below 128 the interpreter's tables are these; the
    instance is used to run the program on ASCII text (and on the two
    dashes, which are neither alphanumeric nor cased). *)

Definition ascii_isalnum (c : char) : bool :=
  is_ascii_letter c || is_ascii_digit c.

Definition ascii_caseless (c p : char) : bool :=
  (ascii_lower c =? ascii_lower p)%N.

Ltac bool_to_prop :=
  repeat match goal with
    | H : (_ && _)%bool = true |- _ => apply andb_true_iff in H; destruct H
    | H : (_ || _)%bool = true |- _ => apply orb_true_iff in H; destruct H
    | H : (_ <=? _)%N = true |- _ => apply N.leb_le in H
    | H : (_ =? _)%N = true |- _ => apply N.eqb_eq in H
    | H : (_ <=? _)%N = false |- _ => apply N.leb_gt in H
    | H : (_ =? _)%N = false |- _ => apply N.eqb_neq in H
    end.

Ltac char_class :=
  repeat match goal with
    | |- (_ || _)%bool = false => apply orb_false_iff; split
    | |- (_ && _)%bool = false => apply andb_false_iff
    | |- (_ =? _)%N = false => apply N.eqb_neq; lia
    | |- (_ <=? _)%N = false \/ (_ <=? _)%N = false =>
        rewrite !N.leb_gt; lia
    end.

#[export] Instance ascii_db : UnicodeDB.
Proof.
  refine {| isalnum := ascii_isalnum; caseless := ascii_caseless |}.
  - intros c H. unfold ascii_isalnum. now rewrite H.
  - intros c H. unfold ascii_isalnum, is_ascii_letter, is_ascii_digit in H.
    unfold isspace. bool_to_prop; char_class.
  - intros c H. unfold ascii_isalnum, is_ascii_letter, is_ascii_digit in H.
    unfold is_dash, char_in, existsb, HYPHEN, EN_DASH, EM_DASH.
    bool_to_prop; char_class; reflexivity.
  - reflexivity.
  - intros c p Hp H. unfold ascii_caseless, ascii_lower in H.
    unfold is_ascii_letter in Hp. apply N.eqb_eq in H.
    assert (Hc : is_ascii_letter c = true).
    { unfold is_ascii_letter.
      destruct (N.leb_spec 65 c), (N.leb_spec c 90), (N.leb_spec 97 c),
        (N.leb_spec c 122); try reflexivity; exfalso;
        destruct (N.leb_spec 65 p), (N.leb_spec p 90), (N.leb_spec 97 p),
          (N.leb_spec p 122); simpl in *; try discriminate; lia. }
    clear H Hp. unfold is_ascii_letter in Hc. unfold isspace.
    bool_to_prop; char_class.
Defined.

(* ================================================================== *)
(** ** Vocabulary of the statements about Tier 3 *)

(** The window of the Tier-3 loop at [start]: [text[start:window_end]]. *)
Definition window (text : str) (max_len start : Z) : str :=
  py_slice text start (Z.min (start + max_len) (len text)).

(** [k] is the offset of the first comma of [w]. *)
Definition first_comma (w : str) (k : nat) : Prop :=
  nth_error w k = Some COMMA /\ forall j, j < k -> nth_error w j <> Some COMMA.

(** [sub] occurs in [w] at offset [p]. *)
Definition occurs_at (sub w : str) (p : nat) : Prop :=
  firstn (length sub) (skipn p w) = sub.

(** [p] is the offset of the last occurrence of [sub] in [w]. *)
Definition last_occurrence_at (sub w : str) (p : nat) : Prop :=
  occurs_at sub w p /\ forall q, p < q -> ~ occurs_at sub w q.

(** The last occurrence of [sub] is at [p], beyond 30% of the window. *)
Definition accepted_at (sub w : str) (p : nat) : Prop :=
  last_occurrence_at sub w p /\ (3 * len w < 10 * Z.of_nat p)%Z.

(** [sub] does not occur, or its last occurrence is not beyond 30%. *)
Definition not_accepted (sub w : str) : Prop :=
  forall p, last_occurrence_at sub w p -> ~ (3 * len w < 10 * Z.of_nat p)%Z.

(** The conjunction rule as the specification words it: the last
    occurrence of either literal, whichever it is, accepted when it
    starts beyond 30% of the window. *)
Definition spec_conj_match (window_slice : str) (start : Z) : option Z :=
  let pos := Z.max (py_rfind (lit " and ") window_slice)
                   (py_rfind (lit " or ") window_slice) in
  if negb (pos =? -1)%Z && beyond_30_percent pos (len window_slice)
  then Some (start + pos)%Z
  else None.

(** The cut point with that reading of the conjunction rule. *)
Definition spec_choose_cut (text : str) (max_len : Z) (base_rule : string)
  (start : Z) : Z * string :=
  let window_end := Z.min (start + max_len) (len text) in
  let comma_pos := py_find COMMA text start window_end in
  if negb (comma_pos =? -1)%Z
  then ((comma_pos + 1)%Z, (base_rule ++ "+comma_split")%string)
  else
    match spec_conj_match (py_slice text start window_end) start with
    | Some match_pos => (match_pos, (base_rule ++ "+conj_split")%string)
    | None => (window_end, (base_rule ++ "+length_limit")%string)
    end.

(** The rule suffixes of a cut, and of every fragment. *)
Definition cut_suffixes : list string :=
  ["+comma_split"; "+conj_split"; "+length_limit"]%string.

(** The position the loop reaches after skipping whitespace from [i]. *)
Definition after_spaces (text : str) (i : nat) : nat :=
  i + space_run (skipn i text).


Definition fallback_suffixes : list string :=
  ("+tail" :: cut_suffixes)%string.

(** What every fragment of the fallback splitter satisfies. *)
Definition fallback_piece (base_rule : string) (max_len : Z) (p : piece)
  : Prop :=
  (len (strip (piece_chunk p)) <= max_len)%Z
  /\ (len (piece_chunk p) <= max_len)%Z
  /\ piece_chunk p <> []
  /\ strip (piece_chunk p) = piece_chunk p
  /\ exists sfx, In sfx fallback_suffixes
                 /\ piece_rule p = (base_rule ++ sfx)%string.

(* ================================================================== *)
(** ** Vocabulary of the statements about Tier 2 *)

(** The clause spans [[start_i, start_{i+1})] of a list of boundaries,
    the last one extending to [n]. *)
Fixpoint spans (boundaries : list nat) (n : nat) : list (nat * nat) :=
  match boundaries with
  | [] => []
  | b :: rest =>
      (b, match rest with
          | e :: _ => e
          | [] => n
          end) :: spans rest n
  end.

(** Outcomes in sequence: the pieces of the first, then of the others;
    the first failure ends the sequence. *)
Fixpoint collect (parts : list (outcome (list piece)))
  : outcome (list piece) :=
  match parts with
  | [] => Done []
  | m :: parts' =>
      first <- m ;;
      others <- collect parts' ;;
      Done (first ++ others)
  end.

(** What Tier 2 does with the clause of one span. *)
Definition clause_pieces (fuel : nat) (sentence_text : str) (max_len : Z)
  (span : nat * nat) : outcome (list piece) :=
  let clause := strip (py_slice sentence_text (Z.of_nat (fst span))
                         (Z.of_nat (snd span))) in
  if negb (nonempty clause) then Done []
  else if (len clause <=? max_len)%Z
       then Done [mk_piece clause CLAUSE_SUBORDINATOR]
       else fallback_split_by_commas_and_conjs fuel clause max_len
              CLAUSE_SUBORDINATOR.

(* ================================================================== *)
(** ** Vocabulary of the statements about the pipeline *)

(** A text without its whitespace. *)
Definition drop_ws (s : str) : str :=
  filter (fun c => negb (isspace c)) s.

(** The texts of a list of pieces, one after the other. *)
Definition pieces_text (chunks : list piece) : str :=
  flat_map piece_chunk chunks.

(** A piece within the budget, trimmed and not empty. *)
Definition good_piece (max_len : Z) (p : piece) : Prop :=
  (len (piece_chunk p) <= max_len)%Z
  /\ piece_chunk p <> []
  /\ strip (piece_chunk p) = piece_chunk p.

(** The body of the [for seg in segments] loop. *)
Definition segment_pieces {db : UnicodeDB} (fuel : nat) (max_len : Z)
  (seg : str) : outcome (list piece) :=
  if (len seg <=? max_len)%Z then Done [mk_piece seg COMMA_FIRST]
  else split_by_subordinators fuel seg max_len.

(** The body of the [for sent_text in sentences] loop. *)
Definition sentence_pieces {db : UnicodeDB} (fuel : nat) (max_len : Z)
  (sent_text : str) : outcome (list piece) :=
  let sent_text := strip sent_text in
  if negb (nonempty sent_text) then Done []
  else if (len sent_text <=? max_len)%Z
       then Done [mk_piece sent_text SENTENCE]
       else split_long_sentence fuel sent_text max_len.

(** [run], a computation that takes fuel, returns [a] from some amount
    of fuel on. *)
Definition settles {A} (run : nat -> outcome A) (a : A) : Prop :=
  exists fuel0, forall fuel, fuel0 <= fuel -> run fuel = Done a.

(** A splitter run on [input]: it returns, and what it returns are good
    pieces whose texts, whitespace apart, make up [input]. *)
Definition splits (max_len : Z) (input : str)
  (run : nat -> outcome (list piece)) : Prop :=
  (exists out, settles run out)
  /\ (forall fuel out, run fuel = Done out ->
        Forall (good_piece max_len) out
        /\ drop_ws (pieces_text out) = drop_ws input).

(** A property of the matched texts of a list of tokens. *)
Definition hit_property (P : str -> Prop) (t : token) : Prop :=
  match t with
  | Lit _ => True
  | Hit m => P m
  end.

(** A text made of whitespace only. *)
Definition blank (m : str) : Prop := drop_ws m = [].


(** The text of a span of [s]. *)
Definition span_text (s : str) (span : nat * nat) : str :=
  py_slice s (Z.of_nat (fst span)) (Z.of_nat (snd span)).

(** A text that is not empty and is its own [strip]. *)
Definition trimmed (seg : str) : Prop := seg <> [] /\ strip seg = seg.

(** The chunk record of a piece that is already trimmed. *)
Definition chunk_of_piece (p : piece) : Chunk.t :=
  Chunk.mk (piece_chunk p) (piece_rule p) (len (piece_chunk p)).


(* ================================================================== *)
(** ** Vocabulary of the statements about repeated normalization *)

(** Two commas with nothing but whitespace between them. *)
Definition double_comma (t : str) : Prop :=
  exists a ws b,
    t = a ++ COMMA :: ws ++ COMMA :: b
    /\ Forall (fun c => isspace c = true) ws.

(** Every two neighbours of [l] are related by [P]. *)
Fixpoint adjacent (P : char -> char -> Prop) (l : str) : Prop :=
  match l with
  | x :: l' =>
      match l' with
      | y :: _ => P x y /\ adjacent P l'
      | [] => True
      end
  | [] => True
  end.

Definition not_both_commas (x y : char) : Prop :=
  ~ (x = COMMA /\ y = COMMA).

(** A dash has alphanumeric neighbours. *)
Definition dash_between_alnum {db : UnicodeDB} (x y : char) : Prop :=
  (is_dash x = true -> isalnum y = true)
  /\ (is_dash y = true -> isalnum x = true).

(** [w'] is [w] where some dashes have become a comma or a hyphen, or
    have gone, and nothing else has changed. *)
Inductive dash_rewrite : str -> str -> Prop :=
| rewrite_nil : dash_rewrite [] []
| rewrite_same c w w' :
    dash_rewrite w w' -> dash_rewrite (c :: w) (c :: w')
| rewrite_comma d w w' :
    is_dash d = true -> dash_rewrite w w' -> dash_rewrite (d :: w) (COMMA :: w')
| rewrite_hyphen d w w' :
    is_dash d = true -> dash_rewrite w w' ->
    dash_rewrite (d :: w) (HYPHEN :: w')
| rewrite_gone d w w' :
    is_dash d = true -> dash_rewrite w w' -> dash_rewrite (d :: w) w'.

(** What the loop over the remaining dashes keeps true of its buffer
    ([chars], last element first), [prev] being the character just read
    and [nxt] the one to be read: an alphanumeric [prev] is on top of
    the buffer, the dashes in the buffer stand between alphanumeric
    characters, and a dash on top of the buffer waits for an
    alphanumeric [nxt]. *)
Definition buffer_invariant {db : UnicodeDB} (prev nxt : char) (chars : list char) : Prop :=
  (isalnum prev = true -> exists chars', chars = prev :: chars')
  /\ adjacent dash_between_alnum chars
  /\ (forall c chars', chars = c :: chars' -> is_dash c = true ->
        isalnum nxt = true).


(* ================================================================== *)
(** ** Vocabulary of the further statements *)

(** Two neighbours that are not both whitespace. *)
Definition not_both_spaces (x y : char) : Prop :=
  ~ (isspace x = true /\ isspace y = true).

(** A comma is followed by a space. *)
Definition comma_then_space (x y : char) : Prop :=
  x = COMMA -> y = SPACE.

(** The characters that normalization writes between words. *)
Definition separator (c : char) : Prop := c = COMMA \/ c = SPACE.


(** Every comma of [l] has a next character, and [P] holds of it. *)
Fixpoint after_commas (P : char -> Prop) (l : str) : Prop :=
  match l with
  | [] => True
  | x :: l' =>
      (x = COMMA -> match l' with
                    | y :: _ => P y
                    | [] => False
                    end)
      /\ after_commas P l'
  end.

(** The output of [re.sub(r"\s+", " ", ...)] from a state of the scan. *)
Definition collapsed (prev : option char) (skip : nat) (rest : str) : str :=
  flat_map (token_text (fun _ => [SPACE])) (scan match_spaces prev skip rest).


(** The first character of [l], if there is one, is not whitespace. *)
Definition starts_solid (l : str) : Prop :=
  match l with
  | [] => True
  | c :: _ => isspace c = false
  end.

(** The piece and the chunk of a sentence that fits the budget. *)
Definition sentence_piece (s : str) : piece := mk_piece s SENTENCE.
Definition sentence_chunk (s : str) : Chunk.t := Chunk.mk s SENTENCE (len s).

(** The rule tags that the program can write. *)
Definition RULES : list string :=
  [SENTENCE; COMMA_FIRST; CLAUSE_SUBORDINATOR;
   "length_fallback+tail"; "length_fallback+comma_split";
   "length_fallback+conj_split"; "length_fallback+length_limit";
   "clause_subordinator+tail"; "clause_subordinator+comma_split";
   "clause_subordinator+conj_split";
   "clause_subordinator+length_limit"]%string.

Definition known_rule (p : piece) : Prop := In (piece_rule p) RULES.

(** A piece whose rule is [base_rule] with a fallback suffix. *)
Definition suffixed (base_rule : string) (p : piece) : Prop :=
  exists sfx, In sfx fallback_suffixes
              /\ piece_rule p = (base_rule ++ sfx)%string.


(** A fragment cut by the fallback splitter: after [+comma_split] it ends
    with its only comma; after [+conj_split] or [+length_limit] it has
    no comma. *)
Definition cut_shape (base_rule : string) (p : piece) : Prop :=
  (piece_rule p = (base_rule ++ "+comma_split")%string
   /\ exists body, piece_chunk p = body ++ [COMMA] /\ ~ In COMMA body)
  \/ ((piece_rule p = (base_rule ++ "+conj_split")%string
       \/ piece_rule p = (base_rule ++ "+length_limit")%string)
      /\ ~ In COMMA (piece_chunk p)).

(** Nothing, or one [+tail] fragment. *)
Definition tail_shape (base_rule : string) (l : list piece) : Prop :=
  l = [] \/ exists seg, l = [mk_piece seg (base_rule ++ "+tail")%string].

(** A character that is neither a dash nor alphanumeric. *)
Definition pause {db : UnicodeDB} (c : char) : Prop :=
  is_dash c = false /\ isalnum c = false.

(** Every dash of [s] has a character on each side, and both are
    alphanumeric ([s] is read between two spaces). *)
Definition flanked {db : UnicodeDB} (s : str) : Prop :=
  adjacent dash_between_alnum (SPACE :: s ++ [SPACE]).

(** The class [[.!?]] of the sentence pattern. *)
Definition is_terminal (c : char) : bool := char_in c (lit ".!?").

Definition ends_with_terminal (s : str) : Prop :=
  is_terminal (last s SPACE) = true.

(** No sentence boundary between two neighbours: a terminal mark is not
    followed by whitespace. *)
Definition no_break (x y : char) : Prop :=
  is_terminal x = true -> isspace y = false.

(** [t] is a run of consecutive characters of [s]. *)
Definition part_of (t s : str) : Prop := exists a b, s = a ++ t ++ b.

(** A comma of [s] can only be its last character. *)
Definition comma_last_only (s : str) : Prop :=
  forall a b, s = a ++ COMMA :: b -> b = [].

(** The comma positions of a text whose first character has index [k];
    [comma_positions s] is [positions_from 0 s]. *)
Definition positions_from (k : nat) (s : str) : list nat :=
  List.map fst
    (filter (fun p => (snd p =? COMMA)%N) (combine (seq k (List.length s)) s)).

(* ================================================================== *)
(** * Properties *)

(** ** Strings, slices and searches *)

Lemma len_nonneg (s : str) : (0 <= len s)%Z.
Proof. unfold len. lia. Qed.

Lemma lstrip_length (s : str) : length (lstrip s) <= length s.
Proof.
  induction s as [|c s IH]; simpl; [lia|].
  destruct (isspace c); simpl; lia.
Qed.

Lemma strip_length (s : str) : length (strip s) <= length s.
Proof.
  unfold strip, rstrip. rewrite length_rev.
  etransitivity; [apply lstrip_length|]. rewrite length_rev.
  apply lstrip_length.
Qed.

Lemma len_strip (s : str) : (len (strip s) <= len s)%Z.
Proof. unfold len. pose proof (strip_length s). lia. Qed.

Lemma slice_bound_id (n i : Z) :
  (0 <= i <= n)%Z -> slice_bound n i = i.
Proof.
  intros H. unfold slice_bound.
  destruct (Z.ltb_spec i 0); lia.
Qed.

Lemma py_slice_inside (s : str) (a b : Z) :
  (0 <= a <= b)%Z -> (b <= len s)%Z ->
  py_slice s a b = firstn (Z.to_nat (b - a)) (skipn (Z.to_nat a) s).
Proof.
  intros Ha Hb. unfold py_slice.
  rewrite !slice_bound_id by lia. reflexivity.
Qed.

Lemma py_slice_suffix (s : str) (a : Z) :
  (0 <= a <= len s)%Z -> py_slice s a (len s) = skipn (Z.to_nat a) s.
Proof.
  intros Ha. rewrite py_slice_inside by lia.
  apply firstn_all2. rewrite length_skipn. unfold len. lia.
Qed.

Lemma len_py_slice (s : str) (a b : Z) :
  (0 <= a <= b)%Z -> (b <= len s)%Z -> len (py_slice s a b) = (b - a)%Z.
Proof.
  intros Ha Hb. rewrite py_slice_inside by assumption.
  unfold len in *. rewrite length_firstn, length_skipn. lia.
Qed.

Lemma py_getitem_inside (s : str) (i : nat) :
  i < length s -> py_getitem s (Z.of_nat i) = nth_error s i.
Proof.
  intros H. unfold py_getitem, len.
  destruct (Z.ltb_spec (Z.of_nat i) 0); [lia|].
  destruct (Z.leb_spec 0 (Z.of_nat i)); [|lia].
  destruct (Z.ltb_spec (Z.of_nat i) (Z.of_nat (length s))); [|lia].
  simpl. now rewrite Nat2Z.id.
Qed.

Lemma skipn_cons_nth (s : str) (i : nat) (c : char) :
  nth_error s i = Some c -> skipn i s = c :: skipn (S i) s.
Proof.
  revert i. induction s as [|x s IH]; intros [|i] H; simpl in *;
    try discriminate.
  - now inversion H.
  - now apply IH.
Qed.

Lemma index_of_bound (c : char) (s : str) (k : nat) :
  index_of c s = Some k -> k < length s /\ nth_error s k = Some c.
Proof.
  revert k. induction s as [|x s IH]; intros k H; simpl in *; [discriminate|].
  destruct (N.eqb_spec x c).
  - inversion H; subst. simpl. split; [lia|reflexivity].
  - destruct (index_of c s) as [j|]; [|discriminate].
    inversion H; subst. destruct (IH j eq_refl). simpl. split; [lia|assumption].
Qed.

(** [index_of] returns the first position. *)
Lemma index_of_first (c : char) (s : str) (k j : nat) :
  index_of c s = Some k -> j < k -> nth_error s j <> Some c.
Proof.
  revert k j. induction s as [|x s IH]; intros k j H Hj; simpl in *;
    [discriminate|].
  destruct (N.eqb_spec x c).
  - inversion H; subst. lia.
  - destruct (index_of c s) as [i|] eqn:E; [|discriminate].
    inversion H; subst. destruct j; simpl.
    + intros [=]. contradiction.
    + eapply IH; [reflexivity|lia].
Qed.

Lemma index_of_none (c : char) (s : str) :
  index_of c s = None -> ~ In c s.
Proof.
  induction s as [|x s IH]; simpl; intros H; [tauto|].
  destruct (N.eqb_spec x c); [discriminate|].
  destruct (index_of c s); [discriminate|].
  intros [?|?]; [contradiction|]. now apply IH.
Qed.

Lemma starts_with_length (p s : str) :
  starts_with p s = true -> length p <= length s.
Proof.
  revert s. induction p as [|x p IH]; intros [|y s] H; simpl in *;
    try lia; try discriminate.
  apply andb_true_iff in H as [_ H]. apply IH in H. lia.
Qed.

Lemma starts_with_firstn (p s : str) :
  starts_with p s = true <-> firstn (length p) s = p.
Proof.
  revert s. induction p as [|x p IH]; intros [|y s]; simpl;
    try (split; [reflexivity|reflexivity]); try (split; discriminate).
  rewrite andb_true_iff, IH, N.eqb_eq. split.
  - intros [-> ->]. reflexivity.
  - intros [= -> ->]. auto.
Qed.

Lemma last_occurrence_bound (sub s : str) (i j : nat) :
  last_occurrence sub s i = Some j ->
  i <= j /\ starts_with sub (skipn (j - i) s) = true.
Proof.
  revert i j. induction s as [|x s IH]; intros i j H; simpl in H;
    [discriminate|].
  destruct (last_occurrence sub s (S i)) as [k|] eqn:E.
  - inversion H; subst. apply IH in E as [Hle Hs]. split; [lia|].
    replace (j - i) with (S (j - S i)) by lia. exact Hs.
  - destruct (starts_with sub (x :: s)) eqn:Es; [|discriminate].
    inversion H; subst. split; [lia|]. now rewrite Nat.sub_diag.
Qed.

Lemma last_occurrence_none (sub s : str) (i k : nat) :
  last_occurrence sub s i = None -> k < length s ->
  starts_with sub (skipn k s) = false.
Proof.
  revert i k. induction s as [|y s IH]; intros i k E Hlen; simpl in *; [lia|].
  destruct (last_occurrence sub s (S i)) eqn:E'; [discriminate|].
  destruct k as [|k]; simpl.
  - destruct (starts_with sub (y :: s)); [discriminate|reflexivity].
  - eapply IH; [exact E'|lia].
Qed.

(** No occurrence lies to the right of the one [last_occurrence] finds. *)
Lemma last_occurrence_last (sub s : str) (i j k : nat) :
  last_occurrence sub s i = Some j -> j - i < k -> k < length s ->
  starts_with sub (skipn k s) = false.
Proof.
  revert i j k. induction s as [|x s IH]; intros i j k H Hk Hlen;
    simpl in H; [discriminate|].
  destruct k as [|k]; [lia|]. simpl in Hlen. simpl.
  destruct (last_occurrence sub s (S i)) as [m|] eqn:E.
  - inversion H; subst.
    destruct (last_occurrence_bound _ _ _ _ E) as [Hle _].
    eapply IH; [exact E|lia|lia].
  - eapply last_occurrence_none; [exact E|lia].
Qed.

Lemma py_rfind_range (sub s : str) :
  sub <> [] ->
  py_rfind sub s = (-1)%Z \/
  (0 <= py_rfind sub s /\ py_rfind sub s + len sub <= len s)%Z.
Proof.
  intros Hsub. unfold py_rfind.
  destruct (last_occurrence sub s 0) as [j|] eqn:E; [right|left; reflexivity].
  apply last_occurrence_bound in E as [_ Hs].
  rewrite Nat.sub_0_r in Hs. apply starts_with_length in Hs.
  rewrite length_skipn in Hs. unfold len.
  destruct sub; [contradiction|]. simpl in *. lia.
Qed.

(** ** Tier 3: one iteration of the loop *)

Lemma space_run_le (s : str) : space_run s <= length s.
Proof. induction s as [|c s IH]; simpl; [lia|]. destruct (isspace c); simpl; lia. Qed.

Lemma skipn_space_run (s : str) : skipn (space_run s) s = lstrip s.
Proof.
  induction s as [|c s IH]; simpl; [reflexivity|].
  destruct (isspace c); simpl; [assumption|reflexivity].
Qed.

Lemma lstrip_head (s r : str) (c : char) :
  lstrip s = c :: r -> isspace c = false.
Proof.
  induction s as [|x s IH]; simpl; [discriminate|].
  destruct (isspace x) eqn:E; [assumption|]. intros [= -> ->]. exact E.
Qed.

Lemma skipn_skipn_add (n m : nat) (l : str) :
  skipn n (skipn m l) = skipn (m + n) l.
Proof.
  revert l. induction m as [|m IH]; intros l; simpl; [reflexivity|].
  destruct l; [now rewrite skipn_nil|apply IH].
Qed.

Lemma skip_spaces_run (text : str) (k i : nat) :
  k = length text - i ->
  skip_spaces text k (Z.of_nat i)
  = Done (Z.of_nat (i + space_run (skipn i text))).
Proof.
  revert i. induction k as [|k IH]; intros i Hk; simpl.
  - rewrite skipn_all2 by lia. simpl. now rewrite Nat.add_0_r.
  - assert (Hi : i < length text) by lia.
    unfold len. destruct (Z.ltb_spec (Z.of_nat i) (Z.of_nat (length text))); [|lia].
    rewrite py_getitem_inside by assumption.
    destruct (nth_error text i) as [c|] eqn:E.
    + rewrite (skipn_cons_nth _ _ _ E). cbn [space_run].
      destruct (isspace c).
      * replace (Z.of_nat i + 1)%Z with (Z.of_nat (S i)) by lia.
        rewrite IH by lia. do 2 f_equal. lia.
      * now rewrite Nat.add_0_r.
    + apply nth_error_None in E. lia.
Qed.

Lemma conj_match_range (w : str) (start : Z) (conjs : list str) (m : Z) :
  Forall (fun c => c <> []) conjs -> (1 <= len w)%Z ->
  conj_match w start conjs = Some m ->
  (start < m < start + len w)%Z.
Proof.
  intros Hne Hw. induction conjs as [|c conjs IH]; simpl; [discriminate|].
  inversion Hne as [|? ? Hc Hrest]; subst.
  destruct (negb (py_rfind c w =? -1)%Z && beyond_30_percent (py_rfind c w) (len w)) eqn:E.
  - intros [= <-]. apply andb_true_iff in E as [E1 E2].
    unfold beyond_30_percent in E2. apply Z.ltb_lt in E2.
    destruct (py_rfind_range c w Hc) as [Hr|Hr].
    + rewrite Hr in E1. discriminate.
    + assert (1 <= len c)%Z by (destruct c; [contradiction|unfold len; simpl; lia]).
      lia.
  - now apply IH.
Qed.

Lemma CONJS_nonempty : Forall (fun c : str => c <> []) CONJS.
Proof. repeat constructor; discriminate. Qed.

Lemma choose_cut_range (text : str) (max_len : Z) (base_rule : string) (j : Z) :
  (0 <= j)%Z -> (1 <= max_len)%Z -> (j + max_len < len text)%Z ->
  exists cut sfx,
    choose_cut text max_len base_rule j = (cut, (base_rule ++ sfx)%string)
    /\ (j < cut <= j + max_len)%Z /\ In sfx cut_suffixes.
Proof.
  intros Hj Hm Hlen. unfold choose_cut.
  rewrite Z.min_l by lia. unfold py_find.
  rewrite (slice_bound_id (len text) j) by lia.
  destruct (index_of COMMA (py_slice text j (j + max_len))) as [k|] eqn:E.
  - apply index_of_bound in E as [Hk _].
    assert (Hl := len_py_slice text j (j + max_len) ltac:(lia) ltac:(lia)).
    unfold len in Hl at 1.
    destruct (Z.eqb_spec (j + Z.of_nat k) (-1)); [lia|]. cbn [negb].
    eexists _, "+comma_split"%string. split; [reflexivity|].
    split; [lia|]. simpl; auto.
  - change (negb (-1 =? -1)%Z) with false. cbv iota.
    destruct (conj_match (py_slice text j (j + max_len)) j CONJS) as [m|] eqn:Ec.
    + apply conj_match_range in Ec.
      * rewrite len_py_slice in Ec by lia.
        eexists _, "+conj_split"%string. split; [reflexivity|].
        split; [lia|]. simpl; auto.
      * apply CONJS_nonempty.
      * rewrite len_py_slice by lia. lia.
    + eexists _, "+length_limit"%string. split; [reflexivity|].
      split; [lia|]. simpl; auto.
Qed.

Lemma after_spaces_le (text : str) (i : nat) :
  i <= length text -> i <= after_spaces text i <= length text.
Proof.
  intros H. unfold after_spaces.
  pose proof (space_run_le (skipn i text)) as Hr.
  rewrite length_skipn in Hr. lia.
Qed.

Lemma skipn_after_spaces (text : str) (i : nat) :
  skipn (after_spaces text i) text = lstrip (skipn i text).
Proof.
  unfold after_spaces. rewrite <- skipn_skipn_add. apply skipn_space_run.
Qed.

Lemma fallback_loop_step (fuel : nat) (text : str) (max_len : Z)
  (base_rule : string) (i : nat) (chunks : list piece) :
  i <= length text ->
  fallback_loop (S fuel) text max_len base_rule (Z.of_nat i) chunks
  = let j := Z.of_nat (after_spaces text i) in
    if (len text <=? j)%Z then Done chunks
    else if (len text - j <=? max_len)%Z then
      Done (append_piece chunks (strip (lstrip (skipn i text)))
              (base_rule ++ "+tail")%string)
    else
      let (cut_at, rule) := choose_cut text max_len base_rule j in
      fallback_loop fuel text max_len base_rule cut_at
        (append_piece chunks (strip (py_slice text j cut_at)) rule).
Proof.
  intros Hi. pose proof (after_spaces_le text i Hi) as Hj.
  cbn [fallback_loop]. cbv zeta.
  destruct (Z.ltb_spec (Z.of_nat i) (len text)) as [Hlt|Hge].
  - replace (Z.to_nat (len text - Z.of_nat i)) with (length text - i)
      by (unfold len; lia).
    rewrite skip_spaces_run by reflexivity. cbn [bind].
    fold (after_spaces text i).
    destruct (Z.leb_spec (len text) (Z.of_nat (after_spaces text i)));
      destruct (Z.geb_spec (Z.of_nat (after_spaces text i)) (len text));
      try lia; try reflexivity.
    rewrite py_slice_suffix by (unfold len in *; lia).
    rewrite Nat2Z.id, skipn_after_spaces. reflexivity.
  - unfold len in *. 
    destruct (Z.leb_spec (Z.of_nat (length text)) (Z.of_nat (after_spaces text i)));
      [reflexivity|lia].
Qed.

(** ** Tier 3: termination and the length bound *)

(** ** [strip] *)

Lemma lstrip_app (a b : str) :
  lstrip (a ++ b) = match lstrip a with
                    | [] => lstrip b
                    | x :: r => (x :: r) ++ b
                    end.
Proof.
  induction a as [|c a IH]; simpl; [reflexivity|].
  destruct (isspace c); [exact IH|reflexivity].
Qed.

(** [rstrip] from the left. *)
Lemma rstrip_cons (c : char) (r : str) :
  rstrip (c :: r) = match rstrip r with
                    | [] => if isspace c then [] else [c]
                    | x :: t => c :: x :: t
                    end.
Proof.
  unfold rstrip. simpl rev. rewrite lstrip_app.
  destruct (lstrip (rev r)) as [|x t] eqn:E.
  - simpl. destruct (isspace c); reflexivity.
  - rewrite rev_app_distr. simpl.
    destruct (rev t ++ [x]) eqn:E'; [|reflexivity].
    destruct (rev t); discriminate.
Qed.

Lemma rstrip_nil : rstrip [] = [].
Proof. reflexivity. Qed.

Lemma rstrip_length (s : str) : length (rstrip s) <= length s.
Proof.
  unfold rstrip. rewrite length_rev. etransitivity; [apply lstrip_length|].
  now rewrite length_rev.
Qed.

Lemma rstrip_idem (s : str) : rstrip (rstrip s) = rstrip s.
Proof.
  induction s as [|c s IH]; [reflexivity|].
  rewrite rstrip_cons. destruct (rstrip s) as [|x t] eqn:E.
  - destruct (isspace c) eqn:Ec; [reflexivity|].
    rewrite rstrip_cons, rstrip_nil, Ec. reflexivity.
  - rewrite rstrip_cons, IH. reflexivity.
Qed.

Lemma rstrip_head (c : char) (r : str) :
  isspace c = false -> exists t, rstrip (c :: r) = c :: t.
Proof.
  intros Hc. rewrite rstrip_cons, Hc.
  destruct (rstrip r); eauto.
Qed.

Lemma lstrip_fixed (s : str) :
  match s with [] => True | c :: _ => isspace c = false end -> lstrip s = s.
Proof. destruct s as [|c s]; simpl; [reflexivity|]. now intros ->. Qed.

Lemma lstrip_shape (s : str) :
  match lstrip s with [] => True | c :: _ => isspace c = false end.
Proof.
  destruct (lstrip s) as [|c r] eqn:E; [exact I|].
  eapply lstrip_head; eassumption.
Qed.

Lemma strip_shape (s : str) :
  match strip s with [] => True | c :: _ => isspace c = false end.
Proof.
  unfold strip. pose proof (lstrip_shape s) as H.
  destruct (lstrip s) as [|c r]; [exact I|].
  destruct (rstrip_head c r H) as [t ->]. exact H.
Qed.

Lemma strip_idem (s : str) : strip (strip s) = strip s.
Proof.
  unfold strip at 1. rewrite (lstrip_fixed _ (strip_shape s)).
  unfold strip. apply rstrip_idem.
Qed.

(** ** Tier 3: the fragments *)

Lemma append_piece_Forall (P : piece -> Prop) (chunks : list piece)
  (segment : str) (rule : string) :
  Forall P chunks -> (segment <> [] -> P (mk_piece segment rule)) ->
  Forall P (append_piece chunks segment rule).
Proof.
  intros Hc Hp. destruct segment; simpl; [assumption|].
  apply Forall_app. split; [assumption|].
  constructor; [apply Hp; discriminate|constructor].
Qed.

Lemma fallback_piece_intro (base_rule sfx : string) (max_len : Z) (s : str) :
  (len s <= max_len)%Z -> In sfx fallback_suffixes -> strip s <> [] ->
  fallback_piece base_rule max_len
    (mk_piece (strip s) (base_rule ++ sfx)%string).
Proof.
  intros Hs Hin Hne. unfold fallback_piece. simpl.
  rewrite strip_idem. pose proof (len_strip s).
  split; [lia|]. split; [lia|]. split; [assumption|].
  split; [reflexivity|]. exists sfx. split; [assumption|reflexivity].
Qed.

Lemma fallback_loop_pieces (text : str) (max_len : Z) (base_rule : string) :
  (1 <= max_len)%Z ->
  forall fuel i chunks out,
    i <= length text ->
    Forall (fallback_piece base_rule max_len) chunks ->
    fallback_loop fuel text max_len base_rule (Z.of_nat i) chunks = Done out ->
    Forall (fallback_piece base_rule max_len) out.
Proof.
  intros Hm. induction fuel as [|fuel IH]; intros i chunks out Hi Hc Hrun;
    [discriminate|].
  rewrite fallback_loop_step in Hrun by assumption. cbv zeta in Hrun.
  pose proof (after_spaces_le text i Hi) as Hj.
  set (j := after_spaces text i) in *.
  destruct (Z.leb_spec (len text) (Z.of_nat j)) as [|Hlt].
  { inversion Hrun; subst. assumption. }
  destruct (Z.leb_spec (len text - Z.of_nat j) max_len) as [Hfit|Hlong].
  - inversion Hrun; subst. apply append_piece_Forall; [assumption|].
    intros Hne. apply fallback_piece_intro; try assumption.
    + unfold j. rewrite <- skipn_after_spaces. fold j.
      unfold len in *. rewrite length_skipn. lia.
    + simpl; auto.
  - destruct (choose_cut_range text max_len base_rule (Z.of_nat j)
                ltac:(lia) Hm ltac:(lia)) as (cut & sfx & Ecut & Hcut & Hsfx).
    rewrite Ecut in Hrun.
    rewrite <- (Z2Nat.id cut) in Hrun by lia.
    rewrite Z2Nat.id in Hrun at 2 by lia.
    eapply IH in Hrun; [assumption| unfold len in *; lia|].
    apply append_piece_Forall; [assumption|].
    intros Hne. apply fallback_piece_intro; try assumption.
    + rewrite len_py_slice by lia. lia.
    + simpl. simpl in Hsfx. tauto.
Qed.

Lemma fallback_loop_returns (text : str) (max_len : Z) (base_rule : string) :
  (1 <= max_len)%Z ->
  forall fuel i chunks,
    i <= length text -> length text - i < fuel ->
    exists out,
      fallback_loop fuel text max_len base_rule (Z.of_nat i) chunks = Done out.
Proof.
  intros Hm. induction fuel as [|fuel IH]; intros i chunks Hi Hfuel; [lia|].
  rewrite fallback_loop_step by assumption. cbv zeta.
  pose proof (after_spaces_le text i Hi) as Hj.
  set (j := after_spaces text i) in *.
  destruct (Z.leb_spec (len text) (Z.of_nat j)) as [|Hlt]; [eauto|].
  destruct (Z.leb_spec (len text - Z.of_nat j) max_len) as [Hfit|Hlong];
    [eauto|].
  destruct (choose_cut_range text max_len base_rule (Z.of_nat j)
              ltac:(lia) Hm ltac:(lia)) as (cut & sfx & Ecut & Hcut & Hsfx).
  rewrite Ecut. rewrite <- (Z2Nat.id cut) by lia.
  apply IH; unfold len in *; lia.
Qed.

(** C1. For every text and every [max_len >= 1] the Tier-3 splitter
    returns (any fuel above the length of the text is enough), and each
    fragment it returns, whatever its suffix ([+tail], [+comma_split],
    [+conj_split] or [+length_limit]), has a trimmed text of at most
    [max_len] characters; the fragment is stored trimmed and is not
    empty. *)
Theorem fallback_fragments_within_max_len (text : str) (max_len : Z)
  (base_rule : string) :
  (1 <= max_len)%Z ->
  (forall fuel, length text < fuel ->
     exists chunks,
       fallback_split_by_commas_and_conjs fuel text max_len base_rule
       = Done chunks)
  /\ (forall fuel chunks,
        fallback_split_by_commas_and_conjs fuel text max_len base_rule
        = Done chunks ->
        Forall (fallback_piece base_rule max_len) chunks).
Proof.
  intros Hm. unfold fallback_split_by_commas_and_conjs. split.
  - intros fuel Hfuel.
    apply (fallback_loop_returns text max_len base_rule Hm fuel 0); lia.
  - intros fuel chunks Hrun.
    eapply (fallback_loop_pieces text max_len base_rule Hm fuel 0);
      [lia|constructor|exact Hrun].
Qed.

Lemma fallback_fragments_within_max_len_witness :
  (1 <= 10)%Z
  /\ ((forall fuel, length (lit "hello, world and more") < fuel ->
         exists chunks,
           fallback_split_by_commas_and_conjs fuel
             (lit "hello, world and more") 10 LENGTH_FALLBACK = Done chunks)
      /\ (forall fuel chunks,
            fallback_split_by_commas_and_conjs fuel
              (lit "hello, world and more") 10 LENGTH_FALLBACK = Done chunks ->
            Forall (fallback_piece LENGTH_FALLBACK 10) chunks)).
Proof.
  split; [lia|].
  apply (fallback_fragments_within_max_len (lit "hello, world and more") 10
           LENGTH_FALLBACK).
  lia.
Defined.

(** ** Tier 3: the choice of the cut point *)

Lemma index_of_complete (c : char) (s : str) (k : nat) :
  nth_error s k = Some c -> (forall j, j < k -> nth_error s j <> Some c) ->
  index_of c s = Some k.
Proof.
  revert k. induction s as [|x s IH]; intros k Hk Hfirst.
  - destruct k; discriminate.
  - simpl. destruct (N.eqb_spec x c) as [->|Hne].
    + destruct k; [reflexivity|]. exfalso. apply (Hfirst 0); [lia|reflexivity].
    + destruct k as [|k]; simpl in Hk; [congruence|].
      rewrite (IH k Hk); [reflexivity|].
      intros j Hj. apply (Hfirst (S j)). lia.
Qed.

Lemma occurs_at_starts_with (sub w : str) (p : nat) :
  occurs_at sub w p <-> starts_with sub (skipn p w) = true.
Proof. unfold occurs_at. symmetry. apply starts_with_firstn. Qed.

Lemma starts_with_nil (sub : str) : sub <> [] -> starts_with sub [] = false.
Proof. destruct sub; [contradiction|reflexivity]. Qed.

Lemma last_occurrence_none_complete (sub s : str) (i : nat) :
  (forall q, q < length s -> starts_with sub (skipn q s) = false) ->
  last_occurrence sub s i = None.
Proof.
  revert i. induction s as [|x s IH]; intros i H; [reflexivity|].
  simpl. rewrite IH.
  - specialize (H 0 ltac:(simpl; lia)). simpl in H. now rewrite H.
  - intros q Hq. apply (H (S q)). simpl. lia.
Qed.

Lemma last_occurrence_complete (sub s : str) (i p : nat) :
  sub <> [] ->
  starts_with sub (skipn p s) = true ->
  (forall q, p < q -> q < length s -> starts_with sub (skipn q s) = false) ->
  last_occurrence sub s i = Some (i + p).
Proof.
  intros Hsub. revert i p. induction s as [|x s IH]; intros i p Hp Hlast.
  - rewrite skipn_nil, starts_with_nil in Hp by assumption. discriminate.
  - simpl. destruct p as [|p].
    + rewrite last_occurrence_none_complete.
      * simpl in Hp. rewrite Hp. f_equal. lia.
      * intros q Hq. apply (Hlast (S q)); simpl; lia.
    + rewrite (IH (S i) p).
      * f_equal. lia.
      * exact Hp.
      * intros q Hpq Hq. apply (Hlast (S q)); simpl; lia.
Qed.

Lemma py_rfind_last (sub w : str) (p : nat) :
  sub <> [] -> last_occurrence_at sub w p -> py_rfind sub w = Z.of_nat p.
Proof.
  intros Hsub [Hocc Hlast]. unfold py_rfind.
  rewrite (last_occurrence_complete sub w 0 p Hsub); [reflexivity| |].
  - now apply occurs_at_starts_with.
  - intros q Hpq _. apply not_true_is_false. intros H.
    apply (Hlast q Hpq). now apply occurs_at_starts_with.
Qed.

Lemma py_rfind_is_last (sub w : str) :
  sub <> [] ->
  py_rfind sub w = (-1)%Z \/
  exists p, py_rfind sub w = Z.of_nat p /\ last_occurrence_at sub w p.
Proof.
  intros Hsub. unfold py_rfind.
  destruct (last_occurrence sub w 0) as [j|] eqn:E; [right|left; reflexivity].
  exists j. split; [reflexivity|].
  pose proof (last_occurrence_bound _ _ _ _ E) as [_ Hs].
  rewrite Nat.sub_0_r in Hs. split.
  - now apply occurs_at_starts_with.
  - intros q Hq Hocc. apply occurs_at_starts_with in Hocc.
    destruct (Nat.lt_ge_cases q (length w)) as [Hlt|Hge].
    + rewrite (last_occurrence_last _ _ _ _ q E) in Hocc; [discriminate|lia|lia].
    + rewrite skipn_all2, starts_with_nil in Hocc by assumption. discriminate.
Qed.

(** One round of the [for conj in ...] loop. *)
Lemma conj_match_accepted (sub w : str) (start : Z) (conjs : list str)
  (p : nat) :
  sub <> [] -> accepted_at sub w p ->
  conj_match w start (sub :: conjs) = Some (start + Z.of_nat p)%Z.
Proof.
  intros Hsub [Hlast Hfar]. simpl.
  rewrite (py_rfind_last sub w p Hsub Hlast).
  destruct (Z.eqb_spec (Z.of_nat p) (-1)); [lia|].
  unfold beyond_30_percent. destruct (Z.ltb_spec (3 * len w) (10 * Z.of_nat p)); [|lia].
  reflexivity.
Qed.

Lemma conj_match_not_accepted (sub w : str) (start : Z) (conjs : list str) :
  sub <> [] -> not_accepted sub w ->
  conj_match w start (sub :: conjs) = conj_match w start conjs.
Proof.
  intros Hsub Hno. simpl.
  destruct (py_rfind_is_last sub w Hsub) as [->|(p & -> & Hlast)];
    [reflexivity|].
  specialize (Hno p Hlast). unfold beyond_30_percent.
  destruct (Z.ltb_spec (3 * len w) (10 * Z.of_nat p)); [contradiction|].
  now rewrite andb_false_r.
Qed.

Lemma window_inside (text : str) (max_len start : Z) :
  (0 <= start)%Z -> (0 <= max_len)%Z -> (start + max_len < len text)%Z ->
  window text max_len start
  = firstn (Z.to_nat max_len) (skipn (Z.to_nat start) text).
Proof.
  intros Hs Hm Hlen. unfold window. rewrite Z.min_l by lia.
  rewrite py_slice_inside by lia. do 2 f_equal. lia.
Qed.

(** C3, amended.  In a window (the text from [start] exceeds [max_len])
    the cut is: (a) just after the first comma of the window; else (b)
    at the start of the last [" and "] of the window when that offset is
    beyond 30% of the window; else (b') at the start of the last [" or "]
    under the same condition; else (c) at the end of the window; with the
    suffixes [+comma_split], [+conj_split], [+conj_split] and
    [+length_limit].  [" and "] is tried before [" or "], also when an
    [" or "] occurs further to the right. *)
Theorem choose_cut_priority (text : str) (max_len : Z) (base_rule : string)
  (start : Z) :
  (0 <= start)%Z -> (0 <= max_len)%Z -> (start + max_len < len text)%Z ->
  let w := window text max_len start in
  let cut := choose_cut text max_len base_rule start in
  (forall k, first_comma w k ->
     cut = ((start + Z.of_nat k + 1)%Z, (base_rule ++ "+comma_split")%string))
  /\ (~ In COMMA w ->
      (forall p, accepted_at (lit " and ") w p ->
         cut = ((start + Z.of_nat p)%Z, (base_rule ++ "+conj_split")%string))
      /\ (not_accepted (lit " and ") w ->
          (forall p, accepted_at (lit " or ") w p ->
             cut = ((start + Z.of_nat p)%Z,
                    (base_rule ++ "+conj_split")%string))
          /\ (not_accepted (lit " or ") w ->
              cut = ((start + max_len)%Z,
                     (base_rule ++ "+length_limit")%string)))).
Proof.
  intros Hs Hm Hlen w cut. subst cut. unfold choose_cut, py_find.
  fold (window text max_len start). fold w.
  rewrite (slice_bound_id (len text) start) by lia.
  rewrite (Z.min_l (start + max_len)) by lia.
  assert (Hand : lit " and " <> []) by discriminate.
  assert (Hor : lit " or " <> []) by discriminate.
  split.
  - intros k [Hk Hfirst]. rewrite (index_of_complete COMMA w k Hk Hfirst).
    destruct (Z.eqb_spec (start + Z.of_nat k) (-1)); [lia|]. reflexivity.
  - intros Hno.
    destruct (index_of COMMA w) as [k|] eqn:E.
    { apply index_of_bound in E as [_ E]. apply nth_error_In in E.
      contradiction. }
    change (negb (-1 =? -1)%Z) with false. cbv iota. unfold CONJS. split.
    + intros p Hp. now rewrite (conj_match_accepted _ _ start _ p Hand Hp).
    + intros Hnand. rewrite (conj_match_not_accepted _ _ start _ Hand Hnand).
      split.
      * intros p Hp. now rewrite (conj_match_accepted _ _ start _ p Hor Hp).
      * intros Hnor. rewrite (conj_match_not_accepted _ _ start _ Hor Hnor).
        reflexivity.
Qed.

(** The four cases of [choose_cut_priority] cover every window: a window
    has a first comma or none, and a literal is accepted or not. *)
Lemma first_comma_or_none (w : str) :
  (exists k, first_comma w k) \/ ~ In COMMA w.
Proof.
  destruct (index_of COMMA w) as [k|] eqn:E.
  - left. exists k. split.
    + now apply index_of_bound in E.
    + intros j Hj. eapply index_of_first; eassumption.
  - right. now apply index_of_none.
Qed.

Lemma accepted_or_not (sub w : str) :
  sub <> [] -> (exists p, accepted_at sub w p) \/ not_accepted sub w.
Proof.
  intros Hsub.
  destruct (py_rfind_is_last sub w Hsub) as [Hnone|(p & Hp & Hlast)].
  - right. intros q Hq. rewrite (py_rfind_last sub w q Hsub Hq) in Hnone. lia.
  - destruct (Z.ltb_spec (3 * len w) (10 * Z.of_nat p)).
    + left. exists p. split; assumption.
    + right. intros q Hq. rewrite (py_rfind_last sub w q Hsub Hq) in Hp. lia.
Qed.

(** C3 as worded fails: in this window [" and "] starts at 7 and
    [" or "] at 13, both beyond 30% of 20; the last occurrence of the
    two literals is the [" or "], and the program cuts at the
    [" and "]. *)
Lemma choose_cut_prefers_and :
  let text := lit "xxxxxxx and y or zzzzzzzzzzzz" in
  choose_cut text 20 LENGTH_FALLBACK 0
    = (7%Z, "length_fallback+conj_split"%string)
  /\ spec_choose_cut text 20 LENGTH_FALLBACK 0
    = (13%Z, "length_fallback+conj_split"%string)
  /\ choose_cut text 20 LENGTH_FALLBACK 0
     <> spec_choose_cut text 20 LENGTH_FALLBACK 0.
Proof.
  cbv zeta. split; [vm_compute; reflexivity|].
  split; [vm_compute; reflexivity|]. vm_compute. discriminate.
Qed.

Lemma choose_cut_priority_witness :
  let text := lit "xxxxxxx and y or zzzzzzzzzzzz" in
  accepted_at (lit " and ") (window text 20 0) 7
  /\ choose_cut text 20 LENGTH_FALLBACK 0
     = (7%Z, "length_fallback+conj_split"%string).
Proof.
  cbv zeta.
  assert (Hacc : accepted_at (lit " and ")
                   (window (lit "xxxxxxx and y or zzzzzzzzzzzz") 20 0) 7).
  { split; [|vm_compute; reflexivity]. split; [reflexivity|].
    intros q Hq Hocc. apply occurs_at_starts_with in Hocc.
    destruct (Nat.lt_ge_cases q 20) as [Hlt|Hge].
    - do 20 (destruct q as [|q]; [try lia; vm_compute in Hocc; discriminate|]).
      lia.
    - rewrite skipn_all2 in Hocc by (vm_compute; lia). discriminate. }
  split; [exact Hacc|].
  destruct (choose_cut_priority (lit "xxxxxxx and y or zzzzzzzzzzzz") 20
              LENGTH_FALLBACK 0) as (_ & Hcut); [lia|lia|vm_compute; reflexivity|].
  destruct Hcut as [Hand _].
  - intros Hin. vm_compute in Hin. intuition discriminate.
  - exact (Hand 7 Hacc).
Defined.

(** ** Scanning *)

Lemma hit_starts_range (matcher : option char -> str -> option nat)
  (rest : str) (prev : option char) (skip i k : nat) :
  In k (hit_starts i (scan matcher prev skip rest)) ->
  i <= k /\ k < i + (length rest - skip).
Proof.
  revert prev skip i. induction rest as [|c rest IH]; intros prev skip i H;
    cbn [scan] in H; [contradiction|].
  destruct skip as [|skip].
  - destruct (matcher prev (c :: rest)) as [[|n]|]; cbn [hit_starts] in H.
    + apply IH in H. simpl. lia.
    + destruct H as [<-|H]; [simpl; lia|]. apply IH in H.
      rewrite length_firstn in H. simpl in *. lia.
    + apply IH in H. simpl. lia.
  - apply IH in H. simpl. lia.
Qed.

(** ** [sorted(set(...))] *)

Lemma insert_sorted_In (x y : nat) (l : list nat) :
  In y (insert_sorted x l) <-> y = x \/ In y l.
Proof.
  induction l as [|z l IH]; simpl; [intuition|].
  destruct (Nat.ltb_spec x z); [simpl; intuition|].
  destruct (Nat.eqb_spec x z); simpl; [subst; intuition|].
  rewrite IH. intuition.
Qed.

Lemma insert_sorted_sorted (x : nat) (l : list nat) :
  StronglySorted lt l -> StronglySorted lt (insert_sorted x l).
Proof.
  induction 1 as [|z l Hs IH Hz]; simpl; [repeat constructor|].
  destruct (Nat.ltb_spec x z).
  - constructor; [constructor; assumption|].
    constructor; [assumption|].
    eapply Forall_impl; [|exact Hz]. simpl. intros; lia.
  - destruct (Nat.eqb_spec x z); [constructor; assumption|].
    constructor; [assumption|].
    apply Forall_forall. intros y Hy. apply insert_sorted_In in Hy as [->|Hy].
    + lia.
    + rewrite Forall_forall in Hz. now apply Hz.
Qed.

Lemma sorted_set_In (y : nat) (xs : list nat) :
  In y (sorted_set xs) <-> In y xs.
Proof.
  induction xs as [|x xs IH]; simpl; [reflexivity|].
  rewrite insert_sorted_In, IH. intuition.
Qed.

Lemma sorted_set_sorted (xs : list nat) : StronglySorted lt (sorted_set xs).
Proof.
  induction xs as [|x xs IH]; simpl; [constructor|].
  now apply insert_sorted_sorted.
Qed.

(** ** Tier 2 *)

Section Tier2.
Context {db : UnicodeDB}.

Lemma find_subordinator_positions_In (text : str) (i : nat) :
  In i (find_subordinator_positions text) <->
  exists word, In word SUBORDINATORS
               /\ In i (re_starts (match_word word) text).
Proof.
  unfold find_subordinator_positions. rewrite sorted_set_In, in_flat_map.
  reflexivity.
Qed.

Lemma find_subordinator_positions_range (text : str) (i : nat) :
  In i (find_subordinator_positions text) -> i < length text.
Proof.
  intros H. apply find_subordinator_positions_In in H as (w & _ & H).
  apply hit_starts_range in H. lia.
Qed.

Lemma with_leading_zero_sorted (starts : list nat) :
  StronglySorted lt starts -> StronglySorted lt (with_leading_zero starts).
Proof.
  intros H. destruct starts as [|s0 starts]; simpl; [assumption|].
  destruct (Nat.eqb_spec s0 0); simpl; [assumption|].
  constructor; [assumption|].
  inversion H as [|? ? ? Hall]; subst.
  constructor; [lia|]. eapply Forall_impl; [|exact Hall]. simpl. intros; lia.
Qed.

Lemma with_leading_zero_head (starts : list nat) :
  starts <> [] -> exists rest, with_leading_zero starts = 0 :: rest.
Proof.
  destruct starts as [|s0 starts]; [contradiction|]. intros _. simpl.
  destruct (Nat.eqb_spec s0 0); simpl; subst; eauto.
Qed.

(** The loop over [enumerate(starts)] visits the spans of consecutive
    boundaries. *)
Lemma clause_loop_spans (fuel : nat) (s : str) (max_len : Z)
  (done todo : list nat) (acc : list piece) :
  clause_loop fuel s max_len (done ++ todo)
    (combine (seq (length done) (length todo)) todo) acc
  = (rest <- collect (List.map (clause_pieces fuel s max_len)
                        (spans todo (length s))) ;;
     Done (acc ++ rest)).
Proof.
  revert done acc. induction todo as [|b todo IH]; intros done acc.
  - simpl. now rewrite app_nil_r.
  - cbn [length seq combine clause_loop spans List.map collect].
    replace (nth_error (done ++ b :: todo) (length done + 1))
      with (hd_error todo).
    2:{ rewrite nth_error_app2 by lia.
        replace (length done + 1 - length done) with 1 by lia.
        destruct todo; reflexivity. }
    assert (Hend : match hd_error todo with
                   | Some e => Z.of_nat e
                   | None => len s
                   end
                   = Z.of_nat match todo with e :: _ => e | [] => length s end)
      by (destruct todo; reflexivity).
    rewrite Hend. unfold clause_pieces at 1. cbn [fst snd].
    set (clause := strip (py_slice s (Z.of_nat b) _)).
    specialize (IH (done ++ [b])).
    rewrite <- app_assoc in IH. cbn [app] in IH.
    rewrite length_app in IH. cbn [length] in IH.
    rewrite Nat.add_1_r in IH.
    destruct (negb (nonempty clause)).
    + rewrite IH. cbn [bind].
      destruct (collect _); reflexivity.
    + destruct (len clause <=? max_len)%Z.
      * rewrite IH. cbn [bind].
        destruct (collect _); cbn [bind]; [|reflexivity|reflexivity].
        now rewrite <- app_assoc.
      * destruct (fallback_split_by_commas_and_conjs _ _ _ _);
          cbn [bind]; [|reflexivity|reflexivity].
        rewrite IH.
        destruct (collect _); cbn [bind]; [|reflexivity|reflexivity].
        now rewrite <- app_assoc.
Qed.

Lemma split_by_subordinators_spans (fuel : nat) (s : str) (max_len : Z) :
  split_by_subordinators fuel s max_len
  = match find_subordinator_positions s with
    | [] => fallback_split_by_commas_and_conjs fuel s max_len LENGTH_FALLBACK
    | starts =>
        collect (List.map (clause_pieces fuel s max_len)
                   (spans (with_leading_zero starts) (length s)))
    end.
Proof.
  unfold split_by_subordinators.
  destruct (find_subordinator_positions s) as [|s0 starts] eqn:E;
    [reflexivity|].
  change (negb (0 <? length (s0 :: starts))) with false. cbv iota.
  unfold enumerate.
  pose proof (clause_loop_spans fuel s max_len []
                (with_leading_zero (s0 :: starts)) []) as H.
  cbn [app] in H. change (length (@nil nat)) with 0 in H. rewrite H.
  destruct (collect _); reflexivity.
Qed.
End Tier2.

(** ** Tier 2: the clauses *)

Lemma hit_starts_matched (matcher : option char -> str -> option nat)
  (rest : str) (prev : option char) (skip i k : nat) :
  In k (hit_starts i (scan matcher prev skip rest)) ->
  exists prev' n, matcher prev' (skipn (k - i + skip) rest) = Some (S n).
Proof.
  revert prev skip i. induction rest as [|c rest IH]; intros prev skip i H;
    cbn [scan] in H; [contradiction|].
  destruct skip as [|skip].
  - destruct (matcher prev (c :: rest)) as [[|n]|] eqn:E;
      cbn [hit_starts] in H.
    + pose proof (hit_starts_range _ _ _ _ _ _ H) as Hr.
      apply IH in H as (p' & m & H). exists p', m.
      replace (k - i + 0) with (S (k - S i + 0)) by lia. exact H.
    + destruct H as [<-|H].
      * exists prev, n. now rewrite Nat.sub_diag.
      * pose proof (hit_starts_range _ _ _ _ _ _ H) as Hr.
        rewrite length_firstn in Hr. cbn [length] in Hr.
        apply IH in H as (p' & m & H). exists p', m.
        rewrite length_firstn in H. cbn [length] in H.
        replace (k - i + 0)
          with (S (k - (i + Nat.min (S n) (S (length rest))) + n)) by lia.
        exact H.
    + pose proof (hit_starts_range _ _ _ _ _ _ H) as Hr.
      apply IH in H as (p' & m & H). exists p', m.
      replace (k - i + 0) with (S (k - S i + 0)) by lia. exact H.
  - apply IH in H as (p' & m & H). exists p', m.
    replace (k - i + S skip) with (S (k - i + skip)) by lia. exact H.
Qed.

Lemma strip_nonempty (c : char) (r : str) :
  isspace c = false -> strip (c :: r) <> [].
Proof.
  intros Hc. unfold strip. cbn [lstrip]. rewrite Hc.
  destruct (rstrip_head c r Hc) as [t ->]. discriminate.
Qed.

Lemma spans_In (bs : list nat) (n a b : nat) :
  StronglySorted lt bs -> Forall (fun x => x < n) bs ->
  In (a, b) (spans bs n) -> In a bs /\ a < b <= n.
Proof.
  induction 1 as [|x bs Hs IH Hx]; intros Hn Hin; simpl in Hin;
    [contradiction|].
  inversion Hn as [|? ? Hxn Hbs]; subst.
  destruct Hin as [[= <- <-]|Hin].
  - split; [now left|]. destruct bs as [|e bs]; [lia|].
    inversion Hx; subst. inversion Hbs; subst. lia.
  - destruct (IH Hbs Hin). split; [now right|assumption].
Qed.

Section Clauses.
Context {db : UnicodeDB}.

Lemma caseless_prefix_head (p : char) (w s : str) :
  caseless_prefix (p :: w) s = true ->
  exists c r, s = c :: r /\ caseless c p = true.
Proof.
  destruct s as [|c r]; simpl; [discriminate|].
  intros H. apply andb_true_iff in H as [H _]. eauto.
Qed.

Lemma SUBORDINATORS_letters :
  Forall (fun w => exists p w', w = p :: w' /\ is_ascii_letter p = true)
    SUBORDINATORS.
Proof. repeat constructor; eexists _, _; split; reflexivity. Qed.

Lemma subordinator_start_not_space (s : str) (i : nat) :
  In i (find_subordinator_positions s) ->
  exists c r, skipn i s = c :: r /\ isspace c = false.
Proof.
  intros H. apply find_subordinator_positions_In in H as (w & Hw & H).
  pose proof SUBORDINATORS_letters as Hl. rewrite Forall_forall in Hl.
  destruct (Hl w Hw) as (p & w' & -> & Hp).
  apply hit_starts_matched in H as (prev & n & H).
  rewrite Nat.sub_0_r, Nat.add_0_r in H. unfold match_word in H.
  destruct (word_boundary prev (hd_error (skipn i s))); [|discriminate].
  destruct (caseless_prefix (p :: w') (skipn i s)) eqn:E; [|discriminate].
  apply caseless_prefix_head in E as (c & r & -> & Hc).
  exists c, r. split; [reflexivity|].
  eapply caseless_letter; eassumption.
Qed.

Lemma with_leading_zero_In (starts : list nat) (i : nat) :
  In i (with_leading_zero starts) -> i = 0 \/ In i starts.
Proof.
  destruct starts as [|s0 starts]; simpl; [tauto|].
  destruct (Nat.eqb_spec s0 0); simpl; intuition auto.
Qed.

(** C4. The Tier-2 splitter on a span [s]: the subordinator offsets are
    the match offsets, sorted and without duplicates; when there is
    none, the whole span goes to Tier 3 (base rule [length_fallback]);
    otherwise a boundary 0 is put in front unless the first offset is 0,
    and the result is made, in order, of the clauses of the consecutive
    boundary pairs (the last one extending to the end of the span): a
    trimmed clause of at most [max_len] characters is emitted with rule
    [clause_subordinator], a longer one is handed to Tier 3 with base
    rule [clause_subordinator], and an empty one is dropped.  On a span
    that is trimmed and not empty, as the callers pass, no clause is
    empty. *)
Theorem split_by_subordinators_clauses (fuel : nat) (s : str) (max_len : Z) :
  let starts := find_subordinator_positions s in
  let boundaries := with_leading_zero starts in
  StronglySorted lt starts
  /\ (forall i, In i starts <->
                exists word, In word SUBORDINATORS
                             /\ In i (re_starts (match_word word) s))
  /\ (starts <> [] ->
      (exists rest, boundaries = 0 :: rest)
      /\ (hd_error starts = Some 0 -> boundaries = starts)
      /\ (hd_error starts <> Some 0 -> boundaries = 0 :: starts))
  /\ split_by_subordinators fuel s max_len
     = match starts with
       | [] =>
           fallback_split_by_commas_and_conjs fuel s max_len LENGTH_FALLBACK
       | _ :: _ =>
           collect (List.map (clause_pieces fuel s max_len)
                      (spans boundaries (length s)))
       end
  /\ (strip s = s -> s <> [] ->
      forall a b, In (a, b) (spans boundaries (length s)) ->
        a < b <= length s
        /\ strip (py_slice s (Z.of_nat a) (Z.of_nat b)) <> []).
Proof.
  intros starts boundaries.
  assert (Hsorted : StronglySorted lt starts) by apply sorted_set_sorted.
  split; [exact Hsorted|].
  split; [apply find_subordinator_positions_In|].
  split.
  { intros Hne. split; [now apply with_leading_zero_head|].
    subst boundaries. destruct starts as [|s0 starts']; [contradiction|].
    simpl. destruct (Nat.eqb_spec s0 0); simpl; split; congruence. }
  split.
  { rewrite split_by_subordinators_spans. subst boundaries starts.
    destruct (find_subordinator_positions s); reflexivity. }
  intros Hstrip Hne a b Hin.
  assert (Hrange : Forall (fun x => x < length s) boundaries).
  { apply Forall_forall. intros x Hx.
    apply with_leading_zero_In in Hx as [->|Hx].
    - destruct s; [contradiction|simpl; lia].
    - now apply find_subordinator_positions_range. }
  apply spans_In in Hin as [Ha Hab];
    [|now apply with_leading_zero_sorted|assumption].
  split; [exact Hab|].
  rewrite py_slice_inside by (unfold len; lia).
  rewrite Nat2Z.id.
  replace (Z.to_nat (Z.of_nat b - Z.of_nat a)) with (S (b - a - 1)) by lia.
  assert (Hhead : exists c r, skipn a s = c :: r /\ isspace c = false).
  { apply with_leading_zero_In in Ha as [->|Ha].
    - pose proof (strip_shape s) as Hs. rewrite Hstrip in Hs.
      destruct s as [|c r]; [contradiction|]. simpl. eauto.
    - now apply subordinator_start_not_space. }
  destruct Hhead as (c & r & -> & Hc). cbn [firstn].
  now apply strip_nonempty.
Qed.
End Clauses.

Lemma split_by_subordinators_clauses_witness :
  let s := lit "stay here when it rains" in
  strip s = s /\ s <> []
  /\ find_subordinator_positions s = [10]
  /\ split_by_subordinators 30 s 12
     = collect (List.map (clause_pieces 30 s 12) [(0, 10); (10, 23)]).
Proof.
  cbv zeta. split; [reflexivity|]. split; [discriminate|].
  split; [reflexivity|].
  destruct (split_by_subordinators_clauses 30
              (lit "stay here when it rains") 12) as (_ & _ & _ & H & _).
  exact H.
Defined.

(** ** Whitespace-free content *)

Lemma drop_ws_app (a b : str) : drop_ws (a ++ b) = drop_ws a ++ drop_ws b.
Proof. apply filter_app. Qed.

Lemma drop_ws_lstrip (s : str) : drop_ws (lstrip s) = drop_ws s.
Proof.
  induction s as [|c s IH]; simpl; [reflexivity|].
  destruct (isspace c) eqn:E; simpl; [exact IH|]. now rewrite E.
Qed.

Lemma drop_ws_rstrip (s : str) : drop_ws (rstrip s) = drop_ws s.
Proof.
  induction s as [|c s IH]; [reflexivity|].
  rewrite rstrip_cons. simpl. rewrite <- IH.
  destruct (rstrip s) as [|x t].
  - destruct (isspace c) eqn:E; simpl; rewrite ?E; reflexivity.
  - reflexivity.
Qed.

Lemma drop_ws_strip (s : str) : drop_ws (strip s) = drop_ws s.
Proof. unfold strip. now rewrite drop_ws_rstrip, drop_ws_lstrip. Qed.

Lemma pieces_text_app (a b : list piece) :
  pieces_text (a ++ b) = pieces_text a ++ pieces_text b.
Proof. apply flat_map_app. Qed.

Lemma pieces_text_append (chunks : list piece) (seg : str) (rule : string) :
  pieces_text (append_piece chunks seg rule) = pieces_text chunks ++ seg.
Proof.
  destruct seg; simpl; [now rewrite app_nil_r|].
  rewrite pieces_text_app. simpl. now rewrite app_nil_r.
Qed.

(** ** Tier 3: fuel and content *)

Lemma fallback_loop_fuel (text : str) (max_len : Z) (base_rule : string) :
  forall fuel fuel' start chunks,
    fallback_loop fuel text max_len base_rule start chunks <> OutOfFuel ->
    fuel <= fuel' ->
    fallback_loop fuel' text max_len base_rule start chunks
    = fallback_loop fuel text max_len base_rule start chunks.
Proof.
  induction fuel as [|fuel IH]; intros fuel' start chunks Hrun Hle;
    [now contradiction Hrun|].
  destruct fuel' as [|fuel']; [lia|].
  cbn [fallback_loop] in *.
  destruct (start <? len text)%Z; [|reflexivity].
  destruct (skip_spaces text (Z.to_nat (len text - start)) start) as [s1| |];
    cbn [bind] in *; try reflexivity.
  destruct (s1 >=? len text)%Z; [reflexivity|].
  destruct (len text - s1 <=? max_len)%Z; [reflexivity|].
  destruct (choose_cut text max_len base_rule s1) as [cut rule].
  apply IH; [exact Hrun|lia].
Qed.

Lemma fallback_loop_mono (text : str) (max_len : Z) (base_rule : string) :
  forall fuel fuel' start chunks out,
    fallback_loop fuel text max_len base_rule start chunks = Done out ->
    fuel <= fuel' ->
    fallback_loop fuel' text max_len base_rule start chunks = Done out.
Proof.
  intros fuel fuel' start chunks out Hrun Hle.
  rewrite (fallback_loop_fuel text max_len base_rule fuel fuel'); auto.
  rewrite Hrun. discriminate.
Qed.

Lemma fallback_loop_content (text : str) (max_len : Z) (base_rule : string) :
  (1 <= max_len)%Z ->
  forall fuel i chunks out,
    i <= length text ->
    fallback_loop fuel text max_len base_rule (Z.of_nat i) chunks = Done out ->
    drop_ws (pieces_text out)
    = drop_ws (pieces_text chunks) ++ drop_ws (skipn i text).
Proof.
  intros Hm. induction fuel as [|fuel IH]; intros i chunks out Hi Hrun;
    [discriminate|].
  rewrite fallback_loop_step in Hrun by assumption. cbv zeta in Hrun.
  pose proof (after_spaces_le text i Hi) as Hj.
  assert (Hskip : drop_ws (skipn i text)
                  = drop_ws (skipn (after_spaces text i) text))
    by (now rewrite skipn_after_spaces, drop_ws_lstrip).
  set (j := after_spaces text i) in *.
  destruct (Z.leb_spec (len text) (Z.of_nat j)) as [Hend|Hlt].
  { inversion Hrun; subst. rewrite Hskip, skipn_all2 by (unfold len in *; lia).
    simpl. now rewrite app_nil_r. }
  destruct (Z.leb_spec (len text - Z.of_nat j) max_len) as [Hfit|Hlong].
  - inversion Hrun; subst.
    rewrite pieces_text_append, drop_ws_app, drop_ws_strip, drop_ws_lstrip.
    reflexivity.
  - destruct (choose_cut_range text max_len base_rule (Z.of_nat j)
                ltac:(lia) Hm ltac:(lia)) as (cut & sfx & Ecut & Hcut & Hsfx).
    rewrite Ecut in Hrun.
    rewrite <- (Z2Nat.id cut) in Hrun by lia.
    rewrite Z2Nat.id in Hrun at 2 by lia.
    apply IH in Hrun; [|unfold len in *; lia].
    rewrite Hrun, pieces_text_append, drop_ws_app, drop_ws_strip, Hskip.
    rewrite <- app_assoc, <- drop_ws_app. do 2 f_equal.
    rewrite py_slice_inside by lia. rewrite Nat2Z.id.
    replace (Z.to_nat cut) with (j + Z.to_nat (cut - Z.of_nat j)) by lia.
    rewrite <- skipn_skipn_add. apply firstn_skipn.
Qed.

Lemma fallback_piece_good (base_rule : string) (max_len : Z) (p : piece) :
  fallback_piece base_rule max_len p -> good_piece max_len p.
Proof. intros (_ & H1 & H2 & H3 & _). repeat split; assumption. Qed.

Lemma fallback_splits (text : str) (max_len : Z) (base_rule : string) :
  (1 <= max_len)%Z ->
  splits max_len text
    (fun fuel => fallback_split_by_commas_and_conjs fuel text max_len base_rule).
Proof.
  intros Hm. unfold fallback_split_by_commas_and_conjs. split.
  - destruct (fallback_loop_returns text max_len base_rule Hm
                (S (length text)) 0 []) as [out Hout]; [lia|lia|].
    exists out, (S (length text)). intros fuel Hfuel.
    eapply fallback_loop_mono; eassumption.
  - intros fuel out Hrun. split.
    + eapply Forall_impl; [apply fallback_piece_good|].
      eapply (fallback_loop_pieces text max_len base_rule Hm fuel 0);
        [lia|constructor|exact Hrun].
    + now apply (fallback_loop_content text max_len base_rule Hm fuel 0)
        in Hrun; [|lia].
Qed.

(** ** Sequences of splitters *)

Lemma collect_app_done (parts : list (outcome (list piece)))
  (out : list piece) :
  collect parts = Done out ->
  exists outs, Forall2 (fun m l => m = Done l) parts outs
               /\ out = concat outs.
Proof.
  revert out. induction parts as [|m parts IH]; intros out H; simpl in H.
  - inversion H; subst. exists []. split; [constructor|reflexivity].
  - destruct m as [first| |]; cbn [bind] in H; try discriminate.
    destruct (collect parts) as [others| |]; cbn [bind] in H;
      try discriminate.
    inversion H; subst. destruct (IH others eq_refl) as (outs & Hall & ->).
    exists (first :: outs). split; [constructor; auto|reflexivity].
Qed.

Lemma collect_done (parts : list (outcome (list piece)))
  (outs : list (list piece)) :
  Forall2 (fun m l => m = Done l) parts outs ->
  collect parts = Done (concat outs).
Proof.
  induction 1 as [|m l parts outs Hm _ IH]; [reflexivity|].
  simpl. rewrite Hm, IH. reflexivity.
Qed.

(** A sequence of splitters, each on its own input, splits the
    concatenation of the inputs. *)
Lemma collect_splits {A} (max_len : Z) (input : A -> str)
  (run : nat -> A -> outcome (list piece)) (items : list A) :
  (forall x, In x items -> splits max_len (input x) (fun fuel => run fuel x)) ->
  splits max_len (flat_map input items)
    (fun fuel => collect (List.map (run fuel) items)).
Proof.
  induction items as [|x items IH]; intros Hall.
  - split.
    + exists [], 0. reflexivity.
    + intros fuel out [= <-]. split; [constructor|reflexivity].
  - destruct (Hall x (or_introl eq_refl)) as [(o1 & f1 & H1) Hx].
    destruct IH as [(o2 & f2 & H2) Hrest].
    { intros y Hy. apply Hall. now right. }
    split.
    + exists (o1 ++ o2), (Nat.max f1 f2). intros fuel Hfuel. simpl.
      rewrite H1, H2 by lia. reflexivity.
    + intros fuel out Hrun. simpl in Hrun.
      destruct (run fuel x) as [first| |] eqn:E1; cbn [bind] in Hrun;
        try discriminate.
      destruct (collect (List.map (run fuel) items)) as [others| |] eqn:E2;
        cbn [bind] in Hrun; try discriminate.
      inversion Hrun; subst.
      destruct (Hx fuel first E1) as [Hg1 Hc1].
      destruct (Hrest fuel others E2) as [Hg2 Hc2].
      split; [now apply Forall_app|].
      rewrite pieces_text_app, drop_ws_app, Hc1, Hc2. simpl.
      now rewrite drop_ws_app.
Qed.

Lemma splits_ext (max_len : Z) (input input' : str)
  (run run' : nat -> outcome (list piece)) :
  (forall fuel, run fuel = run' fuel) ->
  drop_ws input = drop_ws input' ->
  splits max_len input run -> splits max_len input' run'.
Proof.
  intros Hrun Hin [(out & f0 & H0) H]. split.
  - exists out, f0. intros fuel Hf. rewrite <- Hrun. now apply H0.
  - intros fuel o Ho. rewrite <- Hrun in Ho. rewrite <- Hin.
    exact (H fuel o Ho).
Qed.

Lemma splits_done (max_len : Z) (input : str) (out : list piece) :
  Forall (good_piece max_len) out ->
  drop_ws (pieces_text out) = drop_ws input ->
  splits max_len input (fun _ => Done out).
Proof.
  intros Hg Hc. split.
  - exists out, 0. reflexivity.
  - intros _ o [= <-]. split; assumption.
Qed.

(** ** Scanning: the tokens cover the text *)

Section ScanFacts.
Variable matcher : option char -> str -> option nat.

Lemma scan_text (rest : str) (prev : option char) (skip : nat) :
  flat_map (token_text (fun m => m)) (scan matcher prev skip rest)
  = skipn skip rest.
Proof.
  revert prev skip. induction rest as [|c rest IH]; intros prev skip.
  - now destruct skip.
  - cbn [scan]. destruct skip as [|skip]; [|now rewrite IH].
    destruct (matcher prev (c :: rest)) as [[|k]|]; cbn [flat_map token_text].
    + rewrite IH. reflexivity.
    + rewrite IH. cbn [firstn skipn app]. f_equal. apply firstn_skipn.
    + rewrite IH. reflexivity.
Qed.

Lemma tokens_text (text : str) :
  flat_map (token_text (fun m => m)) (tokens matcher text) = text.
Proof. apply scan_text. Qed.

(** Every hit is a match of the pattern. *)
Lemma scan_hits (P : str -> Prop) :
  (forall prev rest k,
     matcher prev rest = Some (S k) -> P (firstn (S k) rest)) ->
  forall rest prev skip,
    Forall (hit_property P) (scan matcher prev skip rest).
Proof.
  intros HP. induction rest as [|c rest IH]; intros prev skip;
    cbn [scan]; [constructor|].
  destruct skip as [|skip]; [|apply IH].
  destruct (matcher prev (c :: rest)) as [[|k]|] eqn:E;
    constructor; try apply IH; try exact I.
  exact (HP _ _ _ E).
Qed.
End ScanFacts.

Lemma token_text_same (repl repl' : str -> str) (ts : list token) :
  Forall (hit_property (fun m => drop_ws (repl m) = drop_ws (repl' m))) ts ->
  drop_ws (flat_map (token_text repl) ts)
  = drop_ws (flat_map (token_text repl') ts).
Proof.
  induction 1 as [|t ts Ht _ IH]; [reflexivity|].
  cbn [flat_map]. rewrite !drop_ws_app, IH. f_equal.
  destruct t; [reflexivity|exact Ht].
Qed.

Lemma split_tokens_text (ts : list token) :
  concat (split_tokens ts) = flat_map (token_text (fun _ => [])) ts.
Proof.
  induction ts as [|t ts IH]; [reflexivity|].
  destruct t as [c|m]; cbn [split_tokens flat_map token_text].
  - rewrite <- IH. destruct (split_tokens ts); reflexivity.
  - rewrite <- IH. reflexivity.
Qed.

Lemma blank_firstn_space_run (s : str) (n : nat) :
  n <= space_run s -> blank (firstn n s).
Proof.
  unfold blank. revert n. induction s as [|c s IH]; intros n Hn.
  - now rewrite firstn_nil.
  - destruct n as [|n]; [reflexivity|]. simpl in Hn.
    destruct (isspace c) eqn:E; [|lia]. simpl. rewrite E. simpl.
    apply IH. lia.
Qed.

(** [re.sub] that rewrites blank matches into blank text keeps the
    content. *)
Lemma re_sub_blank (matcher : option char -> str -> option nat)
  (repl : str -> str) (text : str) :
  (forall prev rest k,
     matcher prev rest = Some (S k) -> blank (firstn (S k) rest)) ->
  (forall m, blank (repl m)) ->
  drop_ws (re_sub matcher repl text) = drop_ws text.
Proof.
  intros Hm Hrepl. unfold re_sub.
  rewrite <- (tokens_text matcher text) at 2.
  apply token_text_same.
  eapply Forall_impl; [|apply (scan_hits matcher blank Hm)].
  intros [c|m]; simpl; [trivial|]. intros Hb. now rewrite Hrepl, Hb.
Qed.

(** [re.split] on blank separators keeps the content. *)
Lemma re_split_blank (matcher : option char -> str -> option nat)
  (text : str) :
  (forall prev rest k,
     matcher prev rest = Some (S k) -> blank (firstn (S k) rest)) ->
  drop_ws (concat (re_split matcher text)) = drop_ws text.
Proof.
  intros Hm. unfold re_split. rewrite split_tokens_text.
  rewrite <- (tokens_text matcher text) at 2.
  apply token_text_same.
  eapply Forall_impl; [|apply (scan_hits matcher blank Hm)].
  intros [c|m]; simpl; [trivial|]. intros Hb. now rewrite Hb.
Qed.

Lemma match_spaces_blank (prev : option char) (rest : str) (k : nat) :
  match_spaces prev rest = Some (S k) -> blank (firstn (S k) rest).
Proof.
  unfold match_spaces. destruct (space_run rest) eqn:E; [discriminate|].
  intros [= <-]. apply blank_firstn_space_run. lia.
Qed.

Lemma match_after_terminal_blank (prev : option char) (rest : str) (k : nat) :
  match_after_terminal prev rest = Some (S k) -> blank (firstn (S k) rest).
Proof.
  unfold match_after_terminal. destruct prev as [p|]; [|discriminate].
  destruct (char_in p (lit ".!?")); [|discriminate].
  destruct (space_run rest) eqn:E; [discriminate|].
  intros [= <-]. apply blank_firstn_space_run. lia.
Qed.

Lemma last_index_of_bound (c : char) (s : str) (i j : nat) :
  last_index_of c s i = Some j -> i <= j < i + length s.
Proof.
  revert i j. induction s as [|x s IH]; intros i j H; simpl in H;
    [discriminate|].
  destruct (last_index_of c s (S i)) as [k|] eqn:E.
  - inversion H; subst. apply IH in E. simpl. lia.
  - destruct (x =? c)%N; [|discriminate]. inversion H; subst. simpl. lia.
Qed.

Lemma match_blank_lines_blank (prev : option char) (rest : str) (k : nat) :
  match_blank_lines prev rest = Some (S k) -> blank (firstn (S k) rest).
Proof.
  unfold match_blank_lines. destruct rest as [|c s]; [discriminate|].
  destruct (N.eqb_spec c NEWLINE) as [->|]; [|discriminate].
  destruct (last_index_of NEWLINE (firstn (space_run s) s) 0) as [j|] eqn:E;
    [|discriminate].
  intros [= Hk]. apply last_index_of_bound in E.
  rewrite length_firstn in E.
  apply (blank_firstn_space_run (NEWLINE :: s) (S k)).
  simpl. change (isspace NEWLINE) with true. cbv iota. lia.
Qed.

Lemma strip_pieces_content (ps : list str) :
  drop_ws (concat (List.map strip (filter (fun p => nonempty (strip p)) ps)))
  = drop_ws (concat ps).
Proof.
  induction ps as [|p ps IH]; [reflexivity|].
  cbn [filter concat]. rewrite drop_ws_app, <- IH, <- (drop_ws_strip p).
  destruct (strip p) eqn:E; cbn [nonempty]; [reflexivity|].
  cbn [List.map concat]. now rewrite drop_ws_app, E.
Qed.

Lemma split_into_paragraphs_content (text : str) :
  drop_ws (concat (split_into_paragraphs text)) = drop_ws text.
Proof.
  unfold split_into_paragraphs. rewrite <- (drop_ws_strip text).
  destruct (strip text) eqn:E; cbn [nonempty negb]; [reflexivity|].
  rewrite strip_pieces_content.
  apply re_split_blank, match_blank_lines_blank.
Qed.

Lemma split_into_sentences_content (paragraph : str) :
  drop_ws (concat (split_into_sentences paragraph)) = drop_ws paragraph.
Proof.
  unfold split_into_sentences.
  assert (H : drop_ws (re_sub match_spaces (fun _ => [SPACE]) (strip paragraph))
              = drop_ws paragraph).
  { rewrite re_sub_blank; [apply drop_ws_strip|apply match_spaces_blank|].
    intros _. reflexivity. }
  destruct (re_sub match_spaces (fun _ => [SPACE]) (strip paragraph)) eqn:E;
    cbn [nonempty negb]; [exact H|].
  rewrite <- E in *.
  destruct (length (re_split match_after_terminal _) =? 1)%nat.
  - cbn [concat]. now rewrite app_nil_r.
  - rewrite strip_pieces_content, <- H.
    apply re_split_blank, match_after_terminal_blank.
Qed.

(** ** The splitters, level by level *)

Lemma bind_done_nil (m : outcome (list piece)) :
  (rest <- m ;; Done ([] ++ rest)) = m.
Proof. destruct m; reflexivity. Qed.

Lemma firstn_skipn_skipn (s : str) (a b : nat) :
  a <= b -> firstn (b - a) (skipn a s) ++ skipn b s = skipn a s.
Proof.
  intros H. replace b with (a + (b - a)) at 2 by lia.
  rewrite <- skipn_skipn_add. apply firstn_skipn.
Qed.

Lemma py_slice_nat (s : str) (a b : nat) :
  a <= b <= length s ->
  py_slice s (Z.of_nat a) (Z.of_nat b) = firstn (b - a) (skipn a s).
Proof.
  intros H. rewrite py_slice_inside by (unfold len; lia).
  rewrite Nat2Z.id. f_equal. lia.
Qed.

Lemma spans_cover (s : str) (bs : list nat) :
  StronglySorted lt bs -> Forall (fun x => x <= length s) bs ->
  flat_map (span_text s) (spans bs (length s))
  = match bs with
    | [] => []
    | b0 :: _ => skipn b0 s
    end.
Proof.
  induction 1 as [|x bs Hs IH Hx]; intros Hn; [reflexivity|].
  inversion Hn as [|? ? Hxn Hbs]; subst.
  cbn [spans flat_map]. rewrite (IH Hbs). unfold span_text. cbn [fst snd].
  destruct bs as [|e bs].
  - rewrite app_nil_r.
    change (Z.of_nat (length s)) with (len s).
    rewrite py_slice_suffix by (unfold len; lia). now rewrite Nat2Z.id.
  - inversion Hx; subst. inversion Hbs; subst.
    rewrite py_slice_nat by lia. apply firstn_skipn_skipn. lia.
Qed.

Section Levels.
Context {db : UnicodeDB}.
Variable max_len : Z.
Hypothesis max_len_pos : (1 <= max_len)%Z.

Lemma stripped_piece_splits (clause : str) (rule : string)
  (run : nat -> outcome (list piece)) :
  splits max_len clause run ->
  splits max_len clause
    (fun fuel =>
       if negb (nonempty (strip clause)) then Done []
       else if (len (strip clause) <=? max_len)%Z
            then Done [mk_piece (strip clause) rule]
            else run fuel).
Proof.
  intros Hrun. destruct (strip clause) as [|c r] eqn:E; cbn [nonempty negb].
  - apply splits_done; [constructor|].
    rewrite <- (drop_ws_strip clause), E. reflexivity.
  - destruct (Z.leb_spec (len (c :: r)) max_len) as [Hfit|Hlong];
      [|exact Hrun].
    apply splits_done.
    + constructor; [|constructor]. unfold good_piece. cbn [piece_chunk].
      split; [exact Hfit|]. split; [discriminate|].
      rewrite <- E. apply strip_idem.
    + unfold pieces_text. cbn [flat_map piece_chunk].
      rewrite app_nil_r, <- E. apply drop_ws_strip.
Qed.

Lemma clause_pieces_splits (s : str) (span : nat * nat) :
  splits max_len (span_text s span)
    (fun fuel => clause_pieces fuel s max_len span).
Proof.
  unfold clause_pieces. fold (span_text s span).
  apply (splits_ext max_len (span_text s span) (span_text s span)
           (fun fuel =>
              if negb (nonempty (strip (span_text s span))) then Done []
              else if (len (strip (span_text s span)) <=? max_len)%Z
                   then Done [mk_piece (strip (span_text s span))
                                CLAUSE_SUBORDINATOR]
                   else
                     (fun fuel =>
                        fallback_split_by_commas_and_conjs fuel
                          (strip (span_text s span)) max_len
                          CLAUSE_SUBORDINATOR) fuel));
    [reflexivity|reflexivity|].
  apply stripped_piece_splits.
  eapply splits_ext; [reflexivity|apply drop_ws_strip|].
  now apply fallback_splits.
Qed.

Lemma split_by_subordinators_splits (s : str) :
  splits max_len s (fun fuel => split_by_subordinators fuel s max_len).
Proof.
  eapply splits_ext;
    [intros fuel; symmetry; apply split_by_subordinators_spans|reflexivity|].
  destruct (find_subordinator_positions s) as [|s0 starts] eqn:E.
  - now apply fallback_splits.
  - set (bs := with_leading_zero (s0 :: starts)).
    assert (Hsorted : StronglySorted lt bs).
    { apply with_leading_zero_sorted. rewrite <- E. apply sorted_set_sorted. }
    assert (Hrange : Forall (fun x => x <= length s) bs).
    { apply Forall_forall. intros x Hx.
      apply with_leading_zero_In in Hx as [->|Hx]; [lia|].
      rewrite <- E in Hx. apply find_subordinator_positions_range in Hx. lia. }
    pose proof (spans_cover s bs Hsorted Hrange) as Hcover.
    destruct (with_leading_zero_head (s0 :: starts) ltac:(discriminate))
      as [rest Hrest].
    fold bs in Hrest. rewrite Hrest in Hcover. cbn [skipn] in Hcover.
    rewrite <- Hrest in Hcover. rewrite <- Hcover at 1.
    apply (collect_splits max_len (span_text s)
             (fun fuel span => clause_pieces fuel s max_len span)).
    intros span _. apply clause_pieces_splits.
Qed.

(** *** Tier 1 *)

Lemma enumerate_filter_sorted {A} (f : nat * A -> bool) (l : list A) (k : nat) :
  StronglySorted lt
    (List.map fst (filter f (combine (seq k (length l)) l)))
  /\ Forall (fun p => k <= p < k + length l)
       (List.map fst (filter f (combine (seq k (length l)) l))).
Proof.
  revert k. induction l as [|x l IH]; intros k; [split; constructor|].
  cbn [length seq combine filter]. destruct (IH (S k)) as [Hs Hr].
  assert (Hr' : Forall (fun p => k <= p < k + S (length l))
                  (List.map fst (filter f (combine (seq (S k) (length l)) l)))).
  { eapply Forall_impl; [|exact Hr]. simpl. intros; lia. }
  destruct (f (k, x)); [|split; assumption].
  cbn [List.map fst]. split.
  - constructor; [assumption|].
    eapply Forall_impl; [|exact Hr]. simpl. intros; lia.
  - constructor; [lia|assumption].
Qed.

Lemma trimmed_strip (s : str) : nonempty (strip s) = true -> trimmed (strip s).
Proof.
  intros H. split; [|apply strip_idem]. now destruct (strip s).
Qed.

Lemma comma_segments_content (s : str) :
  forall positions prev segments,
    StronglySorted lt positions ->
    Forall (fun p => prev <= p < length s) positions ->
    prev <= length s ->
    Forall trimmed segments ->
    Forall trimmed (comma_segments s positions prev segments)
    /\ drop_ws (concat (comma_segments s positions prev segments))
       = drop_ws (concat segments) ++ drop_ws (skipn prev s).
Proof.
  induction positions as [|pos positions IH];
    intros prev segments Hs Hr Hprev Hseg; cbn [comma_segments].
  - rewrite py_slice_suffix by (unfold len; lia). rewrite Nat2Z.id.
    destruct (nonempty (strip (skipn prev s))) eqn:E.
    + split.
      * apply Forall_app. split; [assumption|].
        constructor; [now apply trimmed_strip|constructor].
      * rewrite concat_app, drop_ws_app. simpl.
        now rewrite app_nil_r, drop_ws_strip.
    + split; [assumption|].
      rewrite <- (drop_ws_strip (skipn prev s)).
      destruct (strip (skipn prev s)); [|discriminate].
      now rewrite app_nil_r.
  - inversion Hs as [|? ? Hs' Hlt]; subst.
    inversion Hr as [|? ? Hpos Hr']; subst.
    set (seg := strip (py_slice s (Z.of_nat prev) (Z.of_nat (pos + 1)))).
    destruct (IH (pos + 1)
                (if nonempty seg then segments ++ [seg] else segments) Hs')
      as [Ht Hc].
    + rewrite Forall_forall in Hlt, Hr'. apply Forall_forall. intros p Hp.
      specialize (Hlt p Hp). specialize (Hr' p Hp). lia.
    + lia.
    + destruct (nonempty seg) eqn:E; [|assumption].
      apply Forall_app. split; [assumption|].
      constructor; [now apply trimmed_strip|constructor].
    + split; [exact Ht|]. rewrite Hc.
      assert (Hseg' : drop_ws (concat (if nonempty seg
                                       then segments ++ [seg] else segments))
                      = drop_ws (concat segments)
                        ++ drop_ws (firstn (pos + 1 - prev) (skipn prev s))).
      { rewrite <- py_slice_nat by lia.
        rewrite <- (drop_ws_strip (py_slice _ _ _)). fold seg.
        destruct seg; cbn [nonempty].
        - now rewrite app_nil_r.
        - rewrite concat_app, drop_ws_app. simpl. now rewrite app_nil_r. }
      etransitivity;
        [exact (f_equal (fun x => x ++ drop_ws (skipn (pos + 1) s)) Hseg')|].
      cbv beta. rewrite <- app_assoc, <- drop_ws_app.
      rewrite firstn_skipn_skipn by lia. reflexivity.
Qed.

Lemma segment_loop_collect (fuel : nat) (segments : list str)
  (chunks : list piece) :
  segment_loop fuel max_len segments chunks
  = (rest <- collect (List.map (segment_pieces fuel max_len) segments) ;;
     Done (chunks ++ rest)).
Proof.
  revert chunks. induction segments as [|seg segments IH]; intros chunks.
  - simpl. now rewrite app_nil_r.
  - cbn [segment_loop List.map collect]. unfold segment_pieces at 1.
    destruct (len seg <=? max_len)%Z.
    + rewrite IH. cbn [bind].
      destruct (collect _); cbn [bind]; [|reflexivity|reflexivity].
      now rewrite <- app_assoc.
    + destruct (split_by_subordinators fuel seg max_len);
        cbn [bind]; [|reflexivity|reflexivity].
      rewrite IH.
      destruct (collect _); cbn [bind]; [|reflexivity|reflexivity].
      now rewrite <- app_assoc.
Qed.

Lemma segment_pieces_splits (seg : str) :
  trimmed seg ->
  splits max_len seg (fun fuel => segment_pieces fuel max_len seg).
Proof.
  intros [Hne Hstrip]. unfold segment_pieces.
  destruct (Z.leb_spec (len seg) max_len) as [Hfit|Hlong].
  - apply splits_done.
    + constructor; [|constructor]. repeat split; assumption.
    + unfold pieces_text. cbn [flat_map piece_chunk]. now rewrite app_nil_r.
  - apply split_by_subordinators_splits.
Qed.

Lemma split_long_sentence_splits (s : str) :
  splits max_len s (fun fuel => split_long_sentence fuel s max_len).
Proof.
  unfold split_long_sentence.
  destruct (0 <? length (comma_positions s))%nat;
    [|apply split_by_subordinators_splits].
  destruct (enumerate_filter_sorted (fun p => (snd p =? COMMA)%N) s 0)
    as [Hs Hr].
  fold (enumerate s) in Hs, Hr. fold (comma_positions s) in Hs, Hr.
  destruct (comma_segments_content s (comma_positions s) 0 [] Hs Hr
              ltac:(lia) ltac:(constructor)) as [Ht Hc].
  cbn [concat drop_ws filter app skipn] in Hc.
  eapply splits_ext;
    [intros fuel; symmetry; rewrite segment_loop_collect;
     apply bind_done_nil| |].
  2:{ apply (collect_splits max_len (fun seg => seg)
               (fun fuel seg => segment_pieces fuel max_len seg)).
      intros seg Hseg. apply segment_pieces_splits.
      rewrite Forall_forall in Ht. now apply Ht. }
  rewrite flat_map_concat_map, map_id. exact Hc.
Qed.

(** *** Sentences and paragraphs *)

Lemma sentence_loop_collect (fuel : nat) (sentences : list str)
  (chunks : list piece) :
  sentence_loop fuel max_len sentences chunks
  = (rest <- collect (List.map (sentence_pieces fuel max_len) sentences) ;;
     Done (chunks ++ rest)).
Proof.
  revert chunks. induction sentences as [|sent sentences IH]; intros chunks.
  - simpl. now rewrite app_nil_r.
  - cbn [sentence_loop List.map collect]. unfold sentence_pieces at 1.
    cbv zeta.
    destruct (negb (nonempty (strip sent))).
    + rewrite IH. cbn [bind]. destruct (collect _); reflexivity.
    + destruct (len (strip sent) <=? max_len)%Z.
      * rewrite IH. cbn [bind].
        destruct (collect _); cbn [bind]; [|reflexivity|reflexivity].
        now rewrite <- app_assoc.
      * destruct (split_long_sentence fuel (strip sent) max_len);
          cbn [bind]; [|reflexivity|reflexivity].
        rewrite IH.
        destruct (collect _); cbn [bind]; [|reflexivity|reflexivity].
        now rewrite <- app_assoc.
Qed.

Lemma sentence_pieces_splits (sent : str) :
  splits max_len sent (fun fuel => sentence_pieces fuel max_len sent).
Proof.
  unfold sentence_pieces. cbv zeta.
  apply (stripped_piece_splits sent SENTENCE
           (fun fuel => split_long_sentence fuel (strip sent) max_len)).
  eapply splits_ext; [reflexivity|apply drop_ws_strip|].
  apply split_long_sentence_splits.
Qed.

Lemma process_paragraph_splits (paragraph : str) :
  splits max_len paragraph
    (fun fuel => process_paragraph fuel paragraph max_len).
Proof.
  unfold process_paragraph.
  eapply splits_ext;
    [intros fuel; symmetry; rewrite sentence_loop_collect;
     apply bind_done_nil| |].
  2:{ apply (collect_splits max_len (fun sent => sent)
               (fun fuel sent => sentence_pieces fuel max_len sent)).
      intros sent _. apply sentence_pieces_splits. }
  rewrite flat_map_concat_map, map_id.
  apply split_into_sentences_content.
Qed.

Lemma paragraph_loop_collect (fuel : nat) (paragraphs : list str)
  (all_chunks : list piece) :
  paragraph_loop fuel max_len paragraphs all_chunks
  = (rest <- collect (List.map (fun para =>
                                  process_paragraph fuel para max_len)
                        paragraphs) ;;
     Done (all_chunks ++ rest)).
Proof.
  revert all_chunks.
  induction paragraphs as [|para paragraphs IH]; intros all_chunks.
  - simpl. now rewrite app_nil_r.
  - cbn [paragraph_loop List.map collect].
    destruct (process_paragraph fuel para max_len);
      cbn [bind]; [|reflexivity|reflexivity].
    rewrite IH.
    destruct (collect _); cbn [bind]; [|reflexivity|reflexivity].
    now rewrite <- app_assoc.
Qed.

Lemma paragraphs_split (text : str) :
  splits max_len text
    (fun fuel => paragraph_loop fuel max_len (split_into_paragraphs text) []).
Proof.
  eapply splits_ext;
    [intros fuel; symmetry; rewrite paragraph_loop_collect;
     apply bind_done_nil| |].
  2:{ apply (collect_splits max_len (fun para => para)
               (fun fuel para => process_paragraph fuel para max_len)).
      intros para _. apply process_paragraph_splits. }
  rewrite flat_map_concat_map, map_id.
  apply split_into_paragraphs_content.
Qed.
End Levels.

(** ** [chunk_text] *)

Lemma final_chunks_good (max_len : Z) (all_chunks : list piece) :
  Forall (good_piece max_len) all_chunks ->
  final_chunks all_chunks = List.map chunk_of_piece all_chunks.
Proof.
  induction 1 as [|p ps (_ & Hne & Hstrip) _ IH]; [reflexivity|].
  cbn [final_chunks List.map]. rewrite Hstrip, IH. unfold chunk_of_piece.
  destruct (piece_chunk p) eqn:E; [contradiction|reflexivity].
Qed.

Lemma chunks_text_of_pieces (ps : list piece) :
  flat_map Chunk.chunk (List.map chunk_of_piece ps) = pieces_text ps.
Proof.
  induction ps as [|p ps IH]; [reflexivity|].
  simpl. now rewrite IH.
Qed.

Section ChunkText.
Context {db : UnicodeDB}.

Lemma chunk_text_settles (text : str) (max_len : Z) :
  (1 <= max_len)%Z ->
  exists chunks, settles (fun fuel => chunk_text fuel text max_len) chunks.
Proof.
  intros Hm.
  destruct (paragraphs_split max_len Hm (normalize_for_tts text))
    as [(out & f0 & H0) _].
  exists (final_chunks out), f0. intros fuel Hf. unfold chunk_text.
  now rewrite H0.
Qed.

Lemma chunk_text_pieces (fuel : nat) (text : str) (max_len : Z)
  (chunks : list Chunk.t) :
  (1 <= max_len)%Z ->
  chunk_text fuel text max_len = Done chunks ->
  exists pieces,
    chunks = List.map chunk_of_piece pieces
    /\ Forall (good_piece max_len) pieces
    /\ drop_ws (pieces_text pieces) = drop_ws (normalize_for_tts text).
Proof.
  intros Hm Hrun. unfold chunk_text in Hrun.
  destruct (paragraph_loop fuel max_len
              (split_into_paragraphs (normalize_for_tts text)) [])
    as [out| |] eqn:E; cbn [bind] in Hrun; try discriminate.
  inversion Hrun; subst.
  destruct (paragraphs_split max_len Hm (normalize_for_tts text))
    as [_ H]. destruct (H fuel out E) as [Hg Hc].
  exists out. split; [now apply final_chunks_good with max_len|].
  split; assumption.
Qed.

(** C10. For every text and every [max_len >= 1], [chunk_text] returns
    (from some amount of fuel on, always the same list), and every
    chunk it returns, whatever its rule, has at most [max_len]
    characters, in its [length] field and in its text. *)
Theorem chunk_text_within_max_len (text : str) (max_len : Z) :
  (1 <= max_len)%Z ->
  (exists chunks, settles (fun fuel => chunk_text fuel text max_len) chunks)
  /\ (forall fuel chunks,
        chunk_text fuel text max_len = Done chunks ->
        Forall (fun c => (Chunk.length c <= max_len)%Z
                         /\ (len (Chunk.chunk c) <= max_len)%Z) chunks).
Proof.
  intros Hm. split; [now apply chunk_text_settles|].
  intros fuel chunks Hrun.
  destruct (chunk_text_pieces fuel text max_len chunks Hm Hrun)
    as (pieces & -> & Hg & _).
  apply Forall_map. eapply Forall_impl; [|exact Hg].
  intros p (Hlen & _). simpl. split; exact Hlen.
Qed.

(** C5. For every text and every [max_len >= 1], [chunk_text] returns,
    and the texts of the chunks it returns, one after the other in
    output order and without their whitespace, are the normalized text
    without its whitespace: nothing but whitespace is lost, duplicated
    or moved. *)
Theorem chunk_text_reconstructs_normalized (text : str) (max_len : Z) :
  (1 <= max_len)%Z ->
  (exists chunks, settles (fun fuel => chunk_text fuel text max_len) chunks)
  /\ (forall fuel chunks,
        chunk_text fuel text max_len = Done chunks ->
        drop_ws (flat_map Chunk.chunk chunks)
        = drop_ws (normalize_for_tts text)).
Proof.
  intros Hm. split; [now apply chunk_text_settles|].
  intros fuel chunks Hrun.
  destruct (chunk_text_pieces fuel text max_len chunks Hm Hrun)
    as (pieces & -> & _ & Hc).
  now rewrite chunks_text_of_pieces.
Qed.

Lemma final_chunks_trimmed (all_chunks : list piece) :
  Forall (fun c => Chunk.chunk c <> []
                   /\ strip (Chunk.chunk c) = Chunk.chunk c
                   /\ Chunk.length c = len (Chunk.chunk c))
    (final_chunks all_chunks).
Proof.
  induction all_chunks as [|p ps IH]; [constructor|].
  cbn [final_chunks].
  destruct (strip (piece_chunk p)) eqn:E; cbn [nonempty negb]; [exact IH|].
  constructor; [|exact IH]. cbn [Chunk.chunk Chunk.length].
  split; [discriminate|]. split; [|reflexivity].
  rewrite <- E. apply strip_idem.
Qed.

(** C8. Whatever the text and [max_len], every chunk that [chunk_text]
    returns has a text that is not empty and is its own trim, and a
    [length] that is the number of characters of that text. *)
Theorem chunk_text_chunks_trimmed (fuel : nat) (text : str) (max_len : Z)
  (chunks : list Chunk.t) :
  chunk_text fuel text max_len = Done chunks ->
  Forall (fun c => Chunk.chunk c <> []
                   /\ strip (Chunk.chunk c) = Chunk.chunk c
                   /\ Chunk.length c = len (Chunk.chunk c)) chunks.
Proof.
  unfold chunk_text. intros Hrun.
  destruct (paragraph_loop fuel max_len
              (split_into_paragraphs (normalize_for_tts text)) [])
    as [out| |]; cbn [bind] in Hrun; try discriminate.
  inversion Hrun; subst. apply final_chunks_trimmed.
Qed.
End ChunkText.

Lemma chunk_text_within_max_len_witness :
  (1 <= 20)%Z
  /\ (forall fuel chunks,
        chunk_text fuel (lit "Wait here, when it rains and pours.") 20
        = Done chunks ->
        Forall (fun c => (Chunk.length c <= 20)%Z
                         /\ (len (Chunk.chunk c) <= 20)%Z) chunks).
Proof.
  split; [lia|].
  destruct (chunk_text_within_max_len
              (lit "Wait here, when it rains and pours.") 20) as [_ H];
    [lia|exact H].
Defined.

Lemma chunk_text_reconstructs_normalized_witness :
  (1 <= 20)%Z
  /\ (forall fuel chunks,
        chunk_text fuel (lit "Wait here - when it rains and pours.") 20
        = Done chunks ->
        drop_ws (flat_map Chunk.chunk chunks)
        = drop_ws (lit "Wait here, when it rains and pours.")).
Proof.
  split; [lia|].
  destruct (chunk_text_reconstructs_normalized
              (lit "Wait here - when it rains and pours.") 20) as [_ H];
    [lia|exact H].
Defined.

Lemma chunk_text_chunks_trimmed_witness :
  chunk_text 10 (lit "Go.  Stop now!") 5
  = Done [Chunk.mk (lit "Go.") SENTENCE 3;
          Chunk.mk (lit "Stop") "length_fallback+length_limit" 4;
          Chunk.mk (lit "now!") "length_fallback+tail" 4]
  /\ Forall (fun c => Chunk.chunk c <> []
                      /\ strip (Chunk.chunk c) = Chunk.chunk c
                      /\ Chunk.length c = len (Chunk.chunk c))
       [Chunk.mk (lit "Go.") SENTENCE 3;
        Chunk.mk (lit "Stop") "length_fallback+length_limit" 4;
        Chunk.mk (lit "now!") "length_fallback+tail" 4].
Proof.
  split; [reflexivity|].
  apply (chunk_text_chunks_trimmed 10 (lit "Go.  Stop now!") 5).
  reflexivity.
Defined.

(** The end-to-end example of the documentation, with [max_len = 60]. *)
Example chunk_text_end_to_end :
  chunk_text 100
    (lit "This is a short sentence. This one, on the other hand, needs clause splitting because it contains a subordinator and is quite long indeed to exceed the limit.")
    60
  = Done
      [Chunk.mk (lit "This is a short sentence.") "sentence" 25;
       Chunk.mk (lit "This one,") "comma_first" 9;
       Chunk.mk (lit "on the other hand,") "comma_first" 18;
       Chunk.mk (lit "needs clause splitting") "clause_subordinator" 22;
       Chunk.mk (lit "because it contains a subordinator")
         "clause_subordinator+conj_split" 34;
       Chunk.mk (lit "and is quite long indeed to exceed the limit.")
         "clause_subordinator+tail" 45].
Proof. vm_compute. reflexivity. Qed.

(** The dash used as a pause, from the documentation of the program. *)
Example normalize_dash_as_pause :
  normalize_for_tts (lit "Asia" ++ EM_DASH :: lit "particularly interesting")
  = lit "Asia, particularly interesting".
Proof. reflexivity. Qed.

(** ** [max_len <= 0] *)

(** With [max_len = 0] an iteration of the Tier-3 loop that stands on a
    character that is not whitespace cuts at the same position and
    appends nothing. *)
Lemma fallback_loop_zero_stuck (fuel : nat) (text : str)
  (base_rule : string) (i : nat) (c : char) (chunks : list piece) :
  nth_error text i = Some c -> isspace c = false ->
  fallback_loop (S fuel) text 0 base_rule (Z.of_nat i) chunks
  = fallback_loop fuel text 0 base_rule (Z.of_nat i) chunks.
Proof.
  intros Hc Hs.
  assert (Hi : i < length text) by (apply nth_error_Some; congruence).
  rewrite fallback_loop_step by lia. cbv zeta.
  assert (Hj : after_spaces text i = i).
  { unfold after_spaces. rewrite (skipn_cons_nth _ _ _ Hc). simpl.
    rewrite Hs. lia. }
  rewrite Hj.
  destruct (Z.leb_spec (len text) (Z.of_nat i)); [unfold len in *; lia|].
  destruct (Z.leb_spec (len text - Z.of_nat i) 0); [unfold len in *; lia|].
  unfold choose_cut, py_find.
  rewrite Z.add_0_r, Z.min_l by (unfold len in *; lia).
  assert (Hempty : py_slice text (Z.of_nat i) (Z.of_nat i) = []).
  { rewrite py_slice_inside by (unfold len in *; lia).
    now rewrite Z.sub_diag. }
  rewrite Hempty. cbn [index_of].
  change (negb (-1 =? -1)%Z) with false. cbv iota.
  change (conj_match [] (Z.of_nat i) CONJS) with (@None Z). cbv iota.
  rewrite Hempty. reflexivity.
Qed.

Lemma fallback_loop_zero_diverges (text : str) (base_rule : string)
  (i : nat) (c : char) (chunks : list piece) :
  nth_error text i = Some c -> isspace c = false ->
  forall fuel,
    fallback_loop fuel text 0 base_rule (Z.of_nat i) chunks = OutOfFuel.
Proof.
  intros Hc Hs. induction fuel as [|fuel IH]; [reflexivity|].
  now rewrite (fallback_loop_zero_stuck fuel text base_rule i c chunks Hc Hs).
Qed.

(** C2, at its failing inputs.  With [max_len = 0] the text ["a"] makes
    the Tier-3 loop cut at offset 0 for ever: no amount of fuel lets
    [chunk_text] return.  With [max_len = -1] the text ["ab"] makes the
    loop walk backwards until [text[start]] raises IndexError. *)
Theorem chunk_text_nonpositive_max_len :
  (forall fuel, chunk_text fuel (lit "a") 0 = OutOfFuel)
  /\ (forall fuel, 4 <= fuel ->
        chunk_text fuel (lit "ab") (-1) = Raise IndexError).
Proof.
  split.
  - intros fuel.
    assert (E : chunk_text fuel (lit "a") 0
                = (all_chunks <-
                     fallback_loop fuel (lit "a") 0 LENGTH_FALLBACK
                       (Z.of_nat 0) [] ;;
                   Done (final_chunks all_chunks))).
    { destruct fuel; [reflexivity|].
      set (r := fallback_loop (S fuel) (lit "a") 0 LENGTH_FALLBACK
                  (Z.of_nat 0) []).
      transitivity (all_chunks <-
                      (para_chunks <-
                         (clause_chunks <- r ;; Done ([] ++ clause_chunks)) ;;
                       Done ([] ++ para_chunks)) ;;
                    Done (final_chunks all_chunks)).
      - subst r. reflexivity.
      - destruct r; reflexivity. }
    rewrite E.
    rewrite (fallback_loop_zero_diverges (lit "a") LENGTH_FALLBACK 0 97%N []);
      reflexivity.
  - intros fuel Hfuel.
    assert (E : chunk_text fuel (lit "ab") (-1)
                = (all_chunks <-
                     fallback_loop fuel (lit "ab") (-1) LENGTH_FALLBACK 0 [] ;;
                   Done (final_chunks all_chunks))).
    { destruct fuel; [reflexivity|].
      set (r := fallback_loop (S fuel) (lit "ab") (-1) LENGTH_FALLBACK 0 []).
      transitivity (all_chunks <-
                      (para_chunks <-
                         (clause_chunks <- r ;; Done ([] ++ clause_chunks)) ;;
                       Done ([] ++ para_chunks)) ;;
                    Done (final_chunks all_chunks)).
      - subst r. reflexivity.
      - destruct r; reflexivity. }
    rewrite E.
    rewrite (fallback_loop_fuel (lit "ab") (-1) LENGTH_FALLBACK 4 fuel 0 []);
      [reflexivity|vm_compute; discriminate|exact Hfuel].
Qed.

(** ** Normalization, pass 1: bracketed asides *)

Lemma scan_skip_app (matcher : option char -> str -> option nat)
  (a b : str) (prev : option char) :
  exists prev', scan matcher prev (length a) (a ++ b) = scan matcher prev' 0 b.
Proof.
  revert prev. induction a as [|c a IH]; intros prev; [now exists prev|].
  cbn [length app scan]. apply IH.
Qed.

Lemma scan_match_aside_prev (rest : str) (prev prev' : option char)
  (skip : nat) :
  scan match_aside prev skip rest = scan match_aside prev' skip rest.
Proof.
  revert prev prev' skip. induction rest as [|c rest IH];
    intros prev prev' skip; [reflexivity|].
  cbn [scan]. destruct skip; [|apply IH]. reflexivity.
Qed.

Lemma aside_inner_found (inner post : str) (d2 : char) :
  (forall c, In c inner -> is_dash c = false /\ c <> NEWLINE) ->
  is_dash d2 = true ->
  aside_inner (inner ++ d2 :: post) = Some (length inner).
Proof.
  intros Hin Hd2. induction inner as [|c inner IH]; cbn [app aside_inner].
  - now rewrite Hd2.
  - destruct (Hin c (or_introl eq_refl)) as [Hc Hnl]. rewrite Hc.
    assert (Hclass : char_in c [EN_DASH; EM_DASH; NEWLINE] = false).
    { unfold is_dash, char_in in *. cbn [existsb] in *.
      repeat (apply orb_false_iff in Hc as [? Hc]).
      apply N.eqb_neq in Hnl. now rewrite H0, H1, Hnl. }
    rewrite Hclass. cbn [negb]. rewrite IH; [reflexivity|].
    intros x Hx. apply Hin. now right.
Qed.

(** A newline before the next dash: no match at this opening dash. *)
Lemma aside_inner_newline (inner post : str) :
  (forall c, In c inner -> is_dash c = false) ->
  aside_inner (inner ++ NEWLINE :: post) = None.
Proof.
  intros Hin. induction inner as [|c inner IH]; cbn [app aside_inner].
  - reflexivity.
  - rewrite (Hin c (or_introl eq_refl)).
    rewrite IH by (intros x Hx; apply Hin; now right).
    now destruct (negb _).
Qed.

Lemma re_sub_no_dash_prefix (pre rest : str) (prev : option char) :
  (forall c, In c pre -> is_dash c = false) ->
  flat_map (token_text replace_aside) (scan match_aside prev 0 (pre ++ rest))
  = pre ++ flat_map (token_text replace_aside) (scan match_aside None 0 rest).
Proof.
  intros Hpre. revert prev. induction pre as [|c pre IH]; intros prev.
  - cbn [app]. f_equal. apply scan_match_aside_prev.
  - cbn [app scan match_aside].
    rewrite (Hpre c (or_introl eq_refl)). cbn [flat_map token_text app].
    f_equal. apply IH. intros x Hx. apply Hpre. now right.
Qed.

Lemma aside_inner_none (s : str) :
  (forall c, In c s -> is_dash c = false) -> aside_inner s = None.
Proof.
  intros Hs. induction s as [|c s IH]; cbn [aside_inner]; [reflexivity|].
  rewrite (Hs c (or_introl eq_refl)).
  rewrite IH by (intros x Hx; apply Hs; now right).
  now destruct (negb _).
Qed.

(** A dash that opens no match is kept, and the pass goes on after it. *)
Lemma re_sub_aside_kept (d1 : char) (rest : str) :
  is_dash d1 = true -> aside_inner rest = None ->
  re_sub match_aside replace_aside (d1 :: rest)
  = d1 :: re_sub match_aside replace_aside rest.
Proof.
  intros Hd1 Hnone. unfold re_sub, tokens. cbn [scan match_aside].
  rewrite Hd1, Hnone. cbn [option_map flat_map token_text app].
  f_equal. f_equal. apply scan_match_aside_prev.
Qed.

(** A dash whose next dash comes before any newline: the two dashes and
    the run between them are one match, and the pass goes on after the
    closing dash. *)
Lemma re_sub_aside_span (inner post : str) (d1 d2 : char) :
  is_dash d1 = true ->
  (forall c, In c inner -> is_dash c = false /\ c <> NEWLINE) ->
  is_dash d2 = true ->
  re_sub match_aside replace_aside (d1 :: inner ++ d2 :: post)
  = (if char_in SPACE (strip inner)
     then lit ", " ++ strip inner ++ lit ", "
     else d1 :: inner ++ [d2])
    ++ re_sub match_aside replace_aside post.
Proof.
  intros Hd1 Hin Hd2. unfold re_sub, tokens.
  cbn [scan match_aside]. rewrite Hd1.
  rewrite (aside_inner_found inner post d2 Hin Hd2). cbn [option_map].
  replace (length inner + 2) with (S (length (inner ++ [d2])))
    by (rewrite length_app; simpl; lia).
  cbn [flat_map token_text].
  replace (inner ++ d2 :: post) with ((inner ++ [d2]) ++ post)
    by (now rewrite <- app_assoc).
  cbn [firstn]. rewrite firstn_app, firstn_all, Nat.sub_diag.
  cbn [firstn]. rewrite app_nil_r.
  destruct (scan_skip_app match_aside (inner ++ [d2]) post (Some d1))
    as [prev' ->].
  rewrite (scan_match_aside_prev post prev' None 0).
  f_equal. unfold replace_aside. cbn [tl]. rewrite removelast_last.
  reflexivity.
Qed.

(** What follows a dash: no further dash, or a newline before the next
    dash, or a next dash with no newline before it. *)
Lemma after_dash_cases (s : str) :
  (forall c, In c s -> is_dash c = false)
  \/ (exists inner post,
        s = inner ++ NEWLINE :: post
        /\ forall c, In c inner -> is_dash c = false)
  \/ (exists inner d2 post,
        s = inner ++ d2 :: post
        /\ (forall c, In c inner -> is_dash c = false)
        /\ ~ In NEWLINE inner
        /\ is_dash d2 = true).
Proof.
  induction s as [|c s IH]; [left; intros c []|].
  destruct (is_dash c) eqn:Ec.
  { right. right. exists [], c, s. repeat split; auto.
    intros x []. }
  destruct (N.eq_dec c NEWLINE) as [->|Hc].
  { right. left. exists [], s. split; [reflexivity|intros x []]. }
  destruct IH as [H|[(inner & post & -> & H)
                    |(inner & d2 & post & -> & H & Hnl & Hd2)]].
  - left. intros x [<-|Hx]; [exact Ec|now apply H].
  - right. left. exists (c :: inner), post. split; [reflexivity|].
    intros x [<-|Hx]; [exact Ec|now apply H].
  - right. right. exists (c :: inner), d2, post.
    split; [reflexivity|]. split; [|split; [|exact Hd2]].
    + intros x [<-|Hx]; [exact Ec|now apply H].
    + intros [E|Hx]; [now apply Hc|now apply Hnl].
Qed.

(** C7, amended.  The bracketed-aside pass, read from left to right; at
    each place it is in one of four cases, [pre] and [inner] being runs
    without a dash, [d1] and [d2] dashes of any kind.
    - Characters before the next dash are kept, and the pass goes on
      at that dash.
    - At a dash [d1] whose next dash [d2] comes before any newline, the
      span [d1 inner d2] is replaced by [", " + inner.strip() + ", "]
      exactly when the trimmed [inner] holds a space, and is kept as it
      is otherwise; either way the pass goes on after [d2], so that
      [d2] opens no span of its own.
    - At a dash [d1] with a newline before the next dash, [d1] opens no
      span: it is kept with all the text up to the newline, and the
      pass goes on after the newline.
    - At a dash [d1] with no dash after it, the rest of the text is
      kept.
    Every text after a dash is in one of the last three cases
    ([after_dash_cases]).
    The text ["associated-though possibly inaccurately-with the data"]
    is normalized to
    ["associated, though possibly inaccurately, with the data"]. *)
Theorem replace_aside_pass (pre inner post : str) (d1 d2 : char) :
  (forall c, In c pre -> is_dash c = false) ->
  (forall c, In c inner -> is_dash c = false) ->
  is_dash d1 = true ->
  is_dash d2 = true ->
  (forall rest,
     re_sub match_aside replace_aside (pre ++ rest)
     = pre ++ re_sub match_aside replace_aside rest)
  /\ (~ In NEWLINE inner ->
      re_sub match_aside replace_aside (d1 :: inner ++ d2 :: post)
      = (if char_in SPACE (strip inner)
         then lit ", " ++ strip inner ++ lit ", "
         else d1 :: inner ++ [d2])
        ++ re_sub match_aside replace_aside post)
  /\ re_sub match_aside replace_aside (d1 :: inner ++ NEWLINE :: post)
     = d1 :: inner ++ NEWLINE :: re_sub match_aside replace_aside post
  /\ re_sub match_aside replace_aside (d1 :: inner) = d1 :: inner
  /\ normalize_for_tts
       (lit "associated-though possibly inaccurately-with the data")
     = lit "associated, though possibly inaccurately, with the data".
Proof.
  intros Hpre Hin Hd1 Hd2.
  assert (Hkeep : forall a rest,
             (forall c, In c a -> is_dash c = false) ->
             re_sub match_aside replace_aside (a ++ rest)
             = a ++ re_sub match_aside replace_aside rest).
  { intros a rest Ha. unfold re_sub, tokens.
    now apply re_sub_no_dash_prefix. }
  split; [intros rest; now apply Hkeep|].
  split; [|split; [|split; [|reflexivity]]].
  - intros Hnl. apply re_sub_aside_span; try assumption.
    intros c Hc. split; [now apply Hin|]. intros ->. contradiction.
  - rewrite re_sub_aside_kept;
      [|exact Hd1|now apply aside_inner_newline].
    f_equal.
    change (inner ++ NEWLINE :: post) with (inner ++ [NEWLINE] ++ post).
    rewrite app_assoc, Hkeep.
    + now rewrite <- app_assoc.
    + intros c Hc. apply in_app_or in Hc as [Hc|[<-|[]]];
        [now apply Hin|reflexivity].
  - rewrite re_sub_aside_kept; [|exact Hd1|now apply aside_inner_none].
    f_equal. rewrite <- (app_nil_r inner) at 1.
    rewrite (Hkeep inner [] Hin). apply app_nil_r.
Qed.

Lemma replace_aside_pass_witness :
  re_sub match_aside replace_aside (lit "a-b c-d e-f") = lit "a, b c, d e-f".
Proof.
  assert (Hpre : forall c, In c (lit "a") -> is_dash c = false).
  { intros c Hc. simpl in Hc.
    repeat (destruct Hc as [<-|Hc]; [reflexivity|]). contradiction. }
  assert (Hin : forall c, In c (lit "b c") -> is_dash c = false).
  { intros c Hc. simpl in Hc.
    repeat (destruct Hc as [<-|Hc]; [reflexivity|]). contradiction. }
  assert (Hnl : ~ In NEWLINE (lit "b c")).
  { intros Hc. simpl in Hc.
    repeat (destruct Hc as [Hc|Hc]; [discriminate|]). contradiction. }
  destruct (replace_aside_pass (lit "a") (lit "b c") (lit "d e-f")
              HYPHEN HYPHEN Hpre Hin eq_refl eq_refl)
    as (Ekeep & Espan & _).
  transitivity
    (lit "a"
     ++ re_sub match_aside replace_aside
          (HYPHEN :: lit "b c" ++ HYPHEN :: lit "d e-f"));
    [exact (Ekeep _)|].
  rewrite (Espan Hnl). reflexivity.
Defined.

(** C7 as worded fails in two ways.  On a run that holds a newline: the
    enclosed span ["a b\n"] has no dash and its trim ["a b"] holds a
    space, and the pass leaves the text as it is; [normalize_for_tts]
    then makes a hyphen of the first dash and a comma of the second
    only.  On a span whose opening dash has closed the span before it:
    in ["a-b-c d-e"] the span ["-c d-"] is a dash, a run without dash
    that holds a space, and a dash, and the pass leaves the text as it
    is, the span ["-b-"] having taken the dash. *)
Lemma replace_aside_skips_newline :
  let inner := lit "a b" ++ [NEWLINE] in
  (Forall (fun c => is_dash c = false) inner
   /\ char_in SPACE (strip inner) = true
   /\ re_sub match_aside replace_aside (lit "x-" ++ inner ++ lit "-y")
      = lit "x-" ++ inner ++ lit "-y"
   /\ re_sub match_aside replace_aside (lit "x-" ++ inner ++ lit "-y")
      <> lit "x" ++ (lit ", " ++ strip inner ++ lit ", ") ++ lit "y"
   /\ normalize_for_tts (lit "x-" ++ inner ++ lit "-y") = lit "x-a b, y")
  /\ (Forall (fun c => is_dash c = false /\ c <> NEWLINE) (lit "c d")
      /\ char_in SPACE (strip (lit "c d")) = true
      /\ re_sub match_aside replace_aside
           (lit "a-b" ++ HYPHEN :: lit "c d" ++ HYPHEN :: lit "e")
         = lit "a-b-c d-e"
      /\ re_sub match_aside replace_aside
           (lit "a-b" ++ HYPHEN :: lit "c d" ++ HYPHEN :: lit "e")
         <> lit "a-b" ++ (lit ", " ++ lit "c d" ++ lit ", ") ++ lit "e").
Proof.
  cbv zeta. split.
  - split; [repeat constructor|]. split; [reflexivity|].
    split; [reflexivity|]. split; [vm_compute; discriminate|reflexivity].
  - split; [repeat constructor; discriminate|]. split; [reflexivity|].
    split; [reflexivity|vm_compute; discriminate].
Qed.

(** ** Normalization, pass 3: the remaining dashes *)

Lemma last_cons_default (x : char) (a : str) (d d' : char) :
  last (x :: a) d = last (x :: a) d'.
Proof.
  revert x. induction a as [|y a IH]; intros x; [reflexivity|].
  change (last (y :: a) d = last (y :: a) d'). apply IH.
Qed.

Section DashPass.
Context {db : UnicodeDB}.

Lemma dash_loop_app (eot prev : char) (a b : str) (chars : list char) :
  dash_loop eot prev (a ++ b) chars
  = dash_loop eot (last a prev) b (dash_loop (hd eot b) prev a chars).
Proof.
  revert prev chars. induction a as [|c a IH]; intros prev chars;
    [reflexivity|].
  cbn [app dash_loop]. rewrite IH.
  replace (hd eot (a ++ b)) with (hd (hd eot b) a) by (now destruct a).
  replace (last (c :: a) prev) with (last a c); [reflexivity|].
  destruct a as [|x a]; [reflexivity|].
  change (last (c :: x :: a) prev) with (last (x :: a) prev).
  apply last_cons_default.
Qed.

Lemma dash_step_keeps (prev ch nxt c : char) (top chars : list char) :
  c <> SPACE ->
  exists top', dash_step prev ch nxt (top ++ c :: chars) = top' ++ c :: chars.
Proof.
  intros Hc. unfold dash_step.
  destruct (is_dash ch); [|now exists (ch :: top)].
  destruct (isalnum prev && isalnum nxt); [now exists (HYPHEN :: top)|].
  destruct top as [|t top]; cbn [app].
  - destruct (N.eqb_spec c SPACE); [contradiction|].
    destruct (c =? COMMA)%N.
    + destruct (negb (nxt =? SPACE)%N); [now exists [SPACE]|now exists []].
    + now exists [SPACE; COMMA].
  - destruct (t =? SPACE)%N; [now exists (SPACE :: COMMA :: top)|].
    destruct (t =? COMMA)%N.
    + destruct (negb (nxt =? SPACE)%N);
        [now exists (SPACE :: t :: top)|now exists (t :: top)].
    + now exists (SPACE :: COMMA :: t :: top).
Qed.

Lemma dash_loop_keeps (eot c : char) (rest : str) :
  c <> SPACE ->
  forall prev top chars,
  exists top',
    dash_loop eot prev rest (top ++ c :: chars) = top' ++ c :: chars.
Proof.
  intros Hc. induction rest as [|ch rest IH]; intros prev top chars.
  - now exists top.
  - cbn [dash_loop].
    destruct (dash_step_keeps prev ch (hd eot rest) c top chars Hc)
      as [top' ->].
    apply IH.
Qed.

Lemma alnum_not_SPACE (c : char) : isalnum c = true -> c <> SPACE.
Proof. intros H ->. apply isalnum_space in H. discriminate. Qed.

End DashPass.



(** ** Repeated normalization *)

(** *** Neighbours *)

Lemma adjacent_cons (P : char -> char -> Prop) (x y : char) (l : str) :
  adjacent P (x :: y :: l) <-> P x y /\ adjacent P (y :: l).
Proof. reflexivity. Qed.

Lemma adjacent_tail (P : char -> char -> Prop) (x : char) (l : str) :
  adjacent P (x :: l) -> adjacent P l.
Proof. destruct l; [trivial|]. now intros [_ H]. Qed.

Lemma adjacent_snoc (P : char -> char -> Prop) (l : str) (x y : char) :
  adjacent P (l ++ [x]) -> P x y -> adjacent P (l ++ [x; y]).
Proof.
  induction l as [|a l IH]; intros Hl Hxy.
  - simpl. auto.
  - destruct l as [|b l].
    + simpl in *. tauto.
    + cbn [app] in *. apply adjacent_cons in Hl as [Hab Hl].
      apply adjacent_cons. split; [assumption|]. now apply IH.
Qed.

Lemma adjacent_rev (P : char -> char -> Prop) (l : str) :
  (forall x y, P x y -> P y x) -> adjacent P l -> adjacent P (rev l).
Proof.
  intros Hsym. induction l as [|x l IH]; intros Hl; [exact I|].
  destruct l as [|y l]; [exact I|].
  apply adjacent_cons in Hl as [Hxy Hl]. specialize (IH Hl).
  cbn [rev] in *. rewrite <- app_assoc. cbn [app].
  apply adjacent_snoc; [assumption|]. now apply Hsym.
Qed.

(** *** Content and double commas *)

Lemma isspace_COMMA : isspace COMMA = false.
Proof. reflexivity. Qed.

Lemma is_dash_not_space (d : char) : is_dash d = true -> isspace d = false.
Proof.
  unfold is_dash, char_in. cbn [existsb]. intros H.
  repeat (apply orb_true_iff in H as [H|H];
          [apply N.eqb_eq in H; subst; reflexivity|]).
  discriminate.
Qed.

Lemma drop_ws_blank (ws : str) :
  Forall (fun c => isspace c = true) ws -> drop_ws ws = [].
Proof.
  induction 1 as [|c ws Hc _ IH]; [reflexivity|].
  simpl. now rewrite Hc.
Qed.

Lemma double_comma_content (t : str) :
  double_comma t -> ~ adjacent not_both_commas (drop_ws t).
Proof.
  intros (a & ws & b & -> & Hws) Hadj.
  rewrite drop_ws_app in Hadj. cbn [drop_ws filter] in Hadj.
  rewrite isspace_COMMA in Hadj. cbn [negb] in Hadj.
  fold (drop_ws (ws ++ COMMA :: b)) in Hadj.
  rewrite drop_ws_app, (drop_ws_blank ws Hws) in Hadj.
  cbn [app drop_ws filter] in Hadj. rewrite isspace_COMMA in Hadj.
  cbn [negb] in Hadj.
  induction (drop_ws a) as [|x l IH].
  - destruct Hadj as [H _]. apply H. split; reflexivity.
  - apply IH. eapply adjacent_tail. exact Hadj.
Qed.

Lemma content_double_comma (t : str) :
  ~ adjacent not_both_commas (drop_ws t) -> double_comma t.
Proof.
  (* the first comma of a pair, then the whitespace up to the second *)
  assert (Hrun : forall t,
             (exists ws b, t = ws ++ COMMA :: b
                           /\ Forall (fun c => isspace c = true) ws)
             \/ (forall x l, drop_ws t = x :: l -> x <> COMMA)).
  { induction t0 as [|c t0 IH].
    - right. discriminate.
    - destruct (N.eqb_spec c COMMA) as [->|Hc].
      + left. exists [], t0. split; [reflexivity|constructor].
      + destruct (isspace c) eqn:Es.
        * destruct IH as [(ws & b & -> & Hws)|IH].
          -- left. exists (c :: ws), b. split; [reflexivity|].
             now constructor.
          -- right. intros x l. simpl. rewrite Es. apply IH.
        * right. intros x l. simpl. rewrite Es. cbn [negb].
          intros [= <- _]. exact Hc. }
  induction t as [|c t IH]; intros Hno.
  - exfalso. apply Hno. exact I.
  - destruct (isspace c) eqn:Es.
    + destruct IH as (a & ws & b & -> & Hws).
      * intros H. apply Hno. simpl. now rewrite Es.
      * exists (c :: a), ws, b. split; [reflexivity|assumption].
    + destruct (N.eqb_spec c COMMA) as [->|Hc].
      * destruct (Hrun t) as [(ws & b & -> & Hws)|Hfirst].
        -- exists [], ws, b. split; [reflexivity|assumption].
        -- destruct IH as (a & ws & b & -> & Hws).
           ++ intros H. apply Hno. simpl.
              destruct (drop_ws t) as [|x l] eqn:E; [exact I|].
              split; [|exact H].
              intros [_ Hx]. now apply (Hfirst x l).
           ++ exists (COMMA :: a), ws, b. split; [reflexivity|assumption].
      * destruct IH as (a & ws & b & -> & Hws).
        -- intros H. apply Hno. simpl. rewrite Es. cbn [negb].
           destruct (drop_ws t) as [|x l] eqn:E; [exact I|].
           split; [|exact H]. intros [Hx _]. contradiction.
        -- exists (c :: a), ws, b. split; [reflexivity|assumption].
Qed.

(** *** Rewriting of dashes *)

Lemma dash_rewrite_refl (w : str) : dash_rewrite w w.
Proof. induction w; constructor; assumption. Qed.

Lemma dash_rewrite_app (a a' b b' : str) :
  dash_rewrite a a' -> dash_rewrite b b' -> dash_rewrite (a ++ b) (a' ++ b').
Proof.
  induction 1; intros Hb; cbn [app]; try (constructor; auto; fail).
  - exact Hb.
Qed.

Lemma dash_rewrite_trans (a b c : str) :
  dash_rewrite a b -> dash_rewrite b c -> dash_rewrite a c.
Proof.
  intros Hab. revert c. induction Hab; intros c0 Hbc.
  - exact Hbc.
  - inversion Hbc; subst; constructor; auto.
  - inversion Hbc; subst.
    + apply rewrite_comma; auto.
    + discriminate.
    + discriminate.
    + discriminate.
  - inversion Hbc; subst.
    + apply rewrite_hyphen; auto.
    + apply rewrite_comma; auto.
    + apply rewrite_hyphen; auto.
    + apply rewrite_gone; auto.
  - apply rewrite_gone; auto.
Qed.

Section Renormalize.
Context {db : UnicodeDB}.

Lemma isalnum_SPACE : isalnum SPACE = false.
Proof.
  destruct (isalnum SPACE) eqn:E; [|reflexivity].
  apply isalnum_space in E. discriminate.
Qed.

Lemma dash_not_alnum (d : char) : is_dash d = true -> isalnum d = false.
Proof.
  intros Hd. destruct (isalnum d) eqn:E; [|reflexivity].
  apply isalnum_dash in E. congruence.
Qed.

Lemma dash_between_alnum_sym (x y : char) :
  dash_between_alnum x y -> dash_between_alnum y x.
Proof. intros [H1 H2]. split; assumption. Qed.

(** Rewriting dashes that stand between alphanumeric characters makes no
    double comma. *)
Lemma dash_rewrite_after (w w' : str) :
  dash_rewrite w w' ->
  forall p p',
    adjacent dash_between_alnum (p :: w) ->
    adjacent not_both_commas (p :: w) ->
    (p' = COMMA -> p = COMMA \/ is_dash p = true) ->
    adjacent not_both_commas (p' :: w').
Proof.
  induction 1 as [|c w w' _ IH|d w w' Hd _ IH|d w w' Hd _ IH|d w w' Hd _ IH];
    intros p p' Hflank Hno Hp.
  - exact I.
  - apply adjacent_cons in Hflank as [[Hpc Hcp] Hflank].
    apply adjacent_cons in Hno as [Hpn Hno].
    apply adjacent_cons. split.
    + intros [-> ->]. destruct (Hp eq_refl) as [->|Hdash].
      * apply Hpn. split; reflexivity.
      * specialize (Hpc Hdash). rewrite isalnum_comma in Hpc. discriminate.
    + apply (IH c c); auto.
  - apply adjacent_cons in Hflank as [[Hpd Hdp] Hflank].
    apply adjacent_cons in Hno as [_ Hno].
    apply adjacent_cons. split.
    + intros [-> _]. destruct (Hp eq_refl) as [->|Hdash].
      * specialize (Hdp Hd). rewrite isalnum_comma in Hdp. discriminate.
      * specialize (Hpd Hdash). rewrite (dash_not_alnum d Hd) in Hpd.
        discriminate.
    + apply (IH d COMMA); auto.
  - apply adjacent_cons in Hflank as [_ Hflank].
    apply adjacent_cons in Hno as [_ Hno].
    apply adjacent_cons. split.
    + intros [_ [=]].
    + apply (IH d HYPHEN); auto; discriminate.
  - apply adjacent_cons in Hflank as [_ Hflank].
    apply adjacent_cons in Hno as [_ Hno].
    apply (IH d p'); auto.
Qed.

Lemma dash_rewrite_no_double_comma (w w' : str) :
  dash_rewrite w w' ->
  adjacent dash_between_alnum w ->
  adjacent not_both_commas w ->
  adjacent not_both_commas w'.
Proof.
  induction 1 as [|c w w' H _|d w w' Hd H _|d w w' Hd H _|d w w' Hd H IH];
    intros Hflank Hno.
  - exact I.
  - apply (dash_rewrite_after w w' H c c); auto.
  - apply (dash_rewrite_after w w' H d COMMA); auto.
  - apply (dash_rewrite_after w w' H d HYPHEN); auto; discriminate.
  - apply IH; eapply adjacent_tail; eassumption.
Qed.

(** Dropping whitespace keeps the dashes between alphanumeric
    characters. *)
Lemma drop_ws_head_after_space (z : char) (l : str) :
  adjacent dash_between_alnum (z :: l) -> isspace z = true ->
  forall y r, drop_ws l = y :: r -> is_dash y = false.
Proof.
  revert z. induction l as [|a l IH]; intros z Hadj Hz y r Hy;
    [discriminate|].
  apply adjacent_cons in Hadj as [[_ Haz] Hadj].
  simpl in Hy. destruct (isspace a) eqn:Ea; cbn [negb] in Hy.
  - exact (IH a Hadj Ea y r Hy).
  - inversion Hy; subst. destruct (is_dash y) eqn:Ed; [|reflexivity].
    specialize (Haz eq_refl). apply isalnum_space in Haz. congruence.
Qed.

Lemma drop_ws_flanked (l : str) :
  adjacent dash_between_alnum l -> adjacent dash_between_alnum (drop_ws l).
Proof.
  induction l as [|x l IH]; intros Hadj; [exact I|].
  specialize (IH (adjacent_tail _ _ _ Hadj)).
  simpl. destruct (isspace x) eqn:Ex; cbn [negb]; [exact IH|].
  destruct (drop_ws l) as [|y r] eqn:E; [exact I|].
  split; [|exact IH].
  destruct l as [|a l]; [discriminate|].
  apply adjacent_cons in Hadj as [[Hxa Hax] Hadj].
  simpl in E. destruct (isspace a) eqn:Ea; cbn [negb] in E.
  - pose proof (drop_ws_head_after_space a l Hadj Ea y r E) as Hy.
    split.
    + intros Hx. apply Hxa, isalnum_space in Hx. congruence.
    + intros Hy'. congruence.
  - inversion E; subst. split; assumption.
Qed.

(** *** The pass over the remaining dashes *)

Lemma plain_pair (x y : char) :
  is_dash x = false -> is_dash y = false -> dash_between_alnum x y.
Proof. intros Hx Hy. split; intros H; congruence. Qed.

Lemma dash_step_invariant (prev ch nxt : char) (chars : list char) :
  buffer_invariant prev ch chars ->
  buffer_invariant ch nxt (dash_step prev ch nxt chars).
Proof.
  intros (Hprev & Hadj & Htop). unfold dash_step.
  destruct (is_dash ch) eqn:Hch.
  - assert (Hnodash : forall c chars', chars = c :: chars' ->
                                        is_dash c = false).
    { intros c chars' E. destruct (is_dash c) eqn:Ec; [|reflexivity].
      rewrite (dash_not_alnum ch Hch) in Htop.
      now specialize (Htop c chars' E Ec). }
    assert (Hk : isalnum ch = true -> forall l, exists chars', l = ch :: chars').
    { intros H. rewrite (dash_not_alnum ch Hch) in H. discriminate. }
    destruct (isalnum prev && isalnum nxt) eqn:Hflank.
    + apply andb_true_iff in Hflank as [Hp Hn].
      destruct (Hprev Hp) as [chars' ->].
      split; [intros H; now apply Hk|]. split.
      * apply adjacent_cons. split; [|assumption]. split.
        -- intros _. exact Hp.
        -- intros H. apply isalnum_dash in Hp. congruence.
      * intros c l [= <- <-] _. exact Hn.
    + split; [intros H; now apply Hk|].
      destruct chars as [|c chars'].
      * split; [|intros c l [= <- <-]; discriminate].
        simpl. split; [now apply plain_pair|exact I].
      * pose proof (Hnodash c chars' eq_refl) as Hc.
        destruct (N.eqb_spec c SPACE) as [->|Hsp].
        -- split; [|intros c l [= <- <-]; discriminate].
           apply adjacent_cons. split; [now apply plain_pair|].
           destruct chars' as [|b chars'']; [exact I|].
           apply adjacent_cons in Hadj as [[_ Hb] Hadj].
           apply adjacent_cons. split; [|assumption].
           apply plain_pair; [reflexivity|].
           destruct (is_dash b) eqn:Eb; [|reflexivity].
           specialize (Hb eq_refl). rewrite isalnum_SPACE in Hb. discriminate.
        -- destruct (N.eqb_spec c COMMA) as [->|Hcm].
           ++ destruct (negb (nxt =? SPACE)%N).
              ** split; [|intros c l [= <- <-]; discriminate].
                 apply adjacent_cons. split; [now apply plain_pair|assumption].
              ** split; [assumption|]. intros c l [= <- <-]. discriminate.
           ++ split; [|intros c0 l [= <- <-]; discriminate].
              apply adjacent_cons. split; [now apply plain_pair|].
              apply adjacent_cons. split; [|assumption].
              now apply plain_pair.
  - split; [intros _; eauto|]. split.
    + destruct chars as [|c chars']; [exact I|].
      apply adjacent_cons. split; [|assumption]. split.
      * intros H. congruence.
      * intros H. exact (Htop c chars' eq_refl H).
    + intros c l [= <- <-] H. congruence.
Qed.

Lemma dash_loop_invariant (eot : char) (rest : str) :
  forall prev chars,
    buffer_invariant prev (hd eot rest) chars ->
    adjacent dash_between_alnum (dash_loop eot prev rest chars).
Proof.
  induction rest as [|ch rest IH]; intros prev chars Hinv.
  - apply Hinv.
  - cbn [dash_loop]. apply IH. now apply dash_step_invariant.
Qed.

Lemma replace_dashes_flanked (text : str) :
  adjacent dash_between_alnum (replace_dashes text).
Proof.
  unfold replace_dashes.
  apply adjacent_rev; [exact dash_between_alnum_sym|].
  apply dash_loop_invariant. split; [|split].
  - rewrite isalnum_SPACE. discriminate.
  - exact I.
  - discriminate.
Qed.

Lemma drop_ws_snoc_space (l : str) : drop_ws (l ++ [SPACE]) = drop_ws l.
Proof. rewrite drop_ws_app. simpl. apply app_nil_r. Qed.

Lemma drop_ws_snoc (l : str) (c : char) :
  isspace c = false -> drop_ws (l ++ [c]) = drop_ws l ++ [c].
Proof. intros H. rewrite drop_ws_app. simpl. now rewrite H. Qed.

Lemma dash_step_rewrite (prev ch nxt : char) (chars : list char) :
  exists e,
    drop_ws (rev (dash_step prev ch nxt chars)) = drop_ws (rev chars) ++ e
    /\ dash_rewrite (drop_ws [ch]) e.
Proof.
  unfold dash_step. destruct (is_dash ch) eqn:Hch.
  - assert (Hw : drop_ws [ch] = [ch])
      by (simpl; now rewrite (is_dash_not_space ch Hch)).
    rewrite Hw.
    assert (Hcomma : forall l, drop_ws (rev (SPACE :: COMMA :: l))
                               = drop_ws (rev l) ++ [COMMA]).
    { intros l. cbn [rev]. rewrite drop_ws_snoc_space.
      now apply drop_ws_snoc. }
    destruct (isalnum prev && isalnum nxt).
    + exists [HYPHEN]. split.
      * cbn [rev]. now apply drop_ws_snoc.
      * apply rewrite_hyphen; [assumption|constructor].
    + destruct chars as [|c chars'].
      * exists [COMMA]. split; [reflexivity|].
        apply rewrite_comma; [assumption|constructor].
      * destruct (N.eqb_spec c SPACE) as [->|Hsp].
        -- exists [COMMA]. split.
           ++ rewrite Hcomma. cbn [rev]. now rewrite drop_ws_snoc_space.
           ++ apply rewrite_comma; [assumption|constructor].
        -- destruct (c =? COMMA)%N.
           ++ exists []. split.
              ** rewrite app_nil_r. destruct (negb (nxt =? SPACE)%N);
                   [|reflexivity].
                 cbn [rev]. now rewrite drop_ws_snoc_space.
              ** apply rewrite_gone; [assumption|constructor].
           ++ exists [COMMA]. split; [apply Hcomma|].
              apply rewrite_comma; [assumption|constructor].
  - exists (drop_ws [ch]). split.
    + cbn [rev]. now rewrite drop_ws_app.
    + apply dash_rewrite_refl.
Qed.

Lemma dash_loop_rewrite (eot : char) (rest : str) :
  forall prev chars,
  exists e,
    drop_ws (rev (dash_loop eot prev rest chars)) = drop_ws (rev chars) ++ e
    /\ dash_rewrite (drop_ws rest) e.
Proof.
  induction rest as [|ch rest IH]; intros prev chars.
  - exists []. split; [now rewrite app_nil_r|constructor].
  - cbn [dash_loop].
    destruct (dash_step_rewrite prev ch (hd eot rest) chars) as (e1 & H1 & R1).
    destruct (IH ch (dash_step prev ch (hd eot rest) chars)) as (e2 & H2 & R2).
    exists (e1 ++ e2). split.
    + now rewrite H2, H1, app_assoc.
    + change (ch :: rest) with ([ch] ++ rest). rewrite drop_ws_app.
      now apply dash_rewrite_app.
Qed.

Lemma replace_dashes_rewrite (text : str) :
  dash_rewrite (drop_ws text) (drop_ws (replace_dashes text)).
Proof.
  unfold replace_dashes.
  destruct (dash_loop_rewrite SPACE text SPACE []) as (e & -> & H).
  exact H.
Qed.
End Renormalize.

(** *** The passes that substitute *)

Lemma re_sub_rewrite (matcher : option char -> str -> option nat)
  (repl : str -> str) (text : str) :
  (forall prev rest k,
     matcher prev rest = Some (S k) ->
     dash_rewrite (drop_ws (firstn (S k) rest))
       (drop_ws (repl (firstn (S k) rest)))) ->
  dash_rewrite (drop_ws text) (drop_ws (re_sub matcher repl text)).
Proof.
  intros Hm. unfold re_sub.
  rewrite <- (tokens_text matcher text) at 1.
  pose proof (scan_hits matcher
                (fun m => dash_rewrite (drop_ws m) (drop_ws (repl m)))
                Hm text None 0) as Hall.
  fold (tokens matcher text) in Hall.
  induction Hall as [|t ts Ht _ IH]; [constructor|].
  cbn [flat_map]. rewrite !drop_ws_app.
  apply dash_rewrite_app; [|exact IH].
  destruct t; [apply dash_rewrite_refl|exact Ht].
Qed.

Lemma re_sub_content (matcher : option char -> str -> option nat)
  (repl : str -> str) (text : str) :
  (forall prev rest k,
     matcher prev rest = Some (S k) ->
     drop_ws (repl (firstn (S k) rest)) = drop_ws (firstn (S k) rest)) ->
  drop_ws (re_sub matcher repl text) = drop_ws text.
Proof.
  intros Hm. unfold re_sub.
  rewrite <- (tokens_text matcher text) at 2.
  apply token_text_same.
  eapply Forall_impl;
    [|apply (scan_hits matcher
               (fun m => drop_ws (repl m) = drop_ws m) Hm)].
  intros [c|m]; simpl; trivial.
Qed.

Lemma aside_inner_shape (s : str) (j : nat) :
  aside_inner s = Some j ->
  exists inner d2 post,
    s = inner ++ d2 :: post /\ length inner = j /\ is_dash d2 = true.
Proof.
  revert j. induction s as [|c s IH]; intros j H; cbn [aside_inner] in H;
    [discriminate|].
  destruct (is_dash c) eqn:Ec.
  - inversion H; subst. exists [], c, s. auto.
  - destruct (negb (char_in c [EN_DASH; EM_DASH; NEWLINE])); [|discriminate].
    destruct (aside_inner s) as [k|]; [|discriminate].
    inversion H; subst.
    destruct (IH k eq_refl) as (inner & d2 & post & -> & <- & Hd).
    exists (c :: inner), d2, post. auto.
Qed.

Lemma firstn_app_exact (a b : str) (n : nat) :
  firstn (length a + n) (a ++ b) = a ++ firstn n b.
Proof. induction a as [|x a IH]; simpl; [reflexivity|]. now rewrite IH. Qed.

Lemma firstn_app_length (a b : str) : firstn (length a) (a ++ b) = a.
Proof.
  pose proof (firstn_app_exact a b 0) as H.
  rewrite Nat.add_0_r in H. rewrite H. apply app_nil_r.
Qed.

Lemma drop_ws_dash_cons (d : char) (l : str) :
  is_dash d = true -> drop_ws (d :: l) = d :: drop_ws l.
Proof. intros H. simpl. now rewrite (is_dash_not_space d H). Qed.

Lemma match_aside_rewrite (prev : option char) (rest : str) (k : nat) :
  match_aside prev rest = Some (S k) ->
  dash_rewrite (drop_ws (firstn (S k) rest))
    (drop_ws (replace_aside (firstn (S k) rest))).
Proof.
  unfold match_aside. destruct rest as [|d1 s]; [discriminate|].
  destruct (is_dash d1) eqn:Hd1; [|discriminate].
  destruct (aside_inner s) as [j|] eqn:E; [|discriminate].
  cbn [option_map]. intros [= Hk].
  destruct (aside_inner_shape s j E) as (inner & d2 & post & -> & <- & Hd2).
  replace k with (length inner + 1) by lia.
  cbn [firstn]. rewrite firstn_app_exact. cbn [firstn].
  unfold replace_aside. cbn [tl]. rewrite removelast_last.
  destruct (char_in SPACE (strip inner)); [|apply dash_rewrite_refl].
  rewrite drop_ws_dash_cons by assumption.
  rewrite !drop_ws_app, drop_ws_strip.
  change (drop_ws (lit ", ")) with [COMMA]. cbn [app].
  apply rewrite_comma; [assumption|].
  apply dash_rewrite_app; [apply dash_rewrite_refl|].
  rewrite drop_ws_dash_cons by assumption.
  apply rewrite_comma; [assumption|constructor].
Qed.

Lemma letter_run_le (s : str) : letter_run s <= length s.
Proof.
  induction s as [|c s IH]; simpl; [lia|].
  destruct (is_ascii_letter c); simpl; lia.
Qed.

Lemma letter_run_app (left rest : str) (d : char) :
  Forall (fun c => is_ascii_letter c = true) left ->
  is_ascii_letter d = false ->
  letter_run (left ++ d :: rest) = length left.
Proof.
  intros Hl Hd. induction Hl as [|c left Hc _ IH]; simpl.
  - now rewrite Hd.
  - now rewrite Hc, IH.
Qed.

Lemma firstn_letter_run (s : str) :
  Forall (fun c => is_ascii_letter c = true) (firstn (letter_run s) s).
Proof.
  induction s as [|c s IH]; simpl; [constructor|].
  destruct (is_ascii_letter c) eqn:E; simpl; [|constructor].
  now constructor.
Qed.

Lemma is_dash_not_letter (d : char) :
  is_dash d = true -> is_ascii_letter d = false.
Proof.
  unfold is_dash, char_in. cbn [existsb]. intros H.
  repeat (apply orb_true_iff in H as [H|H];
          [apply N.eqb_eq in H; subst; reflexivity|]).
  discriminate.
Qed.

Section SubstitutionPasses.
Context {db : UnicodeDB}.

Lemma match_word_dash_word_rewrite (prev : option char) (rest : str)
  (k : nat) :
  match_word_dash_word prev rest = Some (S k) ->
  dash_rewrite (drop_ws (firstn (S k) rest))
    (drop_ws (replace_word_dash_discourse (firstn (S k) rest))).
Proof.
  unfold match_word_dash_word.
  destruct (skipn (letter_run rest) rest) as [|d s2] eqn:E; [discriminate|].
  destruct ((0 <? letter_run rest) && is_dash d && (0 <? letter_run s2)
            && word_boundary prev (hd_error rest)
            && word_boundary (nth_error s2 (letter_run s2 - 1))
                 (nth_error s2 (letter_run s2))) eqn:Hc; [|discriminate].
  intros [= Hk].
  repeat (apply andb_true_iff in Hc as [Hc ?]).
  assert (Hd : is_dash d = true) by assumption.
  set (left := firstn (letter_run rest) rest).
  assert (Hlen : length left = letter_run rest).
  { unfold left. rewrite length_firstn. pose proof (letter_run_le rest). lia. }
  assert (Hrest : rest = left ++ d :: s2).
  { unfold left. rewrite <- E. symmetry. apply firstn_skipn. }
  assert (Hm : firstn (S k) rest = left ++ d :: firstn (letter_run s2) s2).
  { rewrite <- Hk. rewrite Hrest at 2. rewrite <- Hlen, <- Nat.add_assoc.
    rewrite firstn_app_exact. reflexivity. }
  rewrite Hm. unfold replace_word_dash_discourse.
  rewrite (letter_run_app left _ d (firstn_letter_run rest)
             (is_dash_not_letter d Hd)).
  rewrite firstn_app_length.
  replace (skipn (length left + 1) (left ++ d :: firstn (letter_run s2) s2))
    with (firstn (letter_run s2) s2).
  2:{ rewrite skipn_app. rewrite skipn_all2 by lia.
      replace (length left + 1 - length left) with 1 by lia. reflexivity. }
  destruct (existsb _ DISCOURSE); [|apply dash_rewrite_refl].
  rewrite !drop_ws_app. apply dash_rewrite_app; [apply dash_rewrite_refl|].
  rewrite drop_ws_dash_cons by assumption.
  change (drop_ws (lit ", ")) with [COMMA]. cbn [app].
  apply rewrite_comma; [assumption|apply dash_rewrite_refl].
Qed.
End SubstitutionPasses.

(** *** Whitespace and commas *)

Lemma firstn_succ_nth (s : str) (n : nat) (c : char) :
  nth_error s n = Some c -> firstn (n + 1) s = firstn n s ++ [c].
Proof.
  revert n. induction s as [|x s IH]; intros [|n] H; simpl in *;
    try discriminate.
  - now inversion H.
  - now rewrite (IH n H).
Qed.

Lemma match_spaces_comma_content (prev : option char) (rest : str) (k : nat) :
  match_spaces_comma prev rest = Some (S k) ->
  drop_ws [COMMA] = drop_ws (firstn (S k) rest).
Proof.
  unfold match_spaces_comma.
  destruct (space_run rest) as [|n] eqn:E; [discriminate|].
  destruct (nth_error rest (S n)) as [c|] eqn:Ec; [|discriminate].
  destruct (N.eqb_spec c COMMA) as [->|]; [|discriminate].
  intros H. assert (Hk : S k = S n + 1) by congruence.
  rewrite Hk, (firstn_succ_nth rest (S n) COMMA Ec).
  rewrite drop_ws_app.
  rewrite (blank_firstn_space_run rest (S n)) by lia. reflexivity.
Qed.

Lemma match_comma_spaces_content (prev : option char) (rest : str) (k : nat) :
  match_comma_spaces prev rest = Some (S k) ->
  drop_ws (lit ", ") = drop_ws (firstn (S k) rest).
Proof.
  unfold match_comma_spaces. destruct rest as [|c s]; [discriminate|].
  destruct (N.eqb_spec c COMMA) as [->|]; [|discriminate].
  intros H. assert (Hk : k = space_run s) by (simpl in H; congruence).
  rewrite Hk. cbn [firstn].
  change (COMMA :: firstn (space_run s) s)
    with ([COMMA] ++ firstn (space_run s) s).
  rewrite drop_ws_app.
  rewrite (blank_firstn_space_run s (space_run s)) by lia. reflexivity.
Qed.

Lemma normalize_spaces_content (text : str) :
  drop_ws (normalize_spaces text) = drop_ws text.
Proof.
  unfold normalize_spaces. rewrite drop_ws_strip.
  rewrite re_sub_content.
  2:{ intros prev rest k H. apply match_spaces_blank in H.
      unfold blank in H. now rewrite H. }
  rewrite re_sub_content by exact match_comma_spaces_content.
  apply re_sub_content. exact match_spaces_comma_content.
Qed.

(** *** Normalizing twice *)

Lemma not_both_commas_dec (w : str) :
  {adjacent not_both_commas w} + {~ adjacent not_both_commas w}.
Proof.
  induction w as [|x w IH]; [left; exact I|].
  destruct w as [|y w]; [left; exact I|].
  destruct IH as [IH|IH].
  - destruct (N.eq_dec x COMMA) as [Hx|Hx];
      [destruct (N.eq_dec y COMMA) as [Hy|Hy]|].
    + right. intros [H _]. apply H. now split.
    + left. split; [|exact IH]. intros [_ H]. contradiction.
    + left. split; [|exact IH]. intros [H _]. contradiction.
  - right. intros [_ H]. contradiction.
Qed.

Lemma no_double_comma_content (t : str) :
  ~ double_comma t <-> adjacent not_both_commas (drop_ws t).
Proof.
  split.
  - intros H. destruct (not_both_commas_dec (drop_ws t)) as [Ha|Ha];
      [exact Ha|].
    exfalso. apply H. now apply content_double_comma.
  - intros H D. now apply (double_comma_content t D).
Qed.

Section Twice.
Context {db : UnicodeDB}.

Lemma normalize_for_tts_rewrite (text : str) :
  dash_rewrite (drop_ws text) (drop_ws (normalize_for_tts text)).
Proof.
  unfold normalize_for_tts. rewrite normalize_spaces_content.
  eapply dash_rewrite_trans; [|apply replace_dashes_rewrite].
  eapply dash_rewrite_trans;
    [|apply re_sub_rewrite; exact match_word_dash_word_rewrite].
  apply re_sub_rewrite. exact match_aside_rewrite.
Qed.

Lemma normalize_for_tts_flanked (text : str) :
  adjacent dash_between_alnum (drop_ws (normalize_for_tts text)).
Proof.
  unfold normalize_for_tts. rewrite normalize_spaces_content.
  apply drop_ws_flanked, replace_dashes_flanked.
Qed.

(** C9, amended.  A second normalization introduces no double comma:
    when the normalized text has no two commas with only whitespace
    between them, neither has the normalization of that text.  (Double
    commas of the first output stay, and a hyphen that the first pass
    kept can still become a comma in the second.) *)
Theorem renormalize_no_new_double_comma (s : str) :
  ~ double_comma (normalize_for_tts s) ->
  ~ double_comma (normalize_for_tts (normalize_for_tts s)).
Proof.
  rewrite !no_double_comma_content. intros H.
  apply (dash_rewrite_no_double_comma (drop_ws (normalize_for_tts s))).
  - apply normalize_for_tts_rewrite.
  - apply normalize_for_tts_flanked.
  - exact H.
Qed.
End Twice.

Lemma renormalize_no_new_double_comma_witness :
  let s := lit "x- a-b c-d" in
  normalize_for_tts s = lit "x, a-b c-d"
  /\ normalize_for_tts (normalize_for_tts s) = lit "x, a, b c, d"
  /\ ~ double_comma (normalize_for_tts s)
  /\ ~ double_comma (normalize_for_tts (normalize_for_tts s)).
Proof.
  cbv zeta. split; [reflexivity|]. split; [reflexivity|].
  assert (H : ~ double_comma (normalize_for_tts (lit "x- a-b c-d"))).
  { apply no_double_comma_content. vm_compute.
    repeat (split; [intros [? ?]; discriminate|]). exact I. }
  split; [exact H|].
  exact (renormalize_no_new_double_comma (lit "x- a-b c-d") H).
Defined.

(** C9 as worded fails: the two commas of ["a,,b"] come out of both
    normalizations with a single space between them; so do a dash and
    a comma that touch, as in ["a-,b"]. *)
Lemma renormalize_keeps_double_comma :
  normalize_for_tts (normalize_for_tts (lit "a,,b")) = lit "a, , b"
  /\ double_comma (normalize_for_tts (normalize_for_tts (lit "a,,b")))
  /\ normalize_for_tts (normalize_for_tts (lit "a-,b")) = lit "a, , b".
Proof.
  split; [reflexivity|]. split; [|reflexivity].
  exists (lit "a"), [SPACE], (lit " b").
  split; [reflexivity|]. repeat constructor.
Qed.

(* ================================================================== *)
(** * Further properties of the program *)

(** ** What normalization does to the characters *)

Lemma In_lstrip (c : char) (s : str) : In c (lstrip s) -> In c s.
Proof.
  induction s as [|x s IH]; simpl; [tauto|].
  destruct (isspace x); simpl; tauto.
Qed.

Lemma In_rstrip (c : char) (s : str) : In c (rstrip s) -> In c s.
Proof.
  unfold rstrip. intros H. apply in_rev in H. apply In_lstrip in H.
  now apply in_rev.
Qed.

Lemma In_firstn (x : char) (n : nat) (l : str) : In x (firstn n l) -> In x l.
Proof.
  revert n. induction l as [|y l IH]; intros [|n]; simpl; try tauto.
  intros [H|H]; [now left|right; eauto].
Qed.

Lemma In_skipn (x : char) (n : nat) (l : str) : In x (skipn n l) -> In x l.
Proof.
  revert n. induction l as [|y l IH]; intros [|n]; simpl; try tauto.
  intros H. right. eauto.
Qed.

Lemma In_strip (c : char) (s : str) : In c (strip s) -> In c s.
Proof. intros H. apply In_rstrip in H. now apply In_lstrip. Qed.

(** The characters of a substitution come from the text or from the
    replacements. *)
Lemma re_sub_In (matcher : option char -> str -> option nat)
  (repl : str -> str) (Q : char -> Prop) (text : str) (c : char) :
  (forall m x, In x (repl m) -> In x m \/ Q x) ->
  In c (re_sub matcher repl text) -> In c text \/ Q c.
Proof.
  intros Hrepl. unfold re_sub.
  rewrite <- (tokens_text matcher text) at 2.
  induction (tokens matcher text) as [|t ts IH]; cbn [flat_map];
    [contradiction|].
  rewrite !in_app_iff. intros [H|H].
  - destruct t as [x|m]; cbn [token_text] in *; [tauto|].
    destruct (Hrepl m c H); tauto.
  - destruct (IH H); tauto.
Qed.

Lemma replace_aside_In (m : str) (x : char) :
  In x (replace_aside m) -> In x m \/ separator x.
Proof.
  unfold replace_aside, separator.
  destruct (char_in SPACE (strip (removelast (tl m)))); [|tauto].
  rewrite !in_app_iff. intros [H|[H|H]].
  - simpl in H. intuition auto.
  - left. apply In_strip in H.
    destruct m as [|d m]; [contradiction|]. right. cbn [tl] in H.
    clear d. induction m as [|y m IH]; [contradiction|].
    cbn [removelast] in H. destruct m; [contradiction|].
    destruct H as [->|H]; [now left|]. right. now apply IH.
  - simpl in H. intuition auto.
Qed.

Lemma replace_word_dash_discourse_In (m : str) (x : char) :
  In x (replace_word_dash_discourse m) -> In x m \/ separator x.
Proof.
  unfold replace_word_dash_discourse, separator.
  destruct (existsb _ DISCOURSE); [|tauto].
  rewrite !in_app_iff. intros [H|[H|H]].
  - left. eapply In_firstn; eassumption.
  - simpl in H. intuition auto.
  - left. eapply In_skipn; eassumption.
Qed.

Section Characters.
Context {db : UnicodeDB}.

Lemma dash_step_In (prev ch nxt : char) (chars : list char) (x : char) :
  In x (dash_step prev ch nxt chars) ->
  In x chars \/ x = HYPHEN \/ separator x \/ (x = ch /\ is_dash ch = false).
Proof.
  unfold dash_step, separator. destruct (is_dash ch).
  - destruct (isalnum prev && isalnum nxt); [simpl; intuition auto|].
    destruct chars as [|c chars']; [simpl; intuition auto|].
    destruct (c =? SPACE)%N; [simpl; intuition auto|].
    destruct (c =? COMMA)%N; [|simpl; intuition auto].
    destruct (negb (nxt =? SPACE)%N); simpl; intuition auto.
  - simpl. intuition auto.
Qed.

Lemma dash_loop_In (eot : char) (rest : str) (x : char) :
  forall prev chars,
    In x (dash_loop eot prev rest chars) ->
    In x chars \/ x = HYPHEN \/ separator x
    \/ (In x rest /\ is_dash x = false).
Proof.
  induction rest as [|ch rest IH]; intros prev chars H; [now left|].
  cbn [dash_loop] in H. apply IH in H.
  destruct H as [H|[H|[H|[H1 H2]]]]; try tauto.
  - apply dash_step_In in H.
    destruct H as [H|[H|[H|[-> H]]]]; try tauto.
    right. right. right. split; [now left|assumption].
  - right. right. right. split; [now right|assumption].
Qed.

Lemma replace_dashes_In (text : str) (x : char) :
  In x (replace_dashes text) ->
  x = HYPHEN \/ separator x \/ (In x text /\ is_dash x = false).
Proof.
  unfold replace_dashes. intros H. apply in_rev, dash_loop_In in H.
  destruct H as [H|H]; [contradiction|exact H].
Qed.

Lemma normalize_spaces_In (text : str) (x : char) :
  In x (normalize_spaces text) -> In x text \/ separator x.
Proof.
  unfold normalize_spaces. intros H. apply In_strip in H.
  apply (re_sub_In _ _ separator) in H.
  2:{ intros m y Hy. right. simpl in Hy. unfold separator. intuition auto. }
  destruct H as [H|H]; [|now right].
  apply (re_sub_In _ _ separator) in H.
  2:{ intros m y Hy. right. simpl in Hy. unfold separator. intuition auto. }
  destruct H as [H|H]; [|now right].
  apply (re_sub_In _ _ separator) in H.
  2:{ intros m y Hy. right. simpl in Hy. unfold separator. intuition auto. }
  exact H.
Qed.

(** X1.  Every character of the normalized text is a hyphen, a comma, a
    space, or a character of the input that is not a dash: no en dash
    and no em dash is left, and nothing else is invented. *)
Theorem normalize_for_tts_characters (text : str) (x : char) :
  In x (normalize_for_tts text) ->
  (x = HYPHEN \/ x = COMMA \/ x = SPACE
   \/ (In x text /\ is_dash x = false))
  /\ x <> EN_DASH /\ x <> EM_DASH.
Proof.
  intros H.
  assert (Hx : x = HYPHEN \/ x = COMMA \/ x = SPACE
               \/ (In x text /\ is_dash x = false)).
  { unfold normalize_for_tts in H. apply normalize_spaces_In in H.
    unfold separator in H. destruct H as [H|H]; [|tauto].
    apply replace_dashes_In in H. unfold separator in H.
    destruct H as [H|[H|[H Hd]]]; try tauto.
    apply (re_sub_In _ _ separator) in H;
      [|exact replace_word_dash_discourse_In].
    destruct H as [H|H]; [|unfold separator in H; tauto].
    apply (re_sub_In _ _ separator) in H; [|exact replace_aside_In].
    destruct H as [H|H]; [|unfold separator in H; tauto].
    tauto. }
  split; [exact Hx|].
  destruct Hx as [->|[->|[->|[_ Hd]]]];
    try (split; discriminate).
  split; intros ->; discriminate.
Qed.

(** X2.  Whitespace apart, the normalized text is the input in which
    every dash has stayed, has become a comma or a hyphen, or has gone;
    every other character is kept, in its place. *)
Theorem normalize_for_tts_only_rewrites_dashes (text : str) :
  dash_rewrite (drop_ws text) (drop_ws (normalize_for_tts text)).
Proof. apply normalize_for_tts_rewrite. Qed.
End Characters.

Lemma normalize_for_tts_characters_witness :
  In COMMA (normalize_for_tts (lit "tea - milk"))
  /\ (COMMA = HYPHEN \/ COMMA = COMMA \/ COMMA = SPACE
      \/ (In COMMA (lit "tea - milk") /\ is_dash COMMA = false))
  /\ COMMA <> EN_DASH /\ COMMA <> EM_DASH.
Proof.
  assert (H : In COMMA (normalize_for_tts (lit "tea - milk")))
    by (vm_compute; do 3 right; left; reflexivity).
  split; [exact H|].
  exact (normalize_for_tts_characters (lit "tea - milk") COMMA H).
Defined.

(** ** Text without dashes *)

Lemma scan_no_hit (matcher : option char -> str -> option nat)
  (repl : str -> str) (rest : str) :
  (forall prev r,
     Forall (fun c => is_dash c = false) r -> matcher prev r = None) ->
  Forall (fun c => is_dash c = false) rest ->
  forall prev,
    flat_map (token_text repl) (scan matcher prev 0 rest) = rest.
Proof.
  intros Hm Hrest. induction Hrest as [|c rest Hc Hrest IH]; intros prev;
    [reflexivity|].
  cbn [scan]. rewrite (Hm prev (c :: rest)) by now constructor.
  cbn [flat_map token_text app]. now rewrite IH.
Qed.

Lemma match_aside_no_dash (prev : option char) (r : str) :
  Forall (fun c => is_dash c = false) r -> match_aside prev r = None.
Proof.
  intros H. destruct H as [|c r Hc _]; [reflexivity|].
  unfold match_aside. now rewrite Hc.
Qed.

Section NoDash.
Context {db : UnicodeDB}.

Lemma match_word_dash_word_no_dash (prev : option char) (r : str) :
  Forall (fun c => is_dash c = false) r -> match_word_dash_word prev r = None.
Proof.
  intros H. unfold match_word_dash_word.
  destruct (skipn (letter_run r) r) as [|d s2] eqn:E; [reflexivity|].
  assert (Hd : is_dash d = false).
  { rewrite Forall_forall in H. apply H.
    apply (In_skipn d (letter_run r)). rewrite E. now left. }
  now rewrite Hd, andb_false_r.
Qed.

Lemma dash_loop_no_dash (eot : char) (rest : str) :
  Forall (fun c => is_dash c = false) rest ->
  forall prev chars, dash_loop eot prev rest chars = rev rest ++ chars.
Proof.
  induction 1 as [|c rest Hc _ IH]; intros prev chars; [reflexivity|].
  cbn [dash_loop]. rewrite IH. unfold dash_step. rewrite Hc.
  cbn [rev]. now rewrite <- app_assoc.
Qed.

(** X3.  On a text without a hyphen, an en dash or an em dash the three
    dash passes change nothing: normalization is the normalization of
    whitespace and commas alone. *)
Theorem normalize_for_tts_without_dashes (text : str) :
  Forall (fun c => is_dash c = false) text ->
  normalize_for_tts text = normalize_spaces text.
Proof.
  intros H. unfold normalize_for_tts, re_sub, tokens.
  rewrite (scan_no_hit match_aside replace_aside text
             match_aside_no_dash H).
  rewrite (scan_no_hit match_word_dash_word replace_word_dash_discourse text
             match_word_dash_word_no_dash H).
  unfold replace_dashes. rewrite (dash_loop_no_dash SPACE text H).
  now rewrite app_nil_r, rev_involutive.
Qed.
End NoDash.

Lemma normalize_for_tts_without_dashes_witness :
  Forall (fun c => is_dash c = false) (lit "Hello ,  world ,again")
  /\ normalize_for_tts (lit "Hello ,  world ,again")
     = normalize_spaces (lit "Hello ,  world ,again")
  /\ normalize_spaces (lit "Hello ,  world ,again")
     = lit "Hello, world, again".
Proof.
  assert (H : Forall (fun c => is_dash c = false)
                (lit "Hello ,  world ,again")) by (repeat constructor).
  split; [exact H|]. split; [|reflexivity].
  exact (normalize_for_tts_without_dashes (lit "Hello ,  world ,again") H).
Defined.

(** ** The shape of the normalized text *)

Lemma adjacent_app_r (P : char -> char -> Prop) (a b : str) :
  adjacent P (a ++ b) -> adjacent P b.
Proof.
  induction a as [|x a IH]; [trivial|].
  intros H. apply IH. eapply adjacent_tail. exact H.
Qed.

Lemma adjacent_app_l (P : char -> char -> Prop) (a b : str) :
  adjacent P (a ++ b) -> adjacent P a.
Proof.
  induction a as [|x a IH]; [intros _; exact I|]. intros H.
  destruct a as [|y a]; [exact I|].
  cbn [app] in H. apply adjacent_cons in H as [Hxy H].
  apply adjacent_cons. split; [exact Hxy|]. now apply IH.
Qed.

Lemma lstrip_suffix (s : str) : s = firstn (space_run s) s ++ lstrip s.
Proof. rewrite <- skipn_space_run. symmetry. apply firstn_skipn. Qed.

Lemma rstrip_prefix (s : str) : exists b, s = rstrip s ++ b.
Proof.
  unfold rstrip. exists (rev (firstn (space_run (rev s)) (rev s))).
  rewrite <- rev_app_distr, <- lstrip_suffix. now rewrite rev_involutive.
Qed.

Lemma strip_infix (s : str) : exists a b, s = a ++ strip s ++ b.
Proof.
  unfold strip. destruct (rstrip_prefix (lstrip s)) as [b Hb].
  exists (firstn (space_run s) s), b. rewrite <- Hb. apply lstrip_suffix.
Qed.

Lemma adjacent_strip (P : char -> char -> Prop) (s : str) :
  adjacent P s -> adjacent P (strip s).
Proof.
  destruct (strip_infix s) as (a & b & H). intros Hs. rewrite H in Hs.
  eapply adjacent_app_l, adjacent_app_r. exact Hs.
Qed.

Lemma collapsed_cons (prev : option char) (c : char) (r : str) :
  collapsed prev 0 (c :: r)
  = if isspace c then SPACE :: collapsed (Some c) (space_run r) r
    else c :: collapsed (Some c) 0 r.
Proof.
  unfold collapsed. cbn [scan]. unfold match_spaces. cbn [space_run].
  destruct (isspace c); reflexivity.
Qed.

Lemma collapsed_skip (prev : option char) (k : nat) (c : char) (r : str) :
  collapsed prev (S k) (c :: r) = collapsed (Some c) k r.
Proof. reflexivity. Qed.

Lemma collapsed_shape (rest : str) :
  forall prev skip,
    skip = 0 \/ skip = space_run rest ->
    Forall (fun c => isspace c = true -> c = SPACE) (collapsed prev skip rest)
    /\ adjacent not_both_spaces (collapsed prev skip rest)
    /\ (skip = space_run rest ->
        match collapsed prev skip rest with
        | x :: _ => isspace x = false
        | [] => True
        end).
Proof.
  induction rest as [|c r IH]; intros prev skip Hskip.
  - assert (E : collapsed prev skip [] = []) by (now destruct skip).
    rewrite E. split; [constructor|]. split; [exact I|trivial].
  - destruct skip as [|k].
    + rewrite collapsed_cons. cbn [space_run].
      destruct (isspace c) eqn:Ec.
      * destruct (IH (Some c) (space_run r) (or_intror eq_refl))
          as (Hall & Hadj & Hhead).
        specialize (Hhead eq_refl).
        split; [constructor; auto|]. split; [|discriminate].
        destruct (collapsed (Some c) (space_run r) r) as [|y l]; [exact I|].
        split; [|exact Hadj]. intros [_ Hy]. congruence.
      * destruct (IH (Some c) 0 (or_introl eq_refl)) as (Hall & Hadj & _).
        split; [constructor; [congruence|exact Hall]|].
        split; [|intros _; exact Ec].
        destruct (collapsed (Some c) 0 r) as [|y l]; [exact I|].
        split; [|exact Hadj]. intros [Hx _]. congruence.
    + destruct Hskip as [Hskip|Hskip]; [discriminate|].
      cbn [space_run] in Hskip. destruct (isspace c); [|discriminate].
      injection Hskip as ->. rewrite collapsed_skip.
      destruct (IH (Some c) (space_run r) (or_intror eq_refl))
        as (Hall & Hadj & Hhead).
      split; [exact Hall|]. split; [exact Hadj|]. intros _. now apply Hhead.
Qed.

Lemma Forall_strip (P : char -> Prop) (s : str) :
  Forall P s -> Forall P (strip s).
Proof.
  intros H. apply Forall_forall. intros x Hx. apply In_strip in Hx.
  rewrite Forall_forall in H. now apply H.
Qed.

(** X4.  The normalized text is trimmed, its only whitespace character is
    the space, and no two spaces touch: no newline, tab or run of blanks
    survives normalization. *)
Theorem normalize_for_tts_whitespace {db : UnicodeDB} (text : str) :
  strip (normalize_for_tts text) = normalize_for_tts text
  /\ Forall (fun c => isspace c = true -> c = SPACE) (normalize_for_tts text)
  /\ adjacent not_both_spaces (normalize_for_tts text).
Proof.
  unfold normalize_for_tts, normalize_spaces.
  set (u := re_sub match_comma_spaces _ _).
  destruct (collapsed_shape u None 0 (or_introl eq_refl)) as (Hall & Hadj & _).
  split; [apply strip_idem|].
  split; [now apply Forall_strip|now apply adjacent_strip].
Qed.

(** *** Commas *)

Lemma after_commas_weaken (P Q : char -> Prop) (l : str) :
  (forall y, P y -> Q y) -> after_commas P l -> after_commas Q l.
Proof.
  intros HPQ. induction l as [|x l IH]; [trivial|].
  intros [Hx Hl]. split; [|now apply IH].
  intros E. specialize (Hx E). destruct l; [contradiction|auto].
Qed.

Lemma after_commas_adjacent (l : str) :
  after_commas (fun y => y = SPACE) l -> adjacent comma_then_space l.
Proof.
  induction l as [|x l IH]; [trivial|]. intros [Hx Hl].
  destruct l as [|y l]; [exact I|].
  split; [exact Hx|now apply IH].
Qed.

(** After [re.sub(r",\s*", ", ", ...)] a space follows every comma. *)
Lemma comma_spaces_shape (rest : str) :
  forall prev skip,
    after_commas (fun y => y = SPACE)
      (flat_map (token_text (fun _ => lit ", "))
         (scan match_comma_spaces prev skip rest)).
Proof.
  induction rest as [|c r IH]; intros prev skip; [exact I|].
  cbn [scan]. destruct skip as [|k]; [|apply IH].
  unfold match_comma_spaces. destruct (N.eqb_spec c COMMA) as [->|Hc].
  - cbn [Nat.add flat_map token_text]. change (lit ", ") with [COMMA; SPACE].
    cbn [app after_commas]. split; [auto|]. split; [discriminate|apply IH].
  - cbn [flat_map token_text app after_commas].
    split; [contradiction|apply IH].
Qed.

Lemma collapsed_after_commas (rest : str) :
  after_commas (fun y => isspace y = true) rest ->
  forall prev skip,
    after_commas (fun y => y = SPACE) (collapsed prev skip rest).
Proof.
  induction rest as [|c r IH]; intros Hrest prev skip.
  - destruct skip; exact I.
  - destruct Hrest as [Hc Hr]. destruct skip as [|k];
      [|rewrite collapsed_skip; now apply IH].
    rewrite collapsed_cons. destruct (isspace c) eqn:Ec.
    + split; [discriminate|now apply IH].
    + split; [|now apply IH]. intros E. specialize (Hc E).
      destruct r as [|y r]; [contradiction|].
      rewrite collapsed_cons, Hc. reflexivity.
Qed.

(** X5.  In the normalized text a comma is followed by a space, unless it
    is the last character. *)
Theorem normalize_for_tts_commas {db : UnicodeDB} (text : str) :
  adjacent comma_then_space (normalize_for_tts text).
Proof.
  unfold normalize_for_tts, normalize_spaces.
  apply adjacent_strip, after_commas_adjacent.
  apply (collapsed_after_commas _ ).
  eapply after_commas_weaken; [|apply comma_spaces_shape].
  intros y ->. reflexivity.
Qed.

(** ** Trimmed texts *)

Lemma trimmed_ends (x : str) :
  trimmed x <-> x <> [] /\ starts_solid x /\ starts_solid (rev x).
Proof.
  split.
  - intros [Hne Hs]. split; [exact Hne|]. split.
    + rewrite <- Hs. apply strip_shape.
    + rewrite <- Hs. unfold strip, rstrip. rewrite rev_involutive.
      apply lstrip_shape.
  - intros (Hne & Hhd & Hlast). split; [exact Hne|].
    unfold strip. rewrite (lstrip_fixed x) by (destruct x; auto).
    unfold rstrip. rewrite (lstrip_fixed (rev x)) by (destruct (rev x); auto).
    apply rev_involutive.
Qed.

Lemma collapsed_last (r : str) (z : char) :
  isspace z = false ->
  forall prev skip,
    skip = 0 \/ skip = space_run (r ++ [z]) ->
    exists out, collapsed prev skip (r ++ [z]) = out ++ [z].
Proof.
  intros Hz. induction r as [|c r IH]; intros prev skip Hskip.
  - assert (skip = 0) as ->
      by (destruct Hskip as [H|H]; [exact H|simpl in H; now rewrite Hz in H]).
    exists []. cbn [app]. rewrite collapsed_cons, Hz. reflexivity.
  - cbn [app]. destruct skip as [|k].
    + rewrite collapsed_cons. destruct (isspace c).
      * destruct (IH (Some c) (space_run (r ++ [z])) (or_intror eq_refl))
          as [out ->].
        now exists (SPACE :: out).
      * destruct (IH (Some c) 0 (or_introl eq_refl)) as [out ->].
        now exists (c :: out).
    + destruct Hskip as [Hskip|Hskip]; [discriminate|].
      cbn [app space_run] in Hskip. destruct (isspace c); [|discriminate].
      injection Hskip as ->. rewrite collapsed_skip. apply IH. now right.
Qed.

Lemma collapse_trimmed (x : str) :
  trimmed x -> trimmed (re_sub match_spaces (fun _ => [SPACE]) x).
Proof.
  intros Hx. apply trimmed_ends in Hx as (Hne & Hhd & Hlast).
  change (re_sub match_spaces (fun _ => [SPACE]) x) with (collapsed None 0 x).
  apply trimmed_ends.
  destruct x as [|c r]; [contradiction|]. cbn [starts_solid] in Hhd.
  assert (Hout : exists z out, isspace z = false
                               /\ collapsed None 0 (c :: r) = out ++ [z]).
  { destruct (rev (c :: r)) as [|z y] eqn:E.
    - apply (f_equal (@length char)) in E. rewrite length_rev in E.
      discriminate.
    - cbn [starts_solid] in Hlast.
      assert (E' : c :: r = rev y ++ [z]).
      { rewrite <- (rev_involutive (c :: r)), E. reflexivity. }
      rewrite E'.
      destruct (collapsed_last (rev y) z Hlast None 0 (or_introl eq_refl))
        as [out Hout].
      now exists z, out. }
  destruct Hout as (z & out & Hz & Hout).
  split; [|split].
  - rewrite Hout. now destruct out.
  - rewrite collapsed_cons, Hhd. exact Hhd.
  - rewrite Hout, rev_app_distr. exact Hz.
Qed.

Lemma trimmed_pieces (ps : list str) :
  Forall trimmed (List.map strip (filter (fun p => nonempty (strip p)) ps)).
Proof.
  induction ps as [|p ps IH]; [constructor|].
  cbn [filter]. destruct (nonempty (strip p)) eqn:E; [|exact IH].
  cbn [List.map]. constructor; [now apply trimmed_strip|exact IH].
Qed.

(** ** Paragraphs and sentences *)

Lemma split_into_paragraphs_trimmed (text : str) :
  Forall trimmed (split_into_paragraphs text).
Proof.
  unfold split_into_paragraphs.
  destruct (negb (nonempty (strip text))); [constructor|].
  apply trimmed_pieces.
Qed.

Lemma split_into_sentences_trimmed (paragraph : str) :
  Forall trimmed (split_into_sentences paragraph).
Proof.
  unfold split_into_sentences.
  destruct (nonempty (re_sub match_spaces (fun _ => [SPACE])
                        (strip paragraph))) eqn:E; cbn [negb];
    [|constructor].
  destruct (length (re_split match_after_terminal _) =? 1)%nat;
    [|apply trimmed_pieces].
  constructor; [|constructor]. apply collapse_trimmed.
  split; [|apply strip_idem].
  intros H. rewrite H in E. discriminate.
Qed.

(** X6.  The paragraphs that [split_into_paragraphs] returns are trimmed
    and not empty, and together they hold the text, whitespace apart,
    in its order. *)
Theorem split_into_paragraphs_trimmed_content (text : str) :
  Forall trimmed (split_into_paragraphs text)
  /\ drop_ws (concat (split_into_paragraphs text)) = drop_ws text.
Proof.
  split; [apply split_into_paragraphs_trimmed|].
  apply split_into_paragraphs_content.
Qed.

(** X7.  The sentences that [split_into_sentences] returns are trimmed
    and not empty, and together they hold the paragraph, whitespace
    apart, in its order. *)
Theorem split_into_sentences_trimmed_content (paragraph : str) :
  Forall trimmed (split_into_sentences paragraph)
  /\ drop_ws (concat (split_into_sentences paragraph)) = drop_ws paragraph.
Proof.
  split; [apply split_into_sentences_trimmed|].
  apply split_into_sentences_content.
Qed.

(** ** Paragraphs after normalization *)

Lemma scan_blank_lines_none (rest : str) :
  ~ In NEWLINE rest ->
  forall prev, scan match_blank_lines prev 0 rest = List.map Lit rest.
Proof.
  induction rest as [|c r IH]; intros Hno prev; [reflexivity|].
  cbn [scan match_blank_lines List.map].
  destruct (N.eqb_spec c NEWLINE) as [->|Hc].
  - exfalso. apply Hno. now left.
  - f_equal. apply IH. intros H. apply Hno. now right.
Qed.

Lemma split_tokens_literals (l : str) : split_tokens (List.map Lit l) = [l].
Proof.
  induction l as [|c l IH]; [reflexivity|].
  cbn [List.map split_tokens]. now rewrite IH.
Qed.

Lemma split_into_paragraphs_single (text : str) :
  trimmed text -> ~ In NEWLINE text -> split_into_paragraphs text = [text].
Proof.
  intros [Hne Hs] Hno. unfold split_into_paragraphs, re_split, tokens.
  rewrite Hs. destruct text as [|c r] eqn:E; [contradiction|].
  cbn [nonempty negb]. rewrite <- E in *.
  rewrite (scan_blank_lines_none text Hno), split_tokens_literals.
  cbn [filter]. rewrite Hs, E. cbn [nonempty List.map]. now rewrite <- E, Hs.
Qed.

Section AfterNormalization.
Context {db : UnicodeDB}.

Lemma normalize_for_tts_no_newline (text : str) :
  ~ In NEWLINE (normalize_for_tts text).
Proof.
  unfold normalize_for_tts, normalize_spaces.
  set (u := re_sub match_comma_spaces _ _). intros H.
  apply In_strip in H.
  destruct (collapsed_shape u None 0 (or_introl eq_refl)) as (Hall & _).
  rewrite Forall_forall in Hall. specialize (Hall NEWLINE H eq_refl).
  discriminate.
Qed.

Lemma normalize_for_tts_strip (text : str) :
  strip (normalize_for_tts text) = normalize_for_tts text.
Proof. unfold normalize_for_tts, normalize_spaces. apply strip_idem. Qed.

Lemma paragraphs_of_normalized (text : str) :
  split_into_paragraphs (normalize_for_tts text)
  = match normalize_for_tts text with
    | [] => []
    | _ :: _ => [normalize_for_tts text]
    end.
Proof.
  destruct (normalize_for_tts text) as [|c r] eqn:E; [reflexivity|].
  rewrite <- E. apply split_into_paragraphs_single.
  - split; [rewrite E; discriminate|apply normalize_for_tts_strip].
  - apply normalize_for_tts_no_newline.
Qed.

(** X8.  Normalization runs before the paragraphs are split and leaves
    no newline, so [chunk_text] never sees more than one paragraph: the
    paragraphs of a normalized text are that text alone, or nothing when
    it is empty.  A blank line of the input is no boundary for the
    chunks. *)
Theorem normalized_text_is_one_paragraph (text : str) :
  ~ In NEWLINE (normalize_for_tts text)
  /\ split_into_paragraphs (normalize_for_tts text)
     = match normalize_for_tts text with
       | [] => []
       | _ :: _ => [normalize_for_tts text]
       end.
Proof.
  split; [apply normalize_for_tts_no_newline|apply paragraphs_of_normalized].
Qed.
End AfterNormalization.

(** ** Sentences within the budget *)

Section WithinBudget.
Context {db : UnicodeDB}.

Lemma sentence_loop_fits (fuel : nat) (max_len : Z) (sentences : list str) :
  Forall trimmed sentences ->
  Forall (fun s => (len s <= max_len)%Z) sentences ->
  forall chunks,
    sentence_loop fuel max_len sentences chunks
    = Done (chunks ++ List.map sentence_piece sentences).
Proof.
  induction 1 as [|s ss [Hne Hs] _ IH]; intros Hfit chunks.
  - simpl. now rewrite app_nil_r.
  - inversion Hfit as [|? ? Hlen Hrest]; subst.
    cbn [sentence_loop List.map]. rewrite Hs.
    destruct s as [|c r]; [contradiction|]. cbn [nonempty negb].
    destruct (Z.leb_spec (len (c :: r)) max_len); [|lia].
    rewrite (IH Hrest). now rewrite <- app_assoc.
Qed.

(** X9.  When every sentence of a paragraph fits the budget,
    [process_paragraph] returns these sentences, each as one [sentence]
    piece, in order; no splitter runs (any amount of fuel will do). *)
Theorem process_paragraph_within_budget (fuel : nat) (paragraph : str)
  (max_len : Z) :
  Forall (fun s => (len s <= max_len)%Z) (split_into_sentences paragraph) ->
  process_paragraph fuel paragraph max_len
  = Done (List.map sentence_piece (split_into_sentences paragraph)).
Proof.
  intros Hfit. unfold process_paragraph.
  now rewrite (sentence_loop_fits fuel max_len _
                 (split_into_sentences_trimmed paragraph) Hfit).
Qed.

Lemma final_chunks_sentences (sentences : list str) :
  Forall trimmed sentences ->
  final_chunks (List.map sentence_piece sentences)
  = List.map sentence_chunk sentences.
Proof.
  induction 1 as [|s ss [Hne Hs] _ IH]; [reflexivity|].
  cbn [List.map final_chunks sentence_piece piece_chunk piece_rule].
  rewrite Hs. destruct s as [|c r]; [contradiction|].
  cbn [nonempty negb]. now rewrite IH.
Qed.

(** X10.  When every sentence of the normalized text fits the budget,
    [chunk_text] returns exactly these sentences, each as one chunk with
    rule [sentence] and its length, in order, whatever the fuel. *)
Theorem chunk_text_within_budget (fuel : nat) (text : str) (max_len : Z) :
  Forall (fun s => (len s <= max_len)%Z)
    (split_into_sentences (normalize_for_tts text)) ->
  chunk_text fuel text max_len
  = Done (List.map sentence_chunk
            (split_into_sentences (normalize_for_tts text))).
Proof.
  intros Hfit. unfold chunk_text. rewrite paragraphs_of_normalized.
  destruct (normalize_for_tts text) as [|c r] eqn:E; [reflexivity|].
  cbn [paragraph_loop]. unfold process_paragraph.
  rewrite (sentence_loop_fits fuel max_len _
             (split_into_sentences_trimmed (c :: r)) Hfit).
  cbn [bind app].
  now rewrite (final_chunks_sentences _
                 (split_into_sentences_trimmed (c :: r))).
Qed.

(** ** Blank text *)

Lemma dash_rewrite_nil (w : str) : dash_rewrite [] w -> w = [].
Proof. intros H. now inversion H. Qed.

Lemma normalize_for_tts_blank (text : str) :
  Forall (fun c => isspace c = true) text -> normalize_for_tts text = [].
Proof.
  intros H. pose proof (normalize_for_tts_rewrite text) as Hr.
  rewrite (drop_ws_blank text H) in Hr. apply dash_rewrite_nil in Hr.
  pose proof (strip_shape (normalize_for_tts text)) as Hs.
  rewrite normalize_for_tts_strip in Hs.
  destruct (normalize_for_tts text) as [|c r]; [reflexivity|].
  simpl in Hr. rewrite Hs in Hr. discriminate.
Qed.

(** X11.  A text made of whitespace only, the empty text included, gives
    no chunk: [chunk_text] returns the empty list for every [max_len],
    zero and the negative ones included, without running a loop. *)
Theorem chunk_text_blank (fuel : nat) (text : str) (max_len : Z) :
  Forall (fun c => isspace c = true) text ->
  normalize_for_tts text = [] /\ chunk_text fuel text max_len = Done [].
Proof.
  intros H. pose proof (normalize_for_tts_blank text H) as E.
  split; [exact E|]. unfold chunk_text. now rewrite E.
Qed.
End WithinBudget.

Lemma process_paragraph_within_budget_witness :
  Forall (fun s => (len s <= 20)%Z)
    (split_into_sentences (lit " One fish.  Two fish! Red?  "))
  /\ process_paragraph 0 (lit " One fish.  Two fish! Red?  ") 20
     = Done [sentence_piece (lit "One fish.");
             sentence_piece (lit "Two fish!");
             sentence_piece (lit "Red?")].
Proof.
  assert (H : Forall (fun s => (len s <= 20)%Z)
                (split_into_sentences (lit " One fish.  Two fish! Red?  "))).
  { apply Forall_forall. intros s Hs. apply Z.leb_le. revert s Hs.
    apply forallb_forall. vm_compute. reflexivity. }
  split; [exact H|].
  etransitivity;
    [exact (process_paragraph_within_budget 0
              (lit " One fish.  Two fish! Red?  ") 20 H)|].
  vm_compute. reflexivity.
Defined.

Lemma chunk_text_within_budget_witness :
  Forall (fun s => (len s <= 30)%Z)
    (split_into_sentences
       (normalize_for_tts
          (lit "Look - a kite!" ++ NEWLINE :: NEWLINE :: lit "It is high.")))
  /\ chunk_text 0
       (lit "Look - a kite!" ++ NEWLINE :: NEWLINE :: lit "It is high.") 30
     = Done [sentence_chunk (lit "Look, a kite!");
             sentence_chunk (lit "It is high.")].
Proof.
  assert (H : Forall (fun s => (len s <= 30)%Z)
                (split_into_sentences
                   (normalize_for_tts
                      (lit "Look - a kite!" ++ NEWLINE :: NEWLINE
                         :: lit "It is high.")))).
  { apply Forall_forall. intros s Hs. apply Z.leb_le. revert s Hs.
    apply forallb_forall. vm_compute. reflexivity. }
  split; [exact H|].
  etransitivity;
    [exact (chunk_text_within_budget 0
              (lit "Look - a kite!" ++ NEWLINE :: NEWLINE
                 :: lit "It is high.") 30 H)|].
  vm_compute. reflexivity.
Defined.

Lemma chunk_text_blank_witness :
  Forall (fun c => isspace c = true) [SPACE; NEWLINE; 9%N; NEWLINE]
  /\ chunk_text 0 [SPACE; NEWLINE; 9%N; NEWLINE] (-3) = Done [].
Proof.
  assert (H : Forall (fun c => isspace c = true)
                [SPACE; NEWLINE; 9%N; NEWLINE]) by (repeat constructor).
  split; [exact H|].
  exact (proj2 (chunk_text_blank 0 [SPACE; NEWLINE; 9%N; NEWLINE] (-3) H)).
Defined.

(** ** Rule tags *)

Lemma choose_cut_rule (text : str) (max_len : Z) (base_rule : string)
  (start : Z) :
  exists sfx, In sfx cut_suffixes
              /\ snd (choose_cut text max_len base_rule start)
                 = (base_rule ++ sfx)%string.
Proof.
  unfold choose_cut, cut_suffixes.
  destruct (negb (_ =? -1)%Z).
  - eexists. split; [|reflexivity]. simpl; auto.
  - destruct (conj_match _ _ _).
    + eexists. split; [|reflexivity]. simpl; auto.
    + eexists. split; [|reflexivity]. simpl; auto.
Qed.

Lemma fallback_loop_rules (text : str) (max_len : Z) (base_rule : string) :
  forall fuel start chunks out,
    Forall (suffixed base_rule) chunks ->
    fallback_loop fuel text max_len base_rule start chunks = Done out ->
    Forall (suffixed base_rule) out.
Proof.
  induction fuel as [|fuel IH]; intros start chunks out Hc Hrun;
    [discriminate|].
  cbn [fallback_loop] in Hrun.
  destruct (start <? len text)%Z; [|now inversion Hrun; subst].
  destruct (skip_spaces text (Z.to_nat (len text - start)) start) as [s1| |];
    cbn [bind] in Hrun; try discriminate.
  destruct (s1 >=? len text)%Z; [now inversion Hrun; subst|].
  destruct (len text - s1 <=? max_len)%Z.
  - inversion Hrun; subst. apply append_piece_Forall; [assumption|].
    intros _. exists "+tail"%string. split; [|reflexivity]. simpl; auto.
  - destruct (choose_cut_rule text max_len base_rule s1) as (sfx & Hin & E).
    destruct (choose_cut text max_len base_rule s1) as [cut rule].
    cbn [snd] in E. subst rule. eapply IH; [|exact Hrun].
    apply append_piece_Forall; [assumption|].
    intros _. exists sfx. split; [|reflexivity]. right. exact Hin.
Qed.

Lemma suffixed_known (base_rule : string) (p : piece) :
  base_rule = LENGTH_FALLBACK \/ base_rule = CLAUSE_SUBORDINATOR ->
  suffixed base_rule p -> known_rule p.
Proof.
  intros Hb (sfx & Hin & E). unfold known_rule. rewrite E.
  unfold fallback_suffixes, cut_suffixes in Hin. simpl in Hin.
  destruct Hb as [-> | ->];
    decompose [or] Hin; subst; try contradiction; simpl; tauto.
Qed.

Lemma fallback_known (fuel : nat) (text : str) (max_len : Z)
  (base_rule : string) (out : list piece) :
  base_rule = LENGTH_FALLBACK \/ base_rule = CLAUSE_SUBORDINATOR ->
  fallback_split_by_commas_and_conjs fuel text max_len base_rule = Done out ->
  Forall known_rule out.
Proof.
  intros Hb Hrun.
  eapply Forall_impl; [intros p; apply (suffixed_known base_rule p Hb)|].
  eapply fallback_loop_rules; [constructor|exact Hrun].
Qed.

Lemma collect_Forall (Q : piece -> Prop)
  (parts : list (outcome (list piece))) (out : list piece) :
  (forall m l, In m parts -> m = Done l -> Forall Q l) ->
  collect parts = Done out -> Forall Q out.
Proof.
  revert out. induction parts as [|m parts IH]; intros out Hall H.
  - inversion H; subst. constructor.
  - simpl in H. destruct m as [first| |]; cbn [bind] in H; try discriminate.
    destruct (collect parts) as [others| |]; cbn [bind] in H;
      try discriminate.
    inversion H; subst. apply Forall_app. split.
    + apply (Hall (Done first)); [now left|reflexivity].
    + apply IH; [|reflexivity]. intros m l Hm. apply Hall. now right.
Qed.

Lemma collect_map_Forall {A} (Q : piece -> Prop)
  (run : A -> outcome (list piece)) (items : list A) (out : list piece) :
  (forall x l, run x = Done l -> Forall Q l) ->
  collect (List.map run items) = Done out -> Forall Q out.
Proof.
  intros Hrun. apply collect_Forall. intros m l Hm E.
  apply in_map_iff in Hm as (x & <- & _). eapply Hrun. exact E.
Qed.

Lemma bind_done_inv (m : outcome (list piece)) (out : list piece) :
  (rest <- m ;; Done ([] ++ rest)) = Done out -> m = Done out.
Proof. rewrite bind_done_nil. trivial. Qed.

Lemma final_chunks_rules (Q : string -> Prop) (ps : list piece) :
  Forall (fun p => Q (piece_rule p)) ps ->
  Forall (fun c => Q (Chunk.rule c)) (final_chunks ps).
Proof.
  induction 1 as [|p ps Hp _ IH]; [constructor|].
  cbn [final_chunks]. destruct (negb (nonempty (strip (piece_chunk p))));
    [exact IH|]. constructor; [exact Hp|exact IH].
Qed.

Section Rules.
Context {db : UnicodeDB}.

Lemma split_by_subordinators_known (fuel : nat) (s : str) (max_len : Z)
  (out : list piece) :
  split_by_subordinators fuel s max_len = Done out -> Forall known_rule out.
Proof.
  rewrite split_by_subordinators_spans.
  destruct (find_subordinator_positions s) as [|s0 starts].
  - apply fallback_known. now left.
  - apply collect_map_Forall. intros span l. unfold clause_pieces.
    destruct (negb (nonempty _)); [intros [= <-]; constructor|].
    destruct (_ <=? max_len)%Z.
    + intros [= <-]. constructor; [|constructor].
      unfold known_rule. simpl. tauto.
    + apply fallback_known. now right.
Qed.

Lemma split_long_sentence_known (fuel : nat) (s : str) (max_len : Z)
  (out : list piece) :
  split_long_sentence fuel s max_len = Done out -> Forall known_rule out.
Proof.
  unfold split_long_sentence.
  destruct (0 <? length (comma_positions s))%nat;
    [|apply split_by_subordinators_known].
  rewrite segment_loop_collect. intros H. apply bind_done_inv in H.
  revert H. apply collect_map_Forall. intros seg l. unfold segment_pieces.
  destruct (_ <=? max_len)%Z.
  - intros [= <-]. constructor; [|constructor].
    unfold known_rule. simpl. tauto.
  - apply split_by_subordinators_known.
Qed.

Lemma process_paragraph_known (fuel : nat) (paragraph : str) (max_len : Z)
  (out : list piece) :
  process_paragraph fuel paragraph max_len = Done out -> Forall known_rule out.
Proof.
  unfold process_paragraph. rewrite sentence_loop_collect.
  intros H. apply bind_done_inv in H. revert H.
  apply collect_map_Forall. intros sent l. unfold sentence_pieces. cbv zeta.
  destruct (negb (nonempty _)); [intros [= <-]; constructor|].
  destruct (_ <=? max_len)%Z.
  - intros [= <-]. constructor; [|constructor].
    unfold known_rule. simpl. tauto.
  - apply split_long_sentence_known.
Qed.

(** X12.  Whatever the text and [max_len], every chunk that [chunk_text]
    returns carries one of eleven rule tags: [sentence], [comma_first],
    [clause_subordinator], or one of the bases [length_fallback] and
    [clause_subordinator] with one of the suffixes [+tail],
    [+comma_split], [+conj_split] and [+length_limit]. *)
Theorem chunk_text_rules (fuel : nat) (text : str) (max_len : Z)
  (chunks : list Chunk.t) :
  chunk_text fuel text max_len = Done chunks ->
  Forall (fun c => In (Chunk.rule c) RULES) chunks.
Proof.
  unfold chunk_text. intros H.
  destruct (paragraph_loop fuel max_len _ []) as [out| |] eqn:E;
    cbn [bind] in H; try discriminate.
  inversion H; subst. apply (final_chunks_rules (fun r => In r RULES)).
  rewrite paragraph_loop_collect in E. apply bind_done_inv in E.
  revert E. apply collect_map_Forall. intros para l.
  apply process_paragraph_known.
Qed.
End Rules.

Lemma chunk_text_rules_witness :
  exists chunks,
    chunk_text 50
      (lit "Stay in, because it rains and rains and never stops.") 12
    = Done chunks
    /\ Forall (fun c => In (Chunk.rule c) RULES) chunks.
Proof.
  eexists. split; [vm_compute; reflexivity|].
  apply (chunk_text_rules 50
           (lit "Stay in, because it rains and rains and never stops.") 12).
  vm_compute. reflexivity.
Defined.

(** ** Tier 3: the commas of the fragments *)

Lemma strip_snoc_solid (x : str) (c : char) :
  isspace c = false -> strip (x ++ [c]) = lstrip x ++ [c].
Proof.
  intros Hc. unfold strip.
  assert (E : lstrip (x ++ [c]) = lstrip x ++ [c]).
  { rewrite lstrip_app. destruct (lstrip x); [|reflexivity].
    simpl. now rewrite Hc. }
  rewrite E. unfold rstrip. rewrite rev_app_distr. cbn [rev app lstrip].
  rewrite Hc. cbn [rev]. now rewrite rev_involutive.
Qed.

Lemma In_firstn_nth (c : char) (k : nat) (w : str) :
  In c (firstn k w) -> exists j, j < k /\ nth_error w j = Some c.
Proof.
  revert k. induction w as [|x w IH]; intros [|k] H; simpl in H;
    try contradiction.
  destruct H as [->|H].
  - exists 0. split; [lia|reflexivity].
  - destruct (IH k H) as (j & Hj & E). exists (S j). split; [lia|exact E].
Qed.

Lemma firstn_firstn_le (n m : nat) (l : str) :
  n <= m -> firstn n (firstn m l) = firstn n l.
Proof. intros H. rewrite firstn_firstn. f_equal. lia. Qed.

Lemma choose_cut_shape (text : str) (max_len : Z) (base_rule : string)
  (j : Z) :
  (0 <= j)%Z -> (1 <= max_len)%Z -> (j + max_len < len text)%Z ->
  exists cut rule,
    choose_cut text max_len base_rule j = (cut, rule)
    /\ (j < cut <= j + max_len)%Z
    /\ (strip (py_slice text j cut) <> [] ->
        cut_shape base_rule (mk_piece (strip (py_slice text j cut)) rule)).
Proof.
  intros Hj Hm Hlen.
  set (w := firstn (Z.to_nat max_len) (skipn (Z.to_nat j) text)).
  assert (Hw : py_slice text j (j + max_len) = w).
  { rewrite py_slice_inside by lia. unfold w. do 2 f_equal. lia. }
  assert (Hsub : forall cut, (j <= cut <= j + max_len)%Z ->
                   py_slice text j cut = firstn (Z.to_nat (cut - j)) w).
  { intros cut Hcut. rewrite py_slice_inside by lia. unfold w.
    rewrite firstn_firstn_le by lia. reflexivity. }
  unfold choose_cut, py_find. rewrite Z.min_l by lia.
  rewrite (slice_bound_id (len text) j) by lia. rewrite Hw.
  destruct (index_of COMMA w) as [k|] eqn:E.
  - pose proof (index_of_bound COMMA w k E) as [Hk Hnth].
    assert (Hkm : (Z.of_nat k < max_len)%Z).
    { unfold w in Hk. rewrite length_firstn in Hk. lia. }
    destruct (Z.eqb_spec (j + Z.of_nat k) (-1)); [lia|]. cbn [negb].
    eexists _, _. split; [reflexivity|]. split; [lia|].
    intros _. left. cbn [piece_rule piece_chunk]. split; [reflexivity|].
    rewrite Hsub by lia.
    replace (Z.to_nat (j + Z.of_nat k + 1 - j)) with (k + 1) by lia.
    rewrite (firstn_succ_nth w k COMMA Hnth).
    rewrite strip_snoc_solid by reflexivity.
    exists (lstrip (firstn k w)). split; [reflexivity|].
    intros Hin. apply In_lstrip, In_firstn_nth in Hin as (i & Hi & Hc).
    exact (index_of_first COMMA w k i E Hi Hc).
  - pose proof (index_of_none COMMA w E) as Hno.
    change (negb (-1 =? -1)%Z) with false. cbv iota.
    destruct (conj_match w j CONJS) as [m|] eqn:Ec.
    + apply conj_match_range in Ec; [|apply CONJS_nonempty|].
      2:{ rewrite <- Hw, len_py_slice by lia. lia. }
      rewrite <- Hw, len_py_slice in Ec by lia.
      eexists _, _. split; [reflexivity|]. split; [lia|].
      intros _. right. cbn [piece_rule piece_chunk]. split; [now left|].
      rewrite Hsub by lia. intros Hin.
      apply In_strip, In_firstn in Hin. contradiction.
    + eexists _, _. split; [reflexivity|]. split; [lia|].
      intros _. right. cbn [piece_rule piece_chunk]. split; [now right|].
      rewrite Hsub by lia. intros Hin.
      apply In_strip, In_firstn in Hin. contradiction.
Qed.

Lemma fallback_loop_cuts (text : str) (max_len : Z) (base_rule : string) :
  (1 <= max_len)%Z ->
  forall fuel i chunks out,
    i <= length text ->
    fallback_loop fuel text max_len base_rule (Z.of_nat i) chunks = Done out ->
    exists cuts tail,
      out = chunks ++ cuts ++ tail
      /\ Forall (cut_shape base_rule) cuts
      /\ tail_shape base_rule tail.
Proof.
  intros Hm. induction fuel as [|fuel IH]; intros i chunks out Hi Hrun;
    [discriminate|].
  rewrite fallback_loop_step in Hrun by assumption. cbv zeta in Hrun.
  pose proof (after_spaces_le text i Hi) as Hj.
  set (j := after_spaces text i) in *.
  destruct (Z.leb_spec (len text) (Z.of_nat j)) as [|Hlt].
  { inversion Hrun; subst. exists [], []. rewrite !app_nil_r.
    split; [reflexivity|]. split; [constructor|now left]. }
  destruct (Z.leb_spec (len text - Z.of_nat j) max_len) as [Hfit|Hlong].
  - inversion Hrun; subst. exists [].
    destruct (strip (lstrip (skipn i text))) as [|c r] eqn:E.
    + exists []. cbn [append_piece app]. rewrite app_nil_r.
      split; [reflexivity|]. split; [constructor|now left].
    + eexists. cbn [append_piece app]. split; [reflexivity|].
      split; [constructor|]. right. eexists. reflexivity.
  - destruct (choose_cut_shape text max_len base_rule (Z.of_nat j)
                ltac:(lia) Hm ltac:(lia))
    as (cut & rule & Ecut & Hcut & Hshape).
    rewrite Ecut in Hrun.
    rewrite <- (Z2Nat.id cut) in Hrun by lia.
    rewrite Z2Nat.id in Hrun at 2 by lia.
    apply IH in Hrun as (cuts & tail & -> & Hcuts & Htail);
      [|unfold len in *; lia].
    destruct (strip (py_slice text (Z.of_nat j) cut)) as [|c r] eqn:E.
    + exists cuts, tail. cbn [append_piece]. auto.
    + exists (mk_piece (c :: r) rule :: cuts), tail.
      cbn [append_piece]. rewrite <- app_assoc. cbn [app].
      split; [reflexivity|]. split; [|exact Htail].
      constructor; [|exact Hcuts]. apply Hshape. discriminate.
Qed.

(** X13.  For [max_len >= 1] the fragments of the fallback splitter are a
    run of cut fragments, then at most one [+tail] fragment, which is
    the last.  A [+comma_split] fragment ends with a comma and has no
    other comma; a [+conj_split] or [+length_limit] fragment has no
    comma at all. *)
Theorem fallback_fragments_commas (fuel : nat) (text : str) (max_len : Z)
  (base_rule : string) (out : list piece) :
  (1 <= max_len)%Z ->
  fallback_split_by_commas_and_conjs fuel text max_len base_rule = Done out ->
  exists cuts tail,
    out = cuts ++ tail
    /\ Forall (cut_shape base_rule) cuts
    /\ tail_shape base_rule tail.
Proof.
  intros Hm Hrun. unfold fallback_split_by_commas_and_conjs in Hrun.
  destruct (fallback_loop_cuts text max_len base_rule Hm fuel 0 [] out
              ltac:(lia) Hrun) as (cuts & tail & H).
  now exists cuts, tail.
Qed.

Lemma fallback_fragments_commas_witness :
  exists out,
    fallback_split_by_commas_and_conjs 20
      (lit "red, green and dark blue, ever more grey") 12 LENGTH_FALLBACK
    = Done out
    /\ exists cuts tail,
         out = cuts ++ tail
         /\ Forall (cut_shape LENGTH_FALLBACK) cuts
         /\ tail_shape LENGTH_FALLBACK tail.
Proof.
  eexists. split; [vm_compute; reflexivity|].
  apply (fallback_fragments_commas 20
           (lit "red, green and dark blue, ever more grey") 12
           LENGTH_FALLBACK); [lia|vm_compute; reflexivity].
Defined.

(** ** The hyphens of the normalized text *)

Section Hyphens.
Context {db : UnicodeDB}.

Lemma pause_space (c : char) : isspace c = true -> pause c.
Proof.
  intros Hc. split.
  - destruct (is_dash c) eqn:E; [|reflexivity].
    apply is_dash_not_space in E. congruence.
  - destruct (isalnum c) eqn:E; [|reflexivity].
    apply isalnum_space in E. congruence.
Qed.

Lemma pause_COMMA : pause COMMA.
Proof. split; [reflexivity|exact isalnum_comma]. Qed.

Lemma pause_SPACE : pause SPACE.
Proof. now apply pause_space. Qed.

Lemma beside_pause_l (c y : char) :
  pause c -> dash_between_alnum c y -> is_dash y = false.
Proof.
  intros [_ Hc] [_ H]. destruct (is_dash y); [|reflexivity].
  specialize (H eq_refl). congruence.
Qed.

Lemma beside_pause_r (x c : char) :
  pause c -> dash_between_alnum x c -> is_dash x = false.
Proof. intros Hc H. eapply beside_pause_l, dash_between_alnum_sym; eauto. Qed.

(** After a pause, any character that is no dash can take its place. *)
Lemma adjacent_after_pause (c z : char) (l : str) :
  pause c -> is_dash z = false ->
  adjacent dash_between_alnum (c :: l) -> adjacent dash_between_alnum (z :: l).
Proof.
  intros Hc Hz H. destruct l as [|y l]; [exact I|].
  apply adjacent_cons in H as [Hcy H]. apply adjacent_cons.
  split; [|exact H]. apply plain_pair; [exact Hz|].
  exact (beside_pause_l c y Hc Hcy).
Qed.

Lemma adjacent_pause_block (r t : str) :
  Forall pause r ->
  (forall z, is_dash z = false -> adjacent dash_between_alnum (z :: t)) ->
  forall x, is_dash x = false -> adjacent dash_between_alnum (x :: r ++ t).
Proof.
  intros Hr Ht. induction Hr as [|a r Ha _ IH]; intros x Hx.
  - now apply Ht.
  - cbn [app]. apply adjacent_cons. split.
    + apply plain_pair; [exact Hx|apply Ha].
    + apply IH, Ha.
Qed.

Lemma hd_snoc (l : str) : hd SPACE (l ++ [SPACE]) = hd SPACE l.
Proof. now destruct l. Qed.

Lemma adjacent_hd (x : char) (l : str) :
  adjacent dash_between_alnum (x :: l ++ [SPACE]) ->
  dash_between_alnum x (hd SPACE l).
Proof. destruct l as [|y l]; simpl; tauto. Qed.

Lemma scan_flanked (matcher : option char -> str -> option nat)
  (repl : str -> str) :
  (forall prev s n, matcher prev s = Some n -> Forall pause (firstn n s)) ->
  (forall m, Forall pause (repl m)) ->
  forall rest prev skip x,
    adjacent dash_between_alnum (rest ++ [SPACE]) ->
    Forall pause (firstn skip rest) ->
    match skip with
    | O => dash_between_alnum x (hd SPACE rest)
    | S _ => is_dash x = false
    end ->
    adjacent dash_between_alnum
      (x :: flat_map (token_text repl) (scan matcher prev skip rest)
         ++ [SPACE]).
Proof.
  intros Hmatch Hrepl.
  assert (Hnext : forall c rest' k z,
             pause c -> is_dash z = false ->
             adjacent dash_between_alnum (c :: rest' ++ [SPACE]) ->
             match k with
             | O => dash_between_alnum z (hd SPACE rest')
             | S _ => is_dash z = false
             end).
  { intros c rest' k z Hc Hz H. destruct k; [|exact Hz].
    apply adjacent_hd. now apply (adjacent_after_pause c z). }
  induction rest as [|c rest' IH]; intros prev skip x Hadj Hskip Hx.
  - destruct skip; simpl.
    + split; [exact Hx|exact I].
    + split; [|exact I]. now apply plain_pair.
  - cbn [app] in Hadj. pose proof (adjacent_tail _ _ _ Hadj) as Hadj'.
    destruct skip as [|k].
    + cbn [hd] in Hx.
      assert (Hlit : adjacent dash_between_alnum
                       (x :: flat_map (token_text repl)
                               (Lit c :: scan matcher (Some c) 0 rest')
                          ++ [SPACE])).
      { cbn [flat_map token_text app]. apply adjacent_cons.
        split; [exact Hx|].
        apply IH; [exact Hadj'|constructor|]. now apply adjacent_hd. }
      cbn [scan].
      destruct (matcher prev (c :: rest')) as [[|k]|] eqn:E;
        [exact Hlit| |exact Hlit].
      pose proof (Hmatch _ _ _ E) as Hm. cbn [firstn] in Hm.
      inversion Hm as [|? ? Hc Hk]; subst.
      cbn [flat_map token_text]. rewrite <- app_assoc.
      apply adjacent_pause_block; [apply Hrepl| |].
      * intros z Hz. apply IH; [exact Hadj'|exact Hk|].
        now apply (Hnext c).
      * exact (beside_pause_r x c Hc Hx).
    + cbn [firstn] in Hskip. inversion Hskip as [|? ? Hc Hk]; subst.
      cbn [scan]. apply IH; [exact Hadj'|exact Hk|].
      now apply (Hnext c).
Qed.

Lemma re_sub_flanked (matcher : option char -> str -> option nat)
  (repl : str -> str) (text : str) :
  (forall prev s n, matcher prev s = Some n -> Forall pause (firstn n s)) ->
  (forall m, Forall pause (repl m)) ->
  flanked text -> flanked (re_sub matcher repl text).
Proof.
  intros Hmatch Hrepl H. unfold flanked, re_sub, tokens.
  apply scan_flanked; try assumption.
  - exact (adjacent_tail _ _ _ H).
  - constructor.
  - now apply adjacent_hd.
Qed.

Lemma space_run_pause (s : str) : Forall pause (firstn (space_run s) s).
Proof.
  induction s as [|c s IH]; [constructor|]. simpl.
  destruct (isspace c) eqn:E; [|constructor].
  constructor; [now apply pause_space|exact IH].
Qed.

Lemma match_spaces_comma_pause (prev : option char) (s : str) (n : nat) :
  match_spaces_comma prev s = Some n -> Forall pause (firstn n s).
Proof.
  unfold match_spaces_comma.
  destruct (space_run s) as [|k] eqn:Ek; [discriminate|].
  destruct (nth_error s (S k)) as [c|] eqn:Ec; [|discriminate].
  destruct (N.eqb_spec c COMMA) as [->|]; [|discriminate].
  intros [= <-]. change (Forall pause (firstn (S k + 1) s)).
  rewrite (firstn_succ_nth s (S k) COMMA Ec). apply Forall_app.
  split; [|constructor; [exact pause_COMMA|constructor]].
  rewrite <- Ek. apply space_run_pause.
Qed.

Lemma match_comma_spaces_pause (prev : option char) (s : str) (n : nat) :
  match_comma_spaces prev s = Some n -> Forall pause (firstn n s).
Proof.
  unfold match_comma_spaces. destruct s as [|c s]; [discriminate|].
  destruct (N.eqb_spec c COMMA) as [->|]; [|discriminate].
  intros [= <-]. cbn [Nat.add firstn].
  constructor; [exact pause_COMMA|apply space_run_pause].
Qed.

Lemma match_spaces_pause (prev : option char) (s : str) (n : nat) :
  match_spaces prev s = Some n -> Forall pause (firstn n s).
Proof.
  unfold match_spaces. destruct (space_run s) as [|k] eqn:Ek; [discriminate|].
  intros [= <-]. rewrite <- Ek. apply space_run_pause.
Qed.

Lemma lstrip_flanked (s : str) : flanked s -> flanked (lstrip s).
Proof.
  unfold flanked. induction s as [|c s IH]; intros H; [exact H|].
  simpl. destruct (isspace c) eqn:E; [|exact H].
  apply IH. cbn [app] in H. apply adjacent_cons in H as [_ H].
  apply (adjacent_after_pause c SPACE); [now apply pause_space|reflexivity|].
  exact H.
Qed.

Lemma rev_flanked (s : str) : flanked s -> flanked (rev s).
Proof.
  unfold flanked. intros H.
  apply (adjacent_rev _ _ dash_between_alnum_sym) in H.
  cbn [rev] in H. rewrite rev_app_distr in H. exact H.
Qed.

Lemma strip_flanked (s : str) : flanked s -> flanked (strip s).
Proof.
  intros H. unfold strip, rstrip.
  now apply rev_flanked, lstrip_flanked, rev_flanked, lstrip_flanked.
Qed.

Lemma normalize_spaces_flanked (text : str) :
  flanked text -> flanked (normalize_spaces text).
Proof.
  intros H. unfold normalize_spaces. apply strip_flanked.
  apply re_sub_flanked;
    [exact match_spaces_pause
    |intros _; constructor; [exact pause_SPACE|constructor]|].
  apply re_sub_flanked;
    [exact match_comma_spaces_pause
    |intros _; constructor; [exact pause_COMMA|];
     constructor; [exact pause_SPACE|constructor]|].
  apply re_sub_flanked;
    [exact match_spaces_comma_pause
    |intros _; constructor; [exact pause_COMMA|constructor]|].
  exact H.
Qed.

(** *** The ends of the buffer of the dash pass *)

Lemma dash_loop_buffer (eot : char) (rest : str) :
  forall prev chars,
    buffer_invariant prev (hd eot rest) chars ->
    exists p, buffer_invariant p eot (dash_loop eot prev rest chars).
Proof.
  induction rest as [|ch rest IH]; intros prev chars Hinv.
  - exists prev. exact Hinv.
  - cbn [dash_loop]. apply IH. now apply dash_step_invariant.
Qed.

Lemma dash_step_bottom (prev ch nxt : char) (chars : list char) :
  (chars = [] -> isalnum prev = false) ->
  is_dash (last chars COMMA) = false ->
  dash_step prev ch nxt chars <> []
  /\ is_dash (last (dash_step prev ch nxt chars) COMMA) = false.
Proof.
  intros Hprev Hlast. unfold dash_step.
  destruct (is_dash ch) eqn:Hch.
  - destruct (isalnum prev && isalnum nxt) eqn:Hflank.
    + apply andb_true_iff in Hflank as [Hp _].
      destruct chars as [|c chars']; [rewrite Hprev in Hp; congruence|].
      split; [discriminate|exact Hlast].
    + destruct chars as [|c chars']; [split; [discriminate|reflexivity]|].
      destruct (c =? SPACE)%N.
      * split; [discriminate|].
        destruct chars' as [|b chars'']; [reflexivity|exact Hlast].
      * destruct (c =? COMMA)%N.
        -- destruct (negb (nxt =? SPACE)%N);
             (split; [discriminate|exact Hlast]).
        -- split; [discriminate|exact Hlast].
  - split; [discriminate|].
    destruct chars as [|c chars']; [exact Hch|exact Hlast].
Qed.

Lemma dash_loop_bottom (eot : char) (rest : str) :
  forall prev chars,
    (chars = [] -> isalnum prev = false) ->
    is_dash (last chars COMMA) = false ->
    is_dash (last (dash_loop eot prev rest chars) COMMA) = false.
Proof.
  induction rest as [|ch rest IH]; intros prev chars Hprev Hlast;
    [exact Hlast|].
  cbn [dash_loop].
  destruct (dash_step_bottom prev ch (hd eot rest) chars Hprev Hlast)
    as [Hne Hl].
  apply IH; [|exact Hl]. intros E. contradiction.
Qed.

Lemma flanked_intro (s : str) :
  adjacent dash_between_alnum s ->
  is_dash (hd COMMA s) = false ->
  is_dash (last s COMMA) = false ->
  flanked s.
Proof.
  intros Hadj Hhd Hlast. unfold flanked.
  destruct s as [|c r]; [simpl; split; [now apply plain_pair|exact I]|].
  apply adjacent_cons. split; [now apply plain_pair|].
  change (adjacent dash_between_alnum ((c :: r) ++ [SPACE])).
  destruct (exists_last (l := c :: r)) as (l & x & E); [discriminate|].
  rewrite E in *. rewrite last_last in Hlast.
  rewrite <- app_assoc. cbn [app]. apply adjacent_snoc; [exact Hadj|].
  now apply plain_pair.
Qed.

Lemma replace_dashes_ends (text : str) : flanked (replace_dashes text).
Proof.
  apply flanked_intro; [apply replace_dashes_flanked| |];
    unfold replace_dashes.
  - pose proof (dash_loop_bottom SPACE text SPACE []
                  (fun _ => isalnum_SPACE) eq_refl) as H.
    destruct (dash_loop SPACE SPACE text []) as [|c l] using rev_ind;
      [reflexivity|].
    rewrite last_last in H. rewrite rev_app_distr. exact H.
  - destruct (dash_loop_buffer SPACE text SPACE []) as (p & _ & _ & Htop).
    { split; [|split].
      - rewrite isalnum_SPACE. discriminate.
      - exact I.
      - discriminate. }
    destruct (dash_loop SPACE SPACE text []) as [|c l]; [reflexivity|].
    cbn [rev]. rewrite last_last.
    destruct (is_dash c) eqn:Ec; [|reflexivity].
    specialize (Htop c l eq_refl Ec). rewrite isalnum_SPACE in Htop.
    discriminate.
Qed.

Lemma normalize_for_tts_ends (text : str) : flanked (normalize_for_tts text).
Proof.
  unfold normalize_for_tts. apply normalize_spaces_flanked, replace_dashes_ends.
Qed.

Lemma adjacent_mid (P : char -> char -> Prop) (l1 l2 : str) (x y : char) :
  adjacent P (l1 ++ x :: y :: l2) -> P x y.
Proof. intros H. apply adjacent_app_r in H. apply H. Qed.

(** X14.  Every dash left in the normalized text stands directly between
    two alphanumeric characters: it is neither the first nor the last
    character, and its two neighbours are alphanumeric. *)
Theorem normalize_for_tts_dashes_flanked (text a b : str) (d : char) :
  normalize_for_tts text = a ++ d :: b -> is_dash d = true ->
  exists a' x y b',
    a = a' ++ [x] /\ b = y :: b'
    /\ isalnum x = true /\ isalnum y = true.
Proof.
  intros E Hd. pose proof (normalize_for_tts_ends text) as H.
  unfold flanked in H. rewrite E in H.
  assert (Hr : dash_between_alnum d (hd SPACE b)).
  { apply (adjacent_mid _ (SPACE :: a) (tl (b ++ [SPACE]))).
    cbn [app]. rewrite <- app_assoc in H. cbn [app] in H.
    destruct b; exact H. }
  assert (Hl : dash_between_alnum (last a SPACE) d).
  { rewrite <- app_assoc in H. cbn [app] in H.
    destruct a as [|c r] using rev_ind.
    - apply H.
    - rewrite last_last. rewrite <- app_assoc in H.
      apply (adjacent_mid _ (SPACE :: r) (b ++ [SPACE])). exact H. }
  destruct Hr as [Hr _]. destruct Hl as [_ Hl].
  specialize (Hr Hd). specialize (Hl Hd).
  destruct a as [|x a'] using rev_ind;
    [simpl in Hl; rewrite isalnum_SPACE in Hl; discriminate|].
  rewrite last_last in Hl.
  destruct b as [|y b'];
    [simpl in Hr; rewrite isalnum_SPACE in Hr; discriminate|].
  exists a', x, y, b'. auto.
Qed.
End Hyphens.

Lemma normalize_for_tts_dashes_flanked_witness :
  normalize_for_tts (lit "well-known - yes")
  = lit "well" ++ HYPHEN :: lit "known, yes"
  /\ is_dash HYPHEN = true
  /\ exists a' x y b',
       lit "well" = a' ++ [x] /\ lit "known, yes" = y :: b'
       /\ isalnum x = true /\ isalnum y = true.
Proof.
  split; [vm_compute; reflexivity|]. split; [reflexivity|].
  apply (normalize_for_tts_dashes_flanked (lit "well-known - yes")
           (lit "well") (lit "known, yes") HYPHEN);
    [vm_compute; reflexivity|reflexivity].
Defined.

(** ** The sentences of a paragraph *)

Lemma is_terminal_not_space (c : char) :
  is_terminal c = true -> isspace c = false.
Proof.
  unfold is_terminal, char_in.
  change (lit ".!?") with [46%N; 33%N; 63%N]. cbn [existsb]. intros H.
  repeat (apply orb_true_iff in H as [H|H];
          [apply N.eqb_eq in H; subst; reflexivity|]).
  discriminate.
Qed.

Lemma space_not_terminal (c : char) :
  isspace c = true -> is_terminal c = false.
Proof.
  intros Hc. destruct (is_terminal c) eqn:E; [|reflexivity].
  apply is_terminal_not_space in E. congruence.
Qed.

Lemma space_run_succ (c : char) (s : str) (k : nat) :
  space_run (c :: s) = S k -> isspace c = true /\ space_run s = k.
Proof. simpl. destruct (isspace c); [|discriminate]. intros [= <-]. auto. Qed.

Lemma match_after_terminal_hit (prev : option char) (c : char) (s : str)
  (k : nat) :
  match_after_terminal prev (c :: s) = Some (S k) ->
  (exists p, prev = Some p /\ is_terminal p = true)
  /\ isspace c = true /\ space_run s = k.
Proof.
  unfold match_after_terminal. destruct prev as [p|]; [|discriminate].
  fold (is_terminal p). destruct (is_terminal p) eqn:Ep; [|discriminate].
  destruct (space_run (c :: s)) as [|n] eqn:En; [discriminate|].
  intros [= <-]. split; [eauto|]. now apply space_run_succ.
Qed.

Lemma match_after_terminal_miss (p c : char) (s : str) :
  (forall k, match_after_terminal (Some p) (c :: s) <> Some (S k)) ->
  no_break p c.
Proof.
  intros Hmiss Hp. destruct (isspace c) eqn:Ec; [|reflexivity].
  exfalso. unfold match_after_terminal in Hmiss. fold (is_terminal p) in Hmiss.
  rewrite Hp in Hmiss. simpl in Hmiss. rewrite Ec in Hmiss.
  exact (Hmiss _ eq_refl).
Qed.

Lemma split_tokens_nonempty (ts : list token) : split_tokens ts <> [].
Proof.
  induction ts as [|[c|m] ts IH]; cbn [split_tokens]; try discriminate.
  destruct (split_tokens ts); discriminate.
Qed.

Lemma split_tokens_one (ts : list token) (p : str) :
  split_tokens ts = [p] -> flat_map (token_text (fun m => m)) ts = p.
Proof.
  revert p. induction ts as [|[c|m] ts IH]; intros p; cbn [split_tokens].
  - now intros [= <-].
  - destruct (split_tokens ts) as [|q qs] eqn:E;
      [now destruct (split_tokens_nonempty ts)|].
    intros [= <- ->]. cbn [flat_map token_text app]. now rewrite (IH q).
  - intros [= <- E]. now destruct (split_tokens_nonempty ts).
Qed.

Lemma last_cons (c d : char) (l : str) : last (c :: l) d = last l c.
Proof.
  revert c d. induction l as [|x l IH]; intros c d; [reflexivity|].
  change (last (c :: x :: l) d) with (last (x :: l) d).
  now rewrite !IH.
Qed.

Lemma last_terminal_default (p : str) (d d' : char) :
  is_terminal d' = false ->
  is_terminal (last p d') = true -> is_terminal (last p d) = true.
Proof.
  intros Hd'. destruct p as [|c p]; [simpl; congruence|].
  now rewrite !last_cons.
Qed.

(** The pieces between the hits: each piece before a hit ends with the
    terminal mark that the hit looks back at. *)
Lemma scan_terminals (rest : str) :
  forall prev skip,
    Forall (fun c => isspace c = true) (firstn skip rest) ->
    match split_tokens (scan match_after_terminal prev skip rest) with
    | p0 :: ps =>
        (ps <> [] ->
         is_terminal (last p0 match skip, prev with
                              | O, Some p => p
                              | _, _ => SPACE
                              end) = true)
        /\ Forall ends_with_terminal (removelast ps)
    | [] => False
    end.
Proof.
  induction rest as [|c rest IH]; intros prev skip Hskip.
  - cbn [scan split_tokens]. split; [intros H; now destruct H|constructor].
  - destruct skip as [|k].
    + cbn [scan].
      destruct (match_after_terminal prev (c :: rest)) as [[|k]|] eqn:E.
      1,3: cbn [split_tokens];
        specialize (IH (Some c) 0 (Forall_nil _));
        destruct (split_tokens (scan match_after_terminal (Some c) 0 rest))
          as [|p0 ps]; [contradiction|];
        destruct IH as [Hlast Hall]; split; [|exact Hall];
        intros Hne; rewrite last_cons; now apply Hlast.
      apply match_after_terminal_hit in E
        as ((p & -> & Hp) & Hc & Hrun).
      assert (Hk : Forall (fun c => isspace c = true) (firstn k rest)).
      { rewrite <- Hrun. clear. induction rest as [|x r IHr]; simpl;
          [constructor|].
        destruct (isspace x) eqn:Ex; [|constructor].
        constructor; assumption. }
      specialize (IH (Some c) k Hk). cbn [split_tokens].
      destruct (split_tokens (scan match_after_terminal (Some c) k rest))
        as [|p0 ps]; [contradiction|].
      destruct IH as [Hlast Hall]. split; [intros _; exact Hp|].
      destruct ps as [|q qs]; [constructor|].
      change (removelast (p0 :: q :: qs)) with (p0 :: removelast (q :: qs)).
      constructor; [|exact Hall].
      apply (last_terminal_default p0 SPACE
               match k with O => c | S _ => SPACE end);
        [destruct k; [now apply space_not_terminal|reflexivity]|].
      apply Hlast. discriminate.
    + cbn [firstn] in Hskip. inversion Hskip as [|? ? Hc Hk]; subst.
      cbn [scan]. specialize (IH (Some c) k Hk).
      destruct (split_tokens (scan match_after_terminal (Some c) k rest))
        as [|p0 ps]; [contradiction|].
      destruct IH as [Hlast Hall]. split; [|exact Hall].
      intros Hne.
      apply (last_terminal_default p0 SPACE
               match k with O => c | S _ => SPACE end);
        [destruct k; [now apply space_not_terminal|reflexivity]|].
      now apply Hlast.
Qed.

Lemma re_split_terminals (text : str) :
  Forall ends_with_terminal
    (removelast (re_split match_after_terminal text)).
Proof.
  unfold re_split, tokens.
  pose proof (scan_terminals text None 0 (Forall_nil _)) as H.
  destruct (split_tokens (scan match_after_terminal None 0 text))
    as [|p0 ps]; [contradiction|].
  destruct H as [Hlast Hall]. destruct ps as [|q qs]; [constructor|].
  change (removelast (p0 :: q :: qs)) with (p0 :: removelast (q :: qs)).
  constructor; [|exact Hall]. apply Hlast. discriminate.
Qed.

Lemma strip_ends_with_terminal (p : str) :
  ends_with_terminal p ->
  nonempty (strip p) = true /\ ends_with_terminal (strip p).
Proof.
  unfold ends_with_terminal. intros H.
  destruct p as [|c r] using rev_ind; [discriminate|].
  rewrite last_last in H.
  rewrite (strip_snoc_solid _ _ (is_terminal_not_space c H)).
  rewrite last_last. split; [|exact H].
  destruct (lstrip r); reflexivity.
Qed.

Lemma removelast_map_filter (Q : str -> Prop) (l : list str) :
  (forall p, Q p -> nonempty (strip p) = true /\ Q (strip p)) ->
  Forall Q (removelast l) ->
  Forall Q (removelast
              (List.map strip (filter (fun p => nonempty (strip p)) l))).
Proof.
  intros HQ. induction l as [|p l IH]; intros H; [constructor|].
  destruct l as [|q l].
  - cbn [filter]. destruct (nonempty (strip p)); constructor.
  - change (removelast (p :: q :: l)) with (p :: removelast (q :: l)) in H.
    inversion H as [|? ? Hp Hrest]; subst. specialize (IH Hrest).
    destruct (HQ p Hp) as [Hne Hs].
    change (filter (fun p => nonempty (strip p)) (p :: q :: l))
      with (if nonempty (strip p)
            then p :: filter (fun p => nonempty (strip p)) (q :: l)
            else filter (fun p => nonempty (strip p)) (q :: l)).
    rewrite Hne. cbn [List.map].
    destruct (List.map strip (filter (fun p => nonempty (strip p)) (q :: l)))
      as [|x xs]; [constructor|].
    change (removelast (strip p :: x :: xs))
      with (strip p :: removelast (x :: xs)).
    constructor; assumption.
Qed.

(** X15.  Every sentence that [split_into_sentences] returns, except
    the last one, ends with one of the marks [.], [!] and [?]. *)
Theorem split_into_sentences_terminals (paragraph : str) :
  Forall ends_with_terminal (removelast (split_into_sentences paragraph)).
Proof.
  unfold split_into_sentences.
  destruct (negb (nonempty _)); [constructor|].
  destruct (_ =? 1)%nat; [constructor|].
  apply removelast_map_filter; [exact strip_ends_with_terminal|].
  apply re_split_terminals.
Qed.

(** No piece between two hits holds a place where the pattern matches. *)
Lemma scan_unbroken (rest : str) :
  forall prev skip,
    match split_tokens (scan match_after_terminal prev skip rest) with
    | p0 :: ps =>
        adjacent no_break match skip, prev with
                          | O, Some p => p :: p0
                          | _, _ => p0
                          end
        /\ Forall (adjacent no_break) ps
    | [] => False
    end.
Proof.
  induction rest as [|c rest IH]; intros prev skip.
  - cbn [scan split_tokens]. split; [|constructor].
    destruct skip; [destruct prev|]; exact I.
  - destruct skip as [|k].
    + cbn [scan].
      destruct (match_after_terminal prev (c :: rest)) as [[|k]|] eqn:E.
      1,3: cbn [split_tokens];
        specialize (IH (Some c) 0);
        destruct (split_tokens (scan match_after_terminal (Some c) 0 rest))
          as [|p0 ps]; [contradiction|];
        destruct IH as [Hadj Hall]; split; [|exact Hall];
        destruct prev as [p|]; [|exact Hadj];
        apply adjacent_cons; split; [|exact Hadj];
        apply (match_after_terminal_miss p c rest); intros k; congruence.
      specialize (IH (Some c) k). cbn [split_tokens].
      destruct (split_tokens (scan match_after_terminal (Some c) k rest))
        as [|p0 ps]; [contradiction|].
      destruct IH as [Hadj Hall]. split; [destruct prev; exact I|].
      constructor; [|exact Hall].
      destruct k; [exact (adjacent_tail _ _ _ Hadj)|exact Hadj].
    + cbn [scan]. specialize (IH (Some c) k).
      destruct (split_tokens (scan match_after_terminal (Some c) k rest))
        as [|p0 ps]; [contradiction|].
      destruct IH as [Hadj Hall]. split; [|exact Hall].
      destruct k; [exact (adjacent_tail _ _ _ Hadj)|exact Hadj].
Qed.

Lemma re_split_unbroken (text : str) :
  Forall (adjacent no_break) (re_split match_after_terminal text).
Proof.
  unfold re_split, tokens. pose proof (scan_unbroken text None 0) as H.
  destruct (split_tokens (scan match_after_terminal None 0 text))
    as [|p0 ps]; [contradiction|].
  destruct H as [H0 Hall]. now constructor.
Qed.

Lemma split_into_sentences_no_break (paragraph : str) :
  Forall (adjacent no_break) (split_into_sentences paragraph).
Proof.
  unfold split_into_sentences.
  set (text := re_sub match_spaces (fun _ => [SPACE]) (strip paragraph)).
  destruct (negb (nonempty text)); [constructor|].
  pose proof (re_split_unbroken text) as H.
  destruct (Nat.eqb_spec (length (re_split match_after_terminal text)) 1)
    as [E|_].
  - destruct (re_split match_after_terminal text) as [|p [|q l]] eqn:Ep;
      try discriminate.
    unfold re_split in Ep. apply split_tokens_one in Ep.
    rewrite tokens_text in Ep. now subst p.
  - induction H as [|p l Hp _ IH]; [constructor|].
    cbn [filter]. destruct (nonempty (strip p)); [|exact IH].
    cbn [List.map]. constructor; [now apply adjacent_strip|exact IH].
Qed.

(** X16.  No sentence that [split_into_sentences] returns holds a
    sentence boundary: inside a sentence, none of the marks [.], [!] and
    [?] is followed by whitespace. *)
Theorem split_into_sentences_unbroken (paragraph : str) :
  Forall (adjacent no_break) (split_into_sentences paragraph).
Proof. apply split_into_sentences_no_break. Qed.

(** ** Where the commas of the chunks are *)

Lemma part_of_refl (s : str) : part_of s s.
Proof. exists [], []. now rewrite app_nil_r. Qed.

Lemma part_of_trans (t u s : str) : part_of t u -> part_of u s -> part_of t s.
Proof.
  intros (a & b & ->) (a' & b' & ->). exists (a' ++ a), (b ++ b').
  now rewrite !app_assoc.
Qed.

Lemma part_of_strip (s : str) : part_of (strip s) s.
Proof. exact (strip_infix s). Qed.

Lemma part_of_py_slice (s : str) (a b : Z) : part_of (py_slice s a b) s.
Proof.
  unfold py_slice. cbv zeta.
  set (m := Z.to_nat (slice_bound (len s) a)). set (n := Z.to_nat _).
  exists (firstn m s), (skipn n (skipn m s)). now rewrite !firstn_skipn.
Qed.

Lemma part_of_strip_slice (s : str) (a b : Z) :
  part_of (strip (py_slice s a b)) s.
Proof.
  eapply part_of_trans; [apply part_of_strip|apply part_of_py_slice].
Qed.

Lemma comma_last_only_part (t s : str) :
  part_of t s -> comma_last_only s -> comma_last_only t.
Proof.
  intros (x & y & ->) Hs a b ->.
  specialize (Hs (x ++ a) (b ++ y)). rewrite <- !app_assoc in Hs.
  specialize (Hs eq_refl). now apply app_eq_nil in Hs.
Qed.

Lemma comma_last_only_none (s : str) : ~ In COMMA s -> comma_last_only s.
Proof.
  intros Hno a b ->. exfalso. apply Hno, in_or_app. right. now left.
Qed.

Lemma comma_last_only_snoc (body : str) :
  ~ In COMMA body -> comma_last_only (body ++ [COMMA]).
Proof.
  intros Hno a b E. destruct b as [|x b] using rev_ind; [reflexivity|].
  exfalso. clear IHb.
  change (a ++ COMMA :: b ++ [x]) with (a ++ (COMMA :: b) ++ [x]) in E.
  rewrite app_assoc in E. apply app_inj_tail in E as [-> _].
  apply Hno, in_or_app. right. now left.
Qed.

(** *** Tier 3 and Tier 2 return parts of their input *)

Lemma fallback_loop_parts (text : str) (max_len : Z) (base_rule : string) :
  forall fuel start chunks out,
    Forall (fun p => part_of (piece_chunk p) text) chunks ->
    fallback_loop fuel text max_len base_rule start chunks = Done out ->
    Forall (fun p => part_of (piece_chunk p) text) out.
Proof.
  induction fuel as [|fuel IH]; intros start chunks out Hc Hrun;
    [discriminate|].
  cbn [fallback_loop] in Hrun.
  destruct (start <? len text)%Z; [|now inversion Hrun; subst].
  destruct (skip_spaces text (Z.to_nat (len text - start)) start) as [s1| |];
    cbn [bind] in Hrun; try discriminate.
  destruct (s1 >=? len text)%Z; [now inversion Hrun; subst|].
  destruct (len text - s1 <=? max_len)%Z.
  - inversion Hrun; subst. apply append_piece_Forall; [assumption|].
    intros _. apply part_of_strip_slice.
  - destruct (choose_cut text max_len base_rule s1) as [cut rule].
    eapply IH; [|exact Hrun].
    apply append_piece_Forall; [assumption|].
    intros _. apply part_of_strip_slice.
Qed.

Lemma fallback_parts (fuel : nat) (text : str) (max_len : Z)
  (base_rule : string) (out : list piece) :
  fallback_split_by_commas_and_conjs fuel text max_len base_rule = Done out ->
  Forall (fun p => part_of (piece_chunk p) text) out.
Proof. apply fallback_loop_parts. constructor. Qed.

Lemma parts_of_part (t s : str) (l : list piece) :
  part_of t s ->
  Forall (fun p => part_of (piece_chunk p) t) l ->
  Forall (fun p => part_of (piece_chunk p) s) l.
Proof.
  intros Hts. apply Forall_impl. intros p Hp.
  exact (part_of_trans _ _ _ Hp Hts).
Qed.

Lemma parts_comma_last_only (s : str) (l : list piece) :
  comma_last_only s ->
  Forall (fun p => part_of (piece_chunk p) s) l ->
  Forall (fun p => comma_last_only (piece_chunk p)) l.
Proof.
  intros Hs. apply Forall_impl. intros p Hp.
  exact (comma_last_only_part _ _ Hp Hs).
Qed.

(** *** The segments of Tier 1 *)

Lemma positions_from_cons (k : nat) (c : char) (s : str) :
  positions_from k (c :: s)
  = if (c =? COMMA)%N then k :: positions_from (S k) s
    else positions_from (S k) s.
Proof.
  unfold positions_from. cbn [length seq combine filter snd].
  now destruct (c =? COMMA)%N.
Qed.

Lemma positions_from_index (s : str) :
  forall k,
    positions_from k s
    = match index_of COMMA s with
      | None => []
      | Some j => (k + j) :: positions_from (k + j + 1) (skipn (j + 1) s)
      end.
Proof.
  induction s as [|c s IH]; intros k; [reflexivity|].
  rewrite positions_from_cons. cbn [index_of].
  destruct (c =? COMMA)%N.
  - rewrite Nat.add_0_r. replace (k + 1) with (S k) by lia. reflexivity.
  - rewrite (IH (S k)). destruct (index_of COMMA s) as [j|]; [|reflexivity].
    cbn [option_map]. replace (k + S j) with (S k + j) by lia.
    replace (S j + 1) with (S (j + 1)) by lia. reflexivity.
Qed.

Lemma skipn_length_app (pre rest : str) :
  skipn (length pre) (pre ++ rest) = rest.
Proof. induction pre; [reflexivity|assumption]. Qed.

Lemma Forall_snoc_if (Q : str -> Prop) (segments : list str) (seg : str) :
  Forall Q segments -> Q seg ->
  Forall Q (if nonempty seg then segments ++ [seg] else segments).
Proof.
  intros Hs Hq. destruct (nonempty seg); [|exact Hs].
  apply Forall_app. split; [exact Hs|]. now constructor.
Qed.

Lemma comma_segments_commas (s : str) :
  forall n rest pre segments,
    length rest <= n -> s = pre ++ rest ->
    Forall comma_last_only segments ->
    Forall comma_last_only
      (comma_segments s (positions_from (length pre) rest) (length pre)
         segments).
Proof.
  induction n as [|n IH]; intros rest pre segments Hn Hs Hseg;
    rewrite positions_from_index.
  - destruct rest; [|simpl in Hn; lia]. cbn [index_of comma_segments].
    apply Forall_snoc_if; [exact Hseg|].
    eapply comma_last_only_part; [apply part_of_strip|].
    rewrite py_slice_suffix by (subst s; unfold len; rewrite length_app; lia).
    rewrite Nat2Z.id, Hs, skipn_length_app. now intros a b E; destruct a.
  - destruct (index_of COMMA rest) as [j|] eqn:E.
    + pose proof (index_of_bound COMMA rest j E) as [Hj Hnth].
      cbn [comma_segments].
      assert (Hlen : length pre + j + 1
                     = length (pre ++ firstn (j + 1) rest)).
      { rewrite length_app, length_firstn. lia. }
      rewrite py_slice_nat
        by (subst s; rewrite length_app; lia).
      replace (length pre + j + 1 - length pre) with (j + 1) by lia.
      assert (Hsk : skipn (length pre) s = rest)
        by (rewrite Hs; apply skipn_length_app).
      rewrite Hsk, Hlen.
      apply IH.
      * rewrite length_skipn. lia.
      * rewrite <- app_assoc, firstn_skipn. exact Hs.
      * apply Forall_snoc_if; [exact Hseg|].
        eapply comma_last_only_part; [apply part_of_strip|].
        rewrite (firstn_succ_nth rest j COMMA Hnth).
        apply comma_last_only_snoc. intros Hin.
        apply In_firstn_nth in Hin as (i & Hi & Hc).
        exact (index_of_first COMMA rest j i E Hi Hc).
    + cbn [comma_segments]. apply Forall_snoc_if; [exact Hseg|].
      eapply comma_last_only_part; [apply part_of_strip|].
      rewrite py_slice_suffix
        by (subst s; unfold len; rewrite length_app; lia).
      rewrite Nat2Z.id, Hs, skipn_length_app.
      apply comma_last_only_none, index_of_none, E.
Qed.

Lemma comma_positions_none (s : str) :
  comma_positions s = [] -> ~ In COMMA s.
Proof.
  change (comma_positions s) with (positions_from 0 s).
  rewrite positions_from_index.
  destruct (index_of COMMA s) eqn:E; [discriminate|].
  intros _. now apply index_of_none.
Qed.

Lemma collect_In_Forall (Q : piece -> Prop)
  (run : str -> outcome (list piece)) (items : list str) (out : list piece) :
  (forall x l, In x items -> run x = Done l -> Forall Q l) ->
  collect (List.map run items) = Done out -> Forall Q out.
Proof.
  intros Hrun. apply collect_Forall. intros m l Hm E.
  apply in_map_iff in Hm as (x & <- & Hx). now apply (Hrun x).
Qed.

Section Commas.
Context {db : UnicodeDB}.

Lemma clause_pieces_parts (fuel : nat) (s : str) (max_len : Z)
  (span : nat * nat) (l : list piece) :
  clause_pieces fuel s max_len span = Done l ->
  Forall (fun p => part_of (piece_chunk p) s) l.
Proof.
  unfold clause_pieces. cbv zeta.
  destruct (negb (nonempty _)); [intros [= <-]; constructor|].
  destruct (_ <=? max_len)%Z.
  - intros [= <-]. constructor; [|constructor]. apply part_of_strip_slice.
  - intros H. apply fallback_parts in H.
    eapply parts_of_part; [|exact H]. apply part_of_strip_slice.
Qed.

Lemma split_by_subordinators_parts (fuel : nat) (s : str) (max_len : Z)
  (out : list piece) :
  split_by_subordinators fuel s max_len = Done out ->
  Forall (fun p => part_of (piece_chunk p) s) out.
Proof.
  rewrite split_by_subordinators_spans.
  destruct (find_subordinator_positions s) as [|s0 starts].
  - apply fallback_parts.
  - apply collect_map_Forall. intros span l. apply clause_pieces_parts.
Qed.

Lemma segment_pieces_parts (fuel : nat) (max_len : Z) (seg : str)
  (l : list piece) :
  segment_pieces fuel max_len seg = Done l ->
  Forall (fun p => part_of (piece_chunk p) seg) l.
Proof.
  unfold segment_pieces. destruct (_ <=? max_len)%Z.
  - intros [= <-]. constructor; [|constructor]. apply part_of_refl.
  - apply split_by_subordinators_parts.
Qed.

Lemma split_long_sentence_comma_last (fuel : nat) (s : str) (max_len : Z)
  (out : list piece) :
  split_long_sentence fuel s max_len = Done out ->
  Forall (fun p => comma_last_only (piece_chunk p)) out.
Proof.
  unfold split_long_sentence.
  destruct (comma_positions s) as [|p0 ps] eqn:E.
  - cbn [length Nat.ltb Nat.leb]. intros H.
    apply split_by_subordinators_parts in H.
    eapply parts_comma_last_only; [|exact H].
    now apply comma_last_only_none, comma_positions_none.
  - cbn [length Nat.ltb Nat.leb]. rewrite <- E.
    rewrite segment_loop_collect. intros H. apply bind_done_inv in H.
    revert H. apply collect_In_Forall. intros seg l Hseg Hl.
    apply segment_pieces_parts in Hl.
    eapply parts_comma_last_only; [|exact Hl].
    pose proof (comma_segments_commas s (length s) s [] []
                  (le_n _) eq_refl (Forall_nil _)) as Hall.
    rewrite Forall_forall in Hall. now apply Hall.
Qed.

(** X17.  No piece that [split_long_sentence] returns has a comma
    inside: a comma of a piece is its last character. *)
Theorem split_long_sentence_commas (fuel : nat) (s : str) (max_len : Z)
  (out : list piece) :
  split_long_sentence fuel s max_len = Done out ->
  Forall (fun p => comma_last_only (piece_chunk p)) out.
Proof. apply split_long_sentence_comma_last. Qed.

Lemma sentence_pieces_comma_last (fuel : nat) (max_len : Z) (sent : str)
  (l : list piece) :
  sentence_pieces fuel max_len sent = Done l ->
  Forall (fun p => piece_rule p <> SENTENCE ->
                   comma_last_only (piece_chunk p)) l.
Proof.
  unfold sentence_pieces. cbv zeta.
  destruct (negb (nonempty _)); [intros [= <-]; constructor|].
  destruct (_ <=? max_len)%Z.
  - intros [= <-]. constructor; [|constructor]. intros H. now destruct H.
  - intros H. apply split_long_sentence_comma_last in H.
    revert H. apply Forall_impl. auto.
Qed.

Lemma final_chunks_comma_last (ps : list piece) :
  Forall (fun p => piece_rule p <> SENTENCE ->
                   comma_last_only (piece_chunk p)) ps ->
  Forall (fun c => Chunk.rule c <> SENTENCE ->
                   comma_last_only (Chunk.chunk c)) (final_chunks ps).
Proof.
  induction 1 as [|p ps Hp _ IH]; [constructor|].
  cbn [final_chunks]. destruct (negb (nonempty (strip (piece_chunk p))));
    [exact IH|]. constructor; [|exact IH].
  cbn [Chunk.rule Chunk.chunk]. intros Hr.
  eapply comma_last_only_part; [apply part_of_strip|]. now apply Hp.
Qed.

(** X18.  A chunk of [chunk_text] that is not a whole sentence (its rule
    is not [sentence]) has no comma inside: a comma of such a chunk is
    its last character. *)
Theorem chunk_text_commas (fuel : nat) (text : str) (max_len : Z)
  (chunks : list Chunk.t) :
  chunk_text fuel text max_len = Done chunks ->
  Forall (fun c => Chunk.rule c <> SENTENCE ->
                   comma_last_only (Chunk.chunk c)) chunks.
Proof.
  unfold chunk_text. intros H.
  destruct (paragraph_loop fuel max_len _ []) as [out| |] eqn:E;
    cbn [bind] in H; try discriminate.
  inversion H; subst. apply final_chunks_comma_last.
  rewrite paragraph_loop_collect in E. apply bind_done_inv in E.
  revert E. apply collect_map_Forall. intros para l.
  unfold process_paragraph. rewrite sentence_loop_collect.
  intros Hl. apply bind_done_inv in Hl. revert Hl.
  apply collect_map_Forall. intros sent l'.
  apply sentence_pieces_comma_last.
Qed.
End Commas.

Lemma split_long_sentence_commas_witness :
  exists out,
    split_long_sentence 50
      (lit "Stay in, or go, because it rains and rains, I fear") 12
    = Done out
    /\ Forall (fun p => comma_last_only (piece_chunk p)) out.
Proof.
  eexists. split; [vm_compute; reflexivity|].
  apply (split_long_sentence_commas 50
           (lit "Stay in, or go, because it rains and rains, I fear") 12).
  vm_compute. reflexivity.
Defined.

Lemma chunk_text_commas_witness :
  exists chunks,
    chunk_text 50
      (lit "No, no. Stay in - or go, because it rains and rains, I fear.") 12
    = Done chunks
    /\ Forall (fun c => Chunk.rule c <> SENTENCE ->
                        comma_last_only (Chunk.chunk c)) chunks.
Proof.
  eexists. split; [vm_compute; reflexivity|].
  apply (chunk_text_commas 50
           (lit "No, no. Stay in - or go, because it rains and rains, I fear.")
           12).
  vm_compute. reflexivity.
Defined.

(** ** A budget of zero *)

Lemma trimmed_head (t : str) :
  trimmed t -> exists c r, t = c :: r /\ isspace c = false.
Proof.
  intros [Hne Hs]. pose proof (strip_shape t) as H. rewrite Hs in H.
  destruct t as [|c r]; [contradiction|]. eauto.
Qed.

Lemma trimmed_len (t : str) : trimmed t -> (len t <=? 0)%Z = false.
Proof.
  intros [Hne _]. destruct t as [|c r]; [contradiction|].
  apply Z.leb_gt. unfold len. simpl length. lia.
Qed.

Lemma trimmed_content (t : str) : trimmed t -> drop_ws t <> [].
Proof.
  intros H. destruct (trimmed_head t H) as (c & r & -> & Hc).
  simpl. rewrite Hc. discriminate.
Qed.

Lemma content_nonempty (l : list str) : drop_ws (concat l) <> [] -> l <> [].
Proof. intros H ->. now apply H. Qed.

Lemma fallback_zero (t : str) (base_rule : string) :
  trimmed t ->
  forall fuel,
    fallback_split_by_commas_and_conjs fuel t 0 base_rule = OutOfFuel.
Proof.
  intros H fuel. destruct (trimmed_head t H) as (c & r & -> & Hc).
  exact (fallback_loop_zero_diverges (c :: r) base_rule 0 c [] eq_refl Hc
           fuel).
Qed.

Lemma collect_stuck {A} (run : A -> outcome (list piece)) (x : A)
  (xs : list A) :
  run x = OutOfFuel -> collect (List.map run (x :: xs)) = OutOfFuel.
Proof. intros H. cbn [List.map collect]. now rewrite H. Qed.

Lemma clause_pieces_zero (fuel : nat) (t : str) (e : nat) :
  trimmed t -> 0 < e <= length t ->
  clause_pieces fuel t 0 (0, e) = OutOfFuel.
Proof.
  intros H He. destruct (trimmed_head t H) as (c & r & -> & Hc).
  unfold clause_pieces. cbn [fst snd].
  rewrite (py_slice_nat (c :: r) 0 e) by lia.
  rewrite Nat.sub_0_r. cbn [skipn].
  destruct e as [|e]; [lia|]. cbn [firstn].
  pose proof (strip_nonempty c (firstn e r) Hc) as Hne.
  assert (Ht : trimmed (strip (c :: firstn e r))).
  { apply trimmed_strip. now destruct (strip (c :: firstn e r)). }
  destruct (strip (c :: firstn e r)) as [|x y] eqn:E; [contradiction|].
  cbn [nonempty negb]. rewrite (trimmed_len _ Ht).
  now apply fallback_zero.
Qed.

Section ZeroBudget.
Context {db : UnicodeDB}.

Lemma split_by_subordinators_zero (t : str) :
  trimmed t -> forall fuel, split_by_subordinators fuel t 0 = OutOfFuel.
Proof.
  intros H fuel. rewrite split_by_subordinators_spans.
  destruct (find_subordinator_positions t) as [|s0 starts] eqn:E;
    [now apply fallback_zero|].
  assert (Hpos : 0 < length t).
  { destruct (trimmed_head t H) as (c & r & -> & _). simpl. lia. }
  assert (Hsorted : StronglySorted lt (with_leading_zero (s0 :: starts))).
  { apply with_leading_zero_sorted. rewrite <- E. apply sorted_set_sorted. }
  assert (Hrange : Forall (fun x => x < length t)
                     (with_leading_zero (s0 :: starts))).
  { apply Forall_forall. intros i Hi.
    apply with_leading_zero_In in Hi as [->|Hi]; [exact Hpos|].
    apply find_subordinator_positions_range. now rewrite E. }
  destruct (with_leading_zero_head (s0 :: starts)) as [rest Hz];
    [discriminate|].
  rewrite Hz in *. cbn [spans].
  set (e := match rest with e :: _ => e | [] => length t end).
  destruct (spans_In (0 :: rest) (length t) 0 e Hsorted Hrange) as [_ He];
    [now left|].
  apply collect_stuck. now apply clause_pieces_zero.
Qed.

Lemma segment_pieces_zero (seg : str) :
  trimmed seg -> forall fuel, segment_pieces fuel 0 seg = OutOfFuel.
Proof.
  intros H fuel. unfold segment_pieces. rewrite (trimmed_len seg H).
  now apply split_by_subordinators_zero.
Qed.

Lemma split_long_sentence_zero (s : str) :
  trimmed s -> forall fuel, split_long_sentence fuel s 0 = OutOfFuel.
Proof.
  intros H fuel. unfold split_long_sentence.
  destruct (0 <? length (comma_positions s))%nat;
    [|now apply split_by_subordinators_zero].
  destruct (enumerate_filter_sorted (fun p => (snd p =? COMMA)%N) s 0)
    as [Hs Hr].
  fold (enumerate s) in Hs, Hr. fold (comma_positions s) in Hs, Hr.
  destruct (comma_segments_content s (comma_positions s) 0 [] Hs Hr
              ltac:(lia) ltac:(constructor)) as [Ht Hc].
  change (drop_ws (concat []) ++ drop_ws (skipn 0 s)) with (drop_ws s) in Hc.
  rewrite segment_loop_collect.
  destruct (comma_segments s (comma_positions s) 0 []) as [|seg segs].
  - exfalso. apply (trimmed_content s H). symmetry. exact Hc.
  - inversion Ht as [|? ? Hseg _]; subst.
    rewrite (collect_stuck (segment_pieces fuel 0) seg segs);
      [reflexivity|now apply segment_pieces_zero].
Qed.

Lemma sentence_pieces_zero (sent : str) :
  trimmed sent -> forall fuel, sentence_pieces fuel 0 sent = OutOfFuel.
Proof.
  intros H fuel. unfold sentence_pieces. cbv zeta.
  destruct H as [Hne Hs]. rewrite Hs.
  destruct sent as [|c r] eqn:E; [contradiction|]. rewrite <- E in *.
  assert (Ht : trimmed sent) by (split; [now rewrite E|exact Hs]).
  rewrite E at 1. cbn [nonempty negb]. rewrite (trimmed_len sent Ht).
  now apply split_long_sentence_zero.
Qed.

Lemma process_paragraph_zero (paragraph : str) :
  drop_ws paragraph <> [] ->
  forall fuel, process_paragraph fuel paragraph 0 = OutOfFuel.
Proof.
  intros H fuel. unfold process_paragraph. rewrite sentence_loop_collect.
  pose proof (split_into_sentences_trimmed paragraph) as Ht.
  pose proof (split_into_sentences_content paragraph) as Hc.
  destruct (split_into_sentences paragraph) as [|sent sents].
  - exfalso. apply H. symmetry. exact Hc.
  - inversion Ht as [|? ? Hsent _]; subst.
    rewrite (collect_stuck (sentence_pieces fuel 0) sent sents);
      [reflexivity|now apply sentence_pieces_zero].
Qed.

(** X19.  With [max_len = 0], [chunk_text] returns for no text whose
    normalization is not empty: whatever the fuel, the Tier-3 loop is
    still cutting at the same offset when the fuel runs out. *)
Theorem chunk_text_zero_budget (text : str) :
  normalize_for_tts text <> [] ->
  forall fuel, chunk_text fuel text 0 = OutOfFuel.
Proof.
  intros H fuel. unfold chunk_text. rewrite paragraphs_of_normalized.
  assert (Ht : trimmed (normalize_for_tts text))
    by (split; [exact H|apply normalize_for_tts_strip]).
  destruct (normalize_for_tts text) as [|c r] eqn:E; [contradiction|].
  rewrite paragraph_loop_collect.
  rewrite (collect_stuck (fun para => process_paragraph fuel para 0)
             (c :: r) []); [reflexivity|].
  apply process_paragraph_zero. now apply trimmed_content.
Qed.
End ZeroBudget.

Lemma chunk_text_zero_budget_witness :
  normalize_for_tts (lit "Hi, there.") <> []
  /\ chunk_text 7 (lit "Hi, there.") 0 = OutOfFuel.
Proof.
  assert (H : normalize_for_tts (lit "Hi, there.") <> [])
    by (vm_compute; discriminate).
  split; [exact H|].
  exact (chunk_text_zero_budget (lit "Hi, there.") H 7).
Defined.

(** ** Chunks are parts of the normalized text *)

Lemma collapsed_fixed (s : str) :
  Forall (fun c => isspace c = true -> c = SPACE) s ->
  adjacent not_both_spaces s ->
  forall prev, collapsed prev 0 s = s.
Proof.
  induction 1 as [|c r Hc _ IH]; intros Hadj prev; [reflexivity|].
  rewrite collapsed_cons. specialize (IH (adjacent_tail _ _ _ Hadj)).
  destruct (isspace c) eqn:Ec; [|now rewrite IH].
  rewrite (Hc eq_refl).
  assert (Hrun : space_run r = 0).
  { destruct r as [|y r]; [reflexivity|].
    apply adjacent_cons in Hadj as [Hcy _]. simpl.
    destruct (isspace y) eqn:Ey; [|reflexivity].
    exfalso. apply Hcy. now split. }
  now rewrite Hrun, IH.
Qed.

Lemma part_of_cons (c : char) (t s : str) : part_of t s -> part_of t (c :: s).
Proof. intros (a & b & ->). now exists (c :: a), b. Qed.

Lemma part_of_app (m t s : str) : part_of t s -> part_of t (m ++ s).
Proof.
  intros (a & b & ->). exists (m ++ a), b. now rewrite <- app_assoc.
Qed.

Lemma split_tokens_parts (ts : list token) :
  match split_tokens ts with
  | p0 :: ps =>
      (exists b, flat_map (token_text (fun m => m)) ts = p0 ++ b)
      /\ Forall (fun p => part_of p (flat_map (token_text (fun m => m)) ts))
           ps
  | [] => False
  end.
Proof.
  induction ts as [|[c|m] ts IH]; cbn [split_tokens flat_map token_text].
  - split; [now exists []|constructor].
  - destruct (split_tokens ts) as [|p0 ps]; [contradiction|].
    destruct IH as [[b Hb] Hps]. split.
    + exists b. cbn [app]. now rewrite Hb.
    + revert Hps. apply Forall_impl. intros p. apply part_of_cons.
  - destruct (split_tokens ts) as [|p0 ps]; [contradiction|].
    destruct IH as [[b Hb] Hps]. split; [now eexists|].
    constructor.
    + apply part_of_app. exists [], b. exact Hb.
    + revert Hps. apply Forall_impl. intros p. apply part_of_app.
Qed.

Lemma re_split_parts (matcher : option char -> str -> option nat)
  (text : str) :
  Forall (fun p => part_of p text) (re_split matcher text).
Proof.
  unfold re_split. pose proof (split_tokens_parts (tokens matcher text)) as H.
  rewrite tokens_text in H.
  destruct (split_tokens (tokens matcher text)) as [|p0 ps]; [contradiction|].
  destruct H as [[b Hb] Hps]. constructor; [|exact Hps].
  exists [], b. exact Hb.
Qed.

Lemma stripped_parts (text : str) (ps : list str) :
  Forall (fun p => part_of p text) ps ->
  Forall (fun p => part_of p text)
    (List.map strip (filter (fun p => nonempty (strip p)) ps)).
Proof.
  induction 1 as [|p ps Hp _ IH]; [constructor|].
  cbn [filter]. destruct (nonempty (strip p)); [|exact IH].
  cbn [List.map]. constructor; [|exact IH].
  exact (part_of_trans _ _ _ (part_of_strip p) Hp).
Qed.

(** A text that is trimmed, with single spaces as its only whitespace. *)
Lemma split_into_sentences_parts (paragraph : str) :
  strip paragraph = paragraph ->
  Forall (fun c => isspace c = true -> c = SPACE) paragraph ->
  adjacent not_both_spaces paragraph ->
  Forall (fun s => part_of s paragraph) (split_into_sentences paragraph).
Proof.
  intros Hs Hall Hadj. unfold split_into_sentences. rewrite Hs.
  change (re_sub match_spaces (fun _ => [SPACE]) paragraph)
    with (collapsed None 0 paragraph).
  rewrite (collapsed_fixed paragraph Hall Hadj None).
  destruct (negb (nonempty paragraph)); [constructor|].
  destruct (_ =? 1)%nat.
  - constructor; [apply part_of_refl|constructor].
  - apply stripped_parts, re_split_parts.
Qed.

Lemma comma_segments_parts (s : str) :
  forall positions prev segments,
    Forall (fun seg => part_of seg s) segments ->
    Forall (fun seg => part_of seg s)
      (comma_segments s positions prev segments).
Proof.
  induction positions as [|pos positions IH]; intros prev segments Hseg;
    cbn [comma_segments].
  - apply Forall_snoc_if; [exact Hseg|apply part_of_strip_slice].
  - apply IH. apply Forall_snoc_if; [exact Hseg|apply part_of_strip_slice].
Qed.

Lemma scan_after_terminal_none (rest : str) :
  forall prev,
    adjacent no_break match prev with
                      | Some p => p :: rest
                      | None => rest
                      end ->
    scan match_after_terminal prev 0 rest = List.map Lit rest.
Proof.
  induction rest as [|c rest IH]; intros prev Hadj; [reflexivity|].
  cbn [scan List.map].
  assert (E : match_after_terminal prev (c :: rest) = None).
  { destruct prev as [p|]; [|reflexivity].
    apply adjacent_cons in Hadj as [Hpc _].
    unfold match_after_terminal. fold (is_terminal p).
    destruct (is_terminal p) eqn:Ep; [|reflexivity].
    simpl. now rewrite (Hpc Ep). }
  rewrite E, (IH (Some c)); [reflexivity|].
  destruct prev; [exact (adjacent_tail _ _ _ Hadj)|exact Hadj].
Qed.

Lemma collapsed_parts (P : str) (l : list str) :
  Forall (fun c => isspace c = true -> c = SPACE) P ->
  adjacent not_both_spaces P ->
  Forall (fun s => part_of s P) l ->
  Forall (fun s => Forall (fun c => isspace c = true -> c = SPACE) s
                   /\ adjacent not_both_spaces s) l.
Proof.
  intros Hall Hadj. apply Forall_impl. intros s (a & b & ->). split.
  - apply Forall_app in Hall as [_ Hall]. now apply Forall_app in Hall.
  - eapply adjacent_app_l, adjacent_app_r. exact Hadj.
Qed.

(** X20.  Splitting a sentence again gives that sentence: each sentence
    that [split_into_sentences] returns is split into itself alone. *)
Theorem split_into_sentences_again (paragraph : str) :
  Forall (fun s => split_into_sentences s = [s])
    (split_into_sentences paragraph).
Proof.
  set (P := re_sub match_spaces (fun _ => [SPACE]) (strip paragraph)).
  assert (Hshape : Forall (fun c => isspace c = true -> c = SPACE) P
                   /\ adjacent not_both_spaces P).
  { destruct (collapsed_shape (strip paragraph) None 0 (or_introl eq_refl))
      as (Hall & Hadj & _). now split. }
  destruct Hshape as [Hall Hadj].
  assert (Hparts : Forall (fun s => part_of s P)
                     (split_into_sentences paragraph)).
  { unfold split_into_sentences. fold P.
    destruct (negb (nonempty P)); [constructor|].
    destruct (_ =? 1)%nat.
    - constructor; [apply part_of_refl|constructor].
    - apply stripped_parts, re_split_parts. }
  apply (collapsed_parts P _ Hall Hadj) in Hparts.
  pose proof (split_into_sentences_trimmed paragraph) as Htrim.
  pose proof (split_into_sentences_no_break paragraph) as Hnb.
  induction Htrim as [|s l [Hne Hs] _ IH]; [constructor|].
  inversion Hparts as [|? ? [Hsa Hsb] Hparts']; subst.
  inversion Hnb as [|? ? Hs_nb Hnb']; subst.
  constructor; [|now apply IH].
  unfold split_into_sentences. rewrite Hs.
  change (re_sub match_spaces (fun _ => [SPACE]) s)
    with (collapsed None 0 s).
  rewrite (collapsed_fixed s Hsa Hsb None).
  destruct s as [|c r] eqn:E; [contradiction|]. rewrite <- E in *.
  rewrite E at 1. cbn [nonempty negb].
  unfold re_split, tokens.
  rewrite (scan_after_terminal_none s None Hs_nb), split_tokens_literals.
  reflexivity.
Qed.

Section Parts.
Context {db : UnicodeDB}.

Lemma split_long_sentence_parts (fuel : nat) (s : str) (max_len : Z)
  (out : list piece) :
  split_long_sentence fuel s max_len = Done out ->
  Forall (fun p => part_of (piece_chunk p) s) out.
Proof.
  unfold split_long_sentence.
  destruct (0 <? length (comma_positions s))%nat;
    [|apply split_by_subordinators_parts].
  rewrite segment_loop_collect. intros H. apply bind_done_inv in H.
  revert H. apply collect_In_Forall. intros seg l Hseg Hl.
  apply segment_pieces_parts in Hl.
  eapply parts_of_part; [|exact Hl].
  pose proof (comma_segments_parts s (comma_positions s) 0 []
                (Forall_nil _)) as Hall.
  rewrite Forall_forall in Hall. now apply Hall.
Qed.

Lemma sentence_pieces_parts (fuel : nat) (max_len : Z) (sent : str)
  (l : list piece) :
  sentence_pieces fuel max_len sent = Done l ->
  Forall (fun p => part_of (piece_chunk p) sent) l.
Proof.
  unfold sentence_pieces. cbv zeta.
  destruct (negb (nonempty _)); [intros [= <-]; constructor|].
  destruct (_ <=? max_len)%Z.
  - intros [= <-]. constructor; [|constructor]. apply part_of_strip.
  - intros H. apply split_long_sentence_parts in H.
    eapply parts_of_part; [|exact H]. apply part_of_strip.
Qed.

Lemma final_chunks_parts (text : str) (ps : list piece) :
  Forall (fun p => part_of (piece_chunk p) text) ps ->
  Forall (fun c => part_of (Chunk.chunk c) text) (final_chunks ps).
Proof.
  induction 1 as [|p ps Hp _ IH]; [constructor|].
  cbn [final_chunks]. destruct (negb (nonempty (strip (piece_chunk p))));
    [exact IH|]. constructor; [|exact IH].
  cbn [Chunk.chunk]. exact (part_of_trans _ _ _ (part_of_strip _) Hp).
Qed.

Lemma normalize_for_tts_tidy (text : str) :
  strip (normalize_for_tts text) = normalize_for_tts text
  /\ Forall (fun c => isspace c = true -> c = SPACE) (normalize_for_tts text)
  /\ adjacent not_both_spaces (normalize_for_tts text).
Proof.
  unfold normalize_for_tts, normalize_spaces.
  set (u := re_sub match_comma_spaces _ _).
  destruct (collapsed_shape u None 0 (or_introl eq_refl)) as (Hall & Hadj & _).
  split; [apply strip_idem|].
  split; [now apply Forall_strip|now apply adjacent_strip].
Qed.

(** X21.  Every chunk of [chunk_text] is a run of consecutive characters
    of the normalized text: splitting writes no character of its own
    and never joins two places of the text. *)
Theorem chunk_text_chunks_are_parts (fuel : nat) (text : str) (max_len : Z)
  (chunks : list Chunk.t) :
  chunk_text fuel text max_len = Done chunks ->
  Forall (fun c => part_of (Chunk.chunk c) (normalize_for_tts text)) chunks.
Proof.
  unfold chunk_text. rewrite paragraphs_of_normalized. intros H.
  destruct (normalize_for_tts_tidy text) as (Hs & Hall & Hadj).
  destruct (normalize_for_tts text) as [|c r] eqn:E.
  - cbn in H. inversion H; subst. constructor.
  - rewrite <- E in *.
    destruct (paragraph_loop fuel max_len _ []) as [out| |] eqn:Ep;
      cbn [bind] in H; try discriminate.
    inversion H; subst. apply final_chunks_parts.
    rewrite paragraph_loop_collect in Ep. apply bind_done_inv in Ep.
    revert Ep. apply collect_In_Forall. intros para l [<-|[]].
    unfold process_paragraph. rewrite sentence_loop_collect.
    intros Hl. apply bind_done_inv in Hl. revert Hl.
    apply collect_In_Forall. intros sent l' Hsent Hl'.
    apply sentence_pieces_parts in Hl'.
    eapply parts_of_part; [|exact Hl'].
    pose proof (split_into_sentences_parts _ Hs Hall Hadj) as Hparts.
    rewrite Forall_forall in Hparts. exact (Hparts sent Hsent).
Qed.
End Parts.

Lemma chunk_text_chunks_are_parts_witness :
  exists chunks,
    chunk_text 50
      (lit "Yes - we go, when the rain and the wind stop. Wait!") 14
    = Done chunks
    /\ Forall
         (fun c =>
            part_of (Chunk.chunk c)
              (normalize_for_tts
                 (lit "Yes - we go, when the rain and the wind stop. Wait!")))
         chunks.
Proof.
  eexists. split; [vm_compute; reflexivity|].
  apply (chunk_text_chunks_are_parts 50
           (lit "Yes - we go, when the rain and the wind stop. Wait!") 14).
  vm_compute. reflexivity.
Defined.
